(** * Channel pipelines and coordination primitives of [pkg/idioms]

    A shallow embedding of the goroutine/channel code of
    [pkg/idioms/channels.go] (Generator, SafePipeline, FanOutFanIn, Tee,
    Broadcaster, OrDone, Bridge) and [pkg/idioms/concurrency.go]
    (WorkerPool, RateLimiter).

    Every goroutine is a small state machine whose control points are the
    blocking operations of its source text; a system of goroutines is a
    labelled transition function [step : label -> state -> option state]
    in which a label names the goroutine (and the [select] case) that the
    scheduler lets run.  A schedule is a list of labels; properties are
    proved for every schedule. *)

From stdpp Require Import base tactics option list numbers.
From Stdlib Require Import ZArith Lia.

Local Open Scope Z_scope.

(** ** Go's [int] on 64-bit targets: two's complement wrap-around *)

Module GoInt.

Definition wrap (z : Z) : Z := (z + 2 ^ 63) mod 2 ^ 64 - 2 ^ 63.

Definition mul (x y : Z) : Z := wrap (x * y).

Definition in_range (z : Z) : Prop := - 2 ^ 63 <= z < 2 ^ 63.

End GoInt.

(** ** Buffered channels

    [make(chan T, cap)]: a FIFO buffer, a capacity and the closed flag.
    The three blocking operations report whether they would complete,
    block, or panic. *)

Module Chan.

Record chan (T : Type) : Type := Mk { buf : list T; cap : nat; closed : bool }.
Arguments Mk {T} _ _ _.
Arguments buf {T} _.
Arguments cap {T} _.
Arguments closed {T} _.

Definition make {T} (capacity : nat) : chan T := Mk [] capacity false.

Definition len {T} (c : chan T) : nat := length (buf c).

Definition full {T} (c : chan T) : bool := bool_decide (cap c <= len c)%nat.

Inductive send_result (T : Type) : Type :=
| SendOk (c' : chan T)
| SendBlock
| SendPanic.
Arguments SendOk {T} _.
Arguments SendBlock {T}.
Arguments SendPanic {T}.

Inductive recv_result (T : Type) : Type :=
| RecvOk (v : T) (c' : chan T)
| RecvClosed
| RecvBlock.
Arguments RecvOk {T} _ _.
Arguments RecvClosed {T}.
Arguments RecvBlock {T}.

(** [c <- v] with no receiver parked on [c]. *)
Definition send {T} (c : chan T) (v : T) : send_result T :=
  if closed c then SendPanic
  else if full c then SendBlock
  else SendOk (Mk (buf c ++ [v]) (cap c) (closed c)).

(** [<-c]: buffered values are delivered even after [close]. *)
Definition recv {T} (c : chan T) : recv_result T :=
  match buf c with
  | v :: rest => RecvOk v (Mk rest (cap c) (closed c))
  | [] => if closed c then RecvClosed else RecvBlock
  end.

(** [close(c)]; closing a closed channel panics ([None]). *)
Definition close {T} (c : chan T) : option (chan T) :=
  if closed c then None else Some (Mk (buf c) (cap c) true).

(** [select { case c <- v: default: }] *)
Definition try_send {T} (c : chan T) (v : T) : option (chan T * bool) :=
  match send c v with
  | SendOk c' => Some (c', true)
  | SendBlock => Some (c, false)
  | SendPanic => None
  end.

End Chan.

(** ** Schedules over a labelled transition function *)

Module LTS.
Section Exec.
Context {state label : Type}.
Variable step : label -> state -> option state.

Fixpoint exec (sched : list label) (s : state) : option state :=
  match sched with
  | [] => Some s
  | l :: rest =>
      match step l s with
      | Some s' => exec rest s'
      | None => None
      end
  end.

(** No label of the class [allowed] is enabled. *)
Definition quiescent (allowed : label -> Prop) (s : state) : Prop :=
  forall l, allowed l -> step l s = None.

(** First enabled label of a candidate list: a deterministic scheduler. *)
Fixpoint pick (cands : list label) (s : state) : option state :=
  match cands with
  | [] => None
  | l :: rest =>
      match step l s with
      | Some s' => Some s'
      | None => pick rest s
      end
  end.

Fixpoint run (cands : state -> list label) (fuel : nat) (s : state) : state :=
  match fuel with
  | O => s
  | S n =>
      match pick (cands s) s with
      | Some s' => run cands n s'
      | None => s
      end
  end.

End Exec.
End LTS.

(** ** Generator and the consuming caller

    [Generator] (channels.go:37-53):
<<
    defer close(ch)
    for _, v := range values {
        select { case <-ctx.Done(): return; case ch <- v: }
    }
>>
    [GenLoop rest]: the loop still has [rest] to emit (at the [select] when
    [rest] is non-empty, falling out of the loop when it is empty);
    [GenExited]: the deferred [close(ch)] has run.  [ch] is unbuffered, so
    a send completes only together with a receive. *)

Module Source.

Inductive gen_pc (T : Type) : Type :=
| GenLoop (rest : list T)
| GenExited.
Arguments GenLoop {T} _.
Arguments GenExited {T}.

Definition Generator {T} (values : list T) : gen_pc T := GenLoop values.

(** [case ch <- v] together with the receive of a ready reader. *)
Definition gen_send {T} (g : gen_pc T) : option (T * gen_pc T) :=
  match g with
  | GenLoop (v :: rest) => Some (v, GenLoop rest)
  | _ => None
  end.

(** Loop exhausted: the deferred [close(ch)]. *)
Definition gen_exit {T} (g : gen_pc T) : option (gen_pc T) :=
  match g with
  | GenLoop [] => Some GenExited
  | _ => None
  end.

(** [case <-ctx.Done(): return], then the deferred [close(ch)]. *)
Definition gen_cancel {T} (cancelled : bool) (g : gen_pc T) : option (gen_pc T) :=
  match g with
  | GenLoop (_ :: _) => if cancelled then Some GenExited else None
  | _ => None
  end.

Definition gen_closed {T} (g : gen_pc T) : bool :=
  match g with GenExited => true | GenLoop _ => false end.

Definition gen_rest {T} (g : gen_pc T) : list T :=
  match g with GenLoop rest => rest | GenExited => [] end.

(** The caller's [for val := range out { collected = append(collected, val) }].
    [ConsGone]: the caller stopped receiving without reaching the end. *)
Inductive cons_pc : Type := Consuming | ConsDone | ConsGone.

End Source.

(** ** Generator -> stage -> caller

    The stage goroutine of [SafePipeline] (channels.go:18-34) and of
    [Square] (concurrency.go:34-49):
<<
    defer close(output)
    for item := range input {
        select { case <-ctx.Done(): return; case output <- f(item): }
    }
>>
    with [f item = item * 2] in [SafePipeline] and [f n = n * n] in
    [Square]. *)

Module Pipeline.
Import Source.

Definition double (item : Z) : Z := GoInt.mul item 2.
Definition square (n : Z) : Z := GoInt.mul n n.

Inductive stage_pc : Type :=
| StRange                (* blocked in [range input] *)
| StSelect (item : Z)    (* at the [select] with [item] in hand *)
| StExited.              (* returned; [output] closed *)

Record state : Type := Mk {
  cancelled : bool;      (* ctx.Done() is closed *)
  gen : gen_pc Z;
  stage : stage_pc;
  cons : cons_pc;
  collected : list Z
}.

Inductive label : Type :=
| GenSend          (* Generator's [ch <- v] meets the stage's [range input] *)
| GenExit          (* Generator leaves its loop and closes [ch] *)
| GenCancel        (* Generator takes [<-ctx.Done()] *)
| StageRecvClosed  (* [range input] sees [input] closed *)
| StageSend        (* [output <- f item] meets the caller's receive *)
| StageCancel      (* the stage takes [<-ctx.Done()] *)
| ConsEnd          (* the caller's [range] sees [output] closed *)
| Cancel           (* environment: the context is cancelled *)
| Leave.           (* environment: the caller stops receiving *)

Definition program (l : label) : Prop :=
  match l with Cancel | Leave => False | _ => True end.

Definition labels : list label :=
  [GenSend; GenExit; GenCancel; StageRecvClosed; StageSend; StageCancel; ConsEnd].

Section Stage.
Variable f : Z -> Z.

Definition init (values : list Z) : state :=
  Mk false (Generator values) StRange Consuming [].

Definition step (l : label) (s : state) : option state :=
  match l with
  | GenSend =>
      match stage s, gen_send (gen s) with
      | StRange, Some (v, g') =>
          Some (Mk (cancelled s) g' (StSelect v) (cons s) (collected s))
      | _, _ => None
      end
  | GenExit =>
      g' ← gen_exit (gen s);
      Some (Mk (cancelled s) g' (stage s) (cons s) (collected s))
  | GenCancel =>
      g' ← gen_cancel (cancelled s) (gen s);
      Some (Mk (cancelled s) g' (stage s) (cons s) (collected s))
  | StageRecvClosed =>
      match stage s with
      | StRange =>
          if gen_closed (gen s)
          then Some (Mk (cancelled s) (gen s) StExited (cons s) (collected s))
          else None
      | _ => None
      end
  | StageSend =>
      match stage s, cons s with
      | StSelect item, Consuming =>
          Some (Mk (cancelled s) (gen s) StRange Consuming (collected s ++ [f item]))
      | _, _ => None
      end
  | StageCancel =>
      match stage s with
      | StSelect _ =>
          if cancelled s
          then Some (Mk (cancelled s) (gen s) StExited (cons s) (collected s))
          else None
      | _ => None
      end
  | ConsEnd =>
      match stage s, cons s with
      | StExited, Consuming =>
          Some (Mk (cancelled s) (gen s) StExited ConsDone (collected s))
      | _, _ => None
      end
  | Cancel =>
      if cancelled s then None
      else Some (Mk true (gen s) (stage s) (cons s) (collected s))
  | Leave =>
      match cons s with
      | Consuming => Some (Mk (cancelled s) (gen s) (stage s) ConsGone (collected s))
      | _ => None
      end
  end.

(** Every goroutine has returned. *)
Definition all_exited (s : state) : Prop :=
  gen s = GenExited /\ stage s = StExited.

(** Steps left at most, whatever the schedule. *)
Definition measure (s : state) : nat :=
  (if cancelled s then 0 else 1) +
  match gen s with GenLoop rest => 2 * length rest + 1 | GenExited => 0 end +
  match stage s with StRange => 1 | StSelect _ => 2 | StExited => 0 end +
  match cons s with Consuming => 1 | _ => 0 end.

(** Values in flight, oldest first, as they will reach the caller. *)
Definition pending (s : state) : list Z :=
  match stage s with StSelect item => [f item] | _ => [] end ++
  map f (gen_rest (gen s)).

(** The caller's loop to completion under the first-enabled scheduler. *)
Definition collect (values : list Z) : list Z :=
  collected (LTS.run step (fun _ => labels) (measure (init values)) (init values)).

End Stage.

(** [SafePipeline(ctx, Generator(ctx, values...))], ranged over by the caller. *)
Definition SafePipeline_step := step double.
Definition Square_step := step square.

End Pipeline.

(** ** Fan-out / fan-in

    [FanOutFanIn] (channels.go:56-66) starts [workers] goroutines of
    [worker] (channels.go:68-85), all ranging over the same [input]:
<<
    defer close(output)
    for val := range input {
        select { case <-ctx.Done(): return; case output <- val * val: ... }
    }
>>
    and [merge] (channels.go:87-112) starts, for each worker channel [c],
    a forwarder
<<
    defer wg.Done()
    for val := range c {
        select { case <-ctx.Done(): return; case output <- val: }
    }
>>
    plus one barrier goroutine [wg.Wait(); close(output)]. *)

Module Fan.
Import Source.

Definition square (val : Z) : Z := GoInt.mul val val.

Inductive worker_pc : Type :=
| WRange               (* blocked in [range input] *)
| WSelect (val : Z)    (* at the [select] with [val] in hand *)
| WExited.             (* returned; its [output] closed *)

Inductive fwd_pc : Type :=
| FRange               (* blocked in [range c] *)
| FSelect (val : Z)    (* at the [select] with [val] in hand *)
| FExited.             (* returned; [wg.Done()] has run *)

Record state : Type := Mk {
  cancelled : bool;
  gen : gen_pc Z;
  workers : list worker_pc;   (* goroutine behind [workerChannels[i]] *)
  fwds : list fwd_pc;         (* merge's goroutine for [workerChannels[i]] *)
  wg : nat;                   (* the WaitGroup counter *)
  merged_closed : bool;       (* the barrier has run [close(output)] *)
  cons : cons_pc;
  collected : list Z;
  panicked : bool             (* a send hit the closed merged output *)
}.

Inductive label : Type :=
| GenSend (i : nat)          (* Generator's send meets worker [i]'s receive *)
| GenExit
| GenCancel
| WorkerRecvClosed (i : nat) (* worker [i] sees [input] closed *)
| WorkerSend (i : nat)       (* worker [i]'s send meets forwarder [i]'s receive *)
| WorkerCancel (i : nat)
| FwdRecvClosed (i : nat)    (* forwarder [i] sees its worker channel closed *)
| FwdSend (i : nat)          (* forwarder [i]'s send meets the caller's receive *)
| FwdCancel (i : nat)
| Barrier                    (* [wg.Wait()] returns, [close(output)] *)
| ConsEnd
| Cancel
| Leave.

Definition program (l : label) : Prop :=
  match l with Cancel | Leave => False | _ => True end.

(** [make([]<-chan int, workers)] panics on a negative length. *)
Definition FanOutFanIn (values : list Z) (workers : Z) : option state :=
  if workers <? 0 then None
  else
    let n := Z.to_nat workers in
    Some (Mk false (Generator values) (replicate n WRange) (replicate n FRange)
             n false Consuming [] false).

Definition set_worker (s : state) (g : gen_pc Z) (i : nat) (w : worker_pc) : state :=
  Mk (cancelled s) g (<[i := w]> (workers s)) (fwds s) (wg s)
     (merged_closed s) (cons s) (collected s) (panicked s).

Definition step (l : label) (s : state) : option state :=
  match l with
  | GenSend i =>
      match workers s !! i, gen_send (gen s) with
      | Some WRange, Some (v, g') => Some (set_worker s g' i (WSelect v))
      | _, _ => None
      end
  | GenExit =>
      g' ← gen_exit (gen s);
      Some (Mk (cancelled s) g' (workers s) (fwds s) (wg s)
               (merged_closed s) (cons s) (collected s) (panicked s))
  | GenCancel =>
      g' ← gen_cancel (cancelled s) (gen s);
      Some (Mk (cancelled s) g' (workers s) (fwds s) (wg s)
               (merged_closed s) (cons s) (collected s) (panicked s))
  | WorkerRecvClosed i =>
      match workers s !! i with
      | Some WRange =>
          if gen_closed (gen s) then Some (set_worker s (gen s) i WExited) else None
      | _ => None
      end
  | WorkerSend i =>
      match workers s !! i, fwds s !! i with
      | Some (WSelect val), Some FRange =>
          Some (Mk (cancelled s) (gen s) (<[i := WRange]> (workers s))
                   (<[i := FSelect (square val)]> (fwds s)) (wg s)
                   (merged_closed s) (cons s) (collected s) (panicked s))
      | _, _ => None
      end
  | WorkerCancel i =>
      match workers s !! i with
      | Some (WSelect _) =>
          if cancelled s then Some (set_worker s (gen s) i WExited) else None
      | _ => None
      end
  | FwdRecvClosed i =>
      match fwds s !! i, workers s !! i with
      | Some FRange, Some WExited =>
          Some (Mk (cancelled s) (gen s) (workers s) (<[i := FExited]> (fwds s))
                   (pred (wg s)) (merged_closed s) (cons s) (collected s) (panicked s))
      | _, _ => None
      end
  | FwdSend i =>
      match fwds s !! i with
      | Some (FSelect val) =>
          if merged_closed s then
            (* send on a closed channel *)
            Some (Mk (cancelled s) (gen s) (workers s) (<[i := FExited]> (fwds s))
                     (wg s) true (cons s) (collected s) true)
          else
            match cons s with
            | Consuming =>
                Some (Mk (cancelled s) (gen s) (workers s) (<[i := FRange]> (fwds s))
                         (wg s) false Consuming (collected s ++ [val]) (panicked s))
            | _ => None
            end
      | _ => None
      end
  | FwdCancel i =>
      match fwds s !! i with
      | Some (FSelect _) =>
          if cancelled s then
            Some (Mk (cancelled s) (gen s) (workers s) (<[i := FExited]> (fwds s))
                     (pred (wg s)) (merged_closed s) (cons s) (collected s) (panicked s))
          else None
      | _ => None
      end
  | Barrier =>
      match wg s, merged_closed s with
      | O, false =>
          Some (Mk (cancelled s) (gen s) (workers s) (fwds s) O
                   true (cons s) (collected s) (panicked s))
      | _, _ => None
      end
  | ConsEnd =>
      match merged_closed s, cons s with
      | true, Consuming =>
          Some (Mk (cancelled s) (gen s) (workers s) (fwds s) (wg s)
                   true ConsDone (collected s) (panicked s))
      | _, _ => None
      end
  | Cancel =>
      if cancelled s then None
      else Some (Mk true (gen s) (workers s) (fwds s) (wg s)
                    (merged_closed s) (cons s) (collected s) (panicked s))
  | Leave =>
      match cons s with
      | Consuming =>
          Some (Mk (cancelled s) (gen s) (workers s) (fwds s) (wg s)
                   (merged_closed s) ConsGone (collected s) (panicked s))
      | _ => None
      end
  end.

Definition worker_exited (w : worker_pc) : Prop := w = WExited.
Definition fwd_exited (p : fwd_pc) : Prop := p = FExited.

Definition all_exited (s : state) : Prop :=
  gen s = GenExited /\
  Forall worker_exited (workers s) /\
  Forall fwd_exited (fwds s) /\
  merged_closed s = true.

Definition worker_weight (w : worker_pc) : nat :=
  match w with WRange => 1 | WSelect _ => 3 | WExited => 0 end.

Definition fwd_weight (p : fwd_pc) : nat :=
  match p with FRange => 1 | FSelect _ => 2 | FExited => 0 end.

Definition measure (s : state) : nat :=
  (if cancelled s then 0 else 1) +
  match gen s with GenLoop rest => 3 * length rest + 1 | GenExited => 0 end +
  sum_list_with worker_weight (workers s) +
  sum_list_with fwd_weight (fwds s) +
  (if merged_closed s then 0 else 1) +
  match cons s with Consuming => 1 | _ => 0 end.

(** Labels the first-enabled scheduler tries, worker by worker. *)
Definition labels (s : state) : list label :=
  [GenExit; GenCancel; Barrier; ConsEnd] ++
  flat_map (fun i => [FwdSend i; FwdRecvClosed i; FwdCancel i;
                      WorkerSend i; WorkerRecvClosed i; WorkerCancel i; GenSend i])
           (seq 0 (length (workers s))).

Definition collect (values : list Z) (workers : Z) : option (list Z) :=
  s0 ← FanOutFanIn values workers;
  Some (collected (LTS.run step labels (measure s0) s0)).

End Fan.

(** ** Tee

    [Tee] (channels.go:115-140):
<<
    defer close(ch1)
    defer close(ch2)
    for val := range input {
        select { case <-ctx.Done(): return; case ch1 <- val: }
        select { case <-ctx.Done(): return; case ch2 <- val: }
    }
>>
    Deferred calls run last-in first-out: [close(ch2)], then [close(ch1)].
    Each output is ranged over by its own caller. *)

Module Tee.
Import Source.

Inductive tee_pc : Type :=
| TRange                (* blocked in [range input] *)
| TSelect1 (val : Z)    (* at the first [select] *)
| TSelect2 (val : Z)    (* at the second [select] *)
| TClose2               (* returning: about to run [close(ch2)] *)
| TClose1               (* [ch2] closed, about to run [close(ch1)] *)
| TExited.

Record state : Type := Mk {
  cancelled : bool;
  gen : gen_pc Z;
  tee : tee_pc;
  closes1 : nat;          (* how many times [close(ch1)] has run *)
  closes2 : nat;          (* how many times [close(ch2)] has run *)
  cons1 : cons_pc;
  out1 : list Z;          (* received from [out1] so far *)
  cons2 : cons_pc;
  out2 : list Z           (* received from [out2] so far *)
}.

Inductive label : Type :=
| GenSend          (* Generator's send meets Tee's [range input] *)
| GenExit
| GenCancel
| TeeRecvClosed    (* [range input] sees [input] closed *)
| TeeSend1         (* [ch1 <- val] meets the first caller's receive *)
| TeeCancel1       (* first [select] takes [<-ctx.Done()] *)
| TeeSend2         (* [ch2 <- val] meets the second caller's receive *)
| TeeCancel2       (* second [select] takes [<-ctx.Done()] *)
| TeeClose2        (* deferred [close(ch2)] *)
| TeeClose1        (* deferred [close(ch1)] *)
| Cons1End         (* first caller sees [out1] closed *)
| Cons2End         (* second caller sees [out2] closed *)
| Cancel
| Leave1           (* environment: first caller stops receiving *)
| Leave2.          (* environment: second caller stops receiving *)

Definition program (l : label) : Prop :=
  match l with Cancel | Leave1 | Leave2 => False | _ => True end.

Definition labels : list label :=
  [GenSend; GenExit; GenCancel; TeeRecvClosed; TeeSend1; TeeCancel1;
   TeeSend2; TeeCancel2; TeeClose2; TeeClose1; Cons1End; Cons2End].

Definition init (values : list Z) : state :=
  Mk false (Generator values) TRange 0 0 Consuming [] Consuming [].

Definition set_tee (s : state) (g : gen_pc Z) (t : tee_pc) : state :=
  Mk (cancelled s) g t (closes1 s) (closes2 s)
     (cons1 s) (out1 s) (cons2 s) (out2 s).

Definition step (l : label) (s : state) : option state :=
  match l with
  | GenSend =>
      match tee s, gen_send (gen s) with
      | TRange, Some (v, g') => Some (set_tee s g' (TSelect1 v))
      | _, _ => None
      end
  | GenExit => g' ← gen_exit (gen s); Some (set_tee s g' (tee s))
  | GenCancel => g' ← gen_cancel (cancelled s) (gen s); Some (set_tee s g' (tee s))
  | TeeRecvClosed =>
      match tee s with
      | TRange => if gen_closed (gen s) then Some (set_tee s (gen s) TClose2) else None
      | _ => None
      end
  | TeeSend1 =>
      match tee s, cons1 s with
      | TSelect1 val, Consuming =>
          if bool_decide (closes1 s = O) then
            Some (Mk (cancelled s) (gen s) (TSelect2 val) (closes1 s) (closes2 s)
                     Consuming (out1 s ++ [val]) (cons2 s) (out2 s))
          else None
      | _, _ => None
      end
  | TeeCancel1 =>
      match tee s with
      | TSelect1 _ => if cancelled s then Some (set_tee s (gen s) TClose2) else None
      | _ => None
      end
  | TeeSend2 =>
      match tee s, cons2 s with
      | TSelect2 val, Consuming =>
          if bool_decide (closes2 s = O) then
            Some (Mk (cancelled s) (gen s) TRange (closes1 s) (closes2 s)
                     (cons1 s) (out1 s) Consuming (out2 s ++ [val]))
          else None
      | _, _ => None
      end
  | TeeCancel2 =>
      match tee s with
      | TSelect2 _ => if cancelled s then Some (set_tee s (gen s) TClose2) else None
      | _ => None
      end
  | TeeClose2 =>
      match tee s with
      | TClose2 =>
          Some (Mk (cancelled s) (gen s) TClose1 (closes1 s) (S (closes2 s))
                   (cons1 s) (out1 s) (cons2 s) (out2 s))
      | _ => None
      end
  | TeeClose1 =>
      match tee s with
      | TClose1 =>
          Some (Mk (cancelled s) (gen s) TExited (S (closes1 s)) (closes2 s)
                   (cons1 s) (out1 s) (cons2 s) (out2 s))
      | _ => None
      end
  | Cons1End =>
      match cons1 s with
      | Consuming =>
          if bool_decide (closes1 s = O) then None
          else Some (Mk (cancelled s) (gen s) (tee s) (closes1 s) (closes2 s)
                        ConsDone (out1 s) (cons2 s) (out2 s))
      | _ => None
      end
  | Cons2End =>
      match cons2 s with
      | Consuming =>
          if bool_decide (closes2 s = O) then None
          else Some (Mk (cancelled s) (gen s) (tee s) (closes1 s) (closes2 s)
                        (cons1 s) (out1 s) ConsDone (out2 s))
      | _ => None
      end
  | Cancel =>
      if cancelled s then None
      else Some (Mk true (gen s) (tee s) (closes1 s) (closes2 s)
                    (cons1 s) (out1 s) (cons2 s) (out2 s))
  | Leave1 =>
      match cons1 s with
      | Consuming =>
          Some (Mk (cancelled s) (gen s) (tee s) (closes1 s) (closes2 s)
                   ConsGone (out1 s) (cons2 s) (out2 s))
      | _ => None
      end
  | Leave2 =>
      match cons2 s with
      | Consuming =>
          Some (Mk (cancelled s) (gen s) (tee s) (closes1 s) (closes2 s)
                   (cons1 s) (out1 s) ConsGone (out2 s))
      | _ => None
      end
  end.

Definition all_exited (s : state) : Prop :=
  gen s = GenExited /\ tee s = TExited.

Definition measure (s : state) : nat :=
  (if cancelled s then 0 else 1) +
  match gen s with GenLoop rest => 3 * length rest + 1 | GenExited => 0 end +
  match tee s with
  | TRange => 3 | TSelect1 _ => 5 | TSelect2 _ => 4
  | TClose2 => 2 | TClose1 => 1 | TExited => 0
  end +
  match cons1 s with Consuming => 1 | _ => 0 end +
  match cons2 s with Consuming => 1 | _ => 0 end.

(** Both callers' loops to completion under the first-enabled scheduler. *)
Definition collect (values : list Z) : list Z * list Z :=
  let s := LTS.run step (fun _ => labels) (measure (init values)) (init values) in
  (out1 s, out2 s).

End Tee.

(** ** OrDone and Bridge

    [OrDone] (channels.go:223-247), the relay Bridge starts for every
    channel it takes from [chanStream]:
<<
    defer close(output)
    for {
        select {
        case <-ctx.Done(): return
        case val, ok := <-ch:
            if !ok { return }
            select { case <-ctx.Done(): return; case output <- val: }
        }
    }
>>
    [Bridge] (channels.go:250-277):
<<
    defer close(output)
    for {
        select {
        case <-ctx.Done(): return
        case ch, ok := <-chanStream:
            if !ok { return }
            for val := range OrDone(ctx, ch) {
                select { case <-ctx.Done(): return; case output <- val: }
            }
        }
    }
>>
    The outer source is a Generator-like goroutine that sends the inner
    channels, numbered in the order it sends them, and closes
    [chanStream]; inner channel [k] is fed by its own Generator-like
    goroutine, [inners !! k]. *)

Module Bridge.
Import Source.

Inductive label : Type :=
| OuterSend          (* the outer send meets Bridge's receive at its [select] *)
| OuterExit
| OuterCancel
| InnerSend          (* an inner send meets the relay's receive at its [select] *)
| InnerExit (k : nat)
| InnerCancel (k : nat)
| RelayRecvClosed    (* the relay sees [ch] closed: [!ok] *)
| RelayCancelRecv    (* the relay's outer [select] takes [<-ctx.Done()] *)
| RelaySend          (* the relay's send meets Bridge's [range] *)
| RelayCancelSend    (* the relay's inner [select] takes [<-ctx.Done()] *)
| BridgeRecvClosed   (* Bridge sees [chanStream] closed: [!ok] *)
| BridgeCancelOuter  (* Bridge's outer [select] takes [<-ctx.Done()] *)
| BridgeRangeEnd     (* Bridge's [range] sees the relay's output closed *)
| BridgeSend         (* [output <- val] meets the caller's receive *)
| BridgeCancelInner  (* Bridge's inner [select] takes [<-ctx.Done()] *)
| ConsEnd
| Cancel
| Leave.

Definition program (l : label) : Prop :=
  match l with Cancel | Leave => False | _ => True end.

Section Bridge.
Context {T : Type}.

Inductive relay_pc : Type :=
| RNone                        (* no relay started yet *)
| RSelect (k : nat)            (* at the outer [select], reading inner channel [k] *)
| RSend (k : nat) (val : T)    (* at the inner [select] with [val] in hand *)
| RExited.                     (* returned; its output closed *)

Inductive bridge_pc : Type :=
| BSelect              (* at the outer [select] *)
| BRange               (* blocked in [range OrDone(ctx, ch)] *)
| BSend (val : T)      (* at the inner [select] with [val] in hand *)
| BExited.             (* returned; [output] closed *)

Record state : Type := Mk {
  cancelled : bool;
  outer : gen_pc nat;
  inners : list (gen_pc T);
  relay : relay_pc;
  bridge : bridge_pc;
  cons : cons_pc;
  collected : list T
}.

Definition init (sources : list (list T)) : state :=
  Mk false (Generator (seq 0 (length sources))) (map Generator sources)
     RNone BSelect Consuming [].

Definition set_inner (s : state) (k : nat) (g : gen_pc T) (r : relay_pc) : state :=
  Mk (cancelled s) (outer s) (<[k := g]> (inners s)) r (bridge s)
     (cons s) (collected s).

Definition set_relay (s : state) (r : relay_pc) (b : bridge_pc) : state :=
  Mk (cancelled s) (outer s) (inners s) r b (cons s) (collected s).

Definition set_outer (s : state) (o : gen_pc nat) : state :=
  Mk (cancelled s) o (inners s) (relay s) (bridge s) (cons s) (collected s).

Definition step (l : label) (s : state) : option state :=
  match l with
  | OuterSend =>
      match bridge s, gen_send (outer s) with
      | BSelect, Some (k, o') =>
          Some (Mk (cancelled s) o' (inners s) (RSelect k) BRange
                   (cons s) (collected s))
      | _, _ => None
      end
  | OuterExit => o' ← gen_exit (outer s); Some (set_outer s o')
  | OuterCancel => o' ← gen_cancel (cancelled s) (outer s); Some (set_outer s o')
  | InnerSend =>
      match relay s with
      | RSelect k =>
          g ← inners s !! k;
          '(v, g') ← gen_send g;
          Some (set_inner s k g' (RSend k v))
      | _ => None
      end
  | InnerExit k =>
      g ← inners s !! k;
      g' ← gen_exit g;
      Some (set_inner s k g' (relay s))
  | InnerCancel k =>
      g ← inners s !! k;
      g' ← gen_cancel (cancelled s) g;
      Some (set_inner s k g' (relay s))
  | RelayRecvClosed =>
      match relay s with
      | RSelect k =>
          g ← inners s !! k;
          if gen_closed g then Some (set_relay s RExited (bridge s)) else None
      | _ => None
      end
  | RelayCancelRecv =>
      match relay s with
      | RSelect _ =>
          if cancelled s then Some (set_relay s RExited (bridge s)) else None
      | _ => None
      end
  | RelaySend =>
      match relay s, bridge s with
      | RSend k val, BRange => Some (set_relay s (RSelect k) (BSend val))
      | _, _ => None
      end
  | RelayCancelSend =>
      match relay s with
      | RSend _ _ =>
          if cancelled s then Some (set_relay s RExited (bridge s)) else None
      | _ => None
      end
  | BridgeRecvClosed =>
      match bridge s with
      | BSelect =>
          if gen_closed (outer s) then Some (set_relay s (relay s) BExited) else None
      | _ => None
      end
  | BridgeCancelOuter =>
      match bridge s with
      | BSelect => if cancelled s then Some (set_relay s (relay s) BExited) else None
      | _ => None
      end
  | BridgeRangeEnd =>
      match bridge s, relay s with
      | BRange, RExited => Some (set_relay s RExited BSelect)
      | _, _ => None
      end
  | BridgeSend =>
      match bridge s, cons s with
      | BSend val, Consuming =>
          Some (Mk (cancelled s) (outer s) (inners s) (relay s) BRange
                   Consuming (collected s ++ [val]))
      | _, _ => None
      end
  | BridgeCancelInner =>
      match bridge s with
      | BSend _ => if cancelled s then Some (set_relay s (relay s) BExited) else None
      | _ => None
      end
  | ConsEnd =>
      match bridge s, cons s with
      | BExited, Consuming =>
          Some (Mk (cancelled s) (outer s) (inners s) (relay s) BExited
                   ConsDone (collected s))
      | _, _ => None
      end
  | Cancel =>
      if cancelled s then None
      else Some (Mk true (outer s) (inners s) (relay s) (bridge s)
                    (cons s) (collected s))
  | Leave =>
      match cons s with
      | Consuming =>
          Some (Mk (cancelled s) (outer s) (inners s) (relay s) (bridge s)
                   ConsGone (collected s))
      | _ => None
      end
  end.

Definition relay_exited (r : relay_pc) : Prop :=
  match r with RNone | RExited => True | _ => False end.

Definition all_exited (s : state) : Prop :=
  outer s = GenExited /\
  Forall (fun g => g = GenExited) (inners s) /\
  relay_exited (relay s) /\
  bridge s = BExited.

Definition inner_weight (g : gen_pc T) : nat :=
  match g with GenLoop rest => 3 * length rest + 1 | GenExited => 0 end.

Definition measure (s : state) : nat :=
  (if cancelled s then 0 else 1) +
  match outer s with GenLoop rest => 4 * length rest + 1 | GenExited => 0 end +
  sum_list_with inner_weight (inners s) +
  match relay s with RSelect _ => 1 | RSend _ _ => 3 | _ => 0 end +
  match bridge s with BSelect => 1 | BRange => 2 | BSend _ => 3 | BExited => 0 end +
  match cons s with Consuming => 1 | _ => 0 end.

Definition labels (s : state) : list label :=
  [OuterSend; OuterExit; OuterCancel; InnerSend; RelayRecvClosed;
   RelayCancelRecv; RelaySend; RelayCancelSend; BridgeRecvClosed;
   BridgeCancelOuter; BridgeRangeEnd; BridgeSend; BridgeCancelInner; ConsEnd] ++
  flat_map (fun k => [InnerExit k; InnerCancel k]) (seq 0 (length (inners s))).

(** The caller's loop to completion under the first-enabled scheduler. *)
Definition collect (sources : list (list T)) : list T :=
  collected (LTS.run step labels (measure (init sources)) (init sources)).

End Bridge.
Arguments relay_pc : clear implicits.
Arguments bridge_pc : clear implicits.
Arguments state : clear implicits.

End Bridge.

(** ** Token-bucket rate limiter

    [RateLimiter] (concurrency.go:180-240).  [tokens] is a buffered
    channel of [struct{}] whose length is the token count; the refill
    goroutine started by [NewRateLimiter] loops on
<<
    select {
    case <-ticker.C:
        select { case rl.tokens <- struct{}{}: default: }
    case <-rl.stop:
        return
    }
>>
    A ticker firing is an event of the environment ([Tick]); durations
    are not modelled. *)

Module Limiter.

Record RateLimiter : Type := Mk {
  tokens : Chan.chan unit;
  stop_closed : bool;        (* [close(rl.stop)] has run *)
  refill_running : bool;     (* the refill goroutine has not returned *)
  waiters : nat              (* callers parked in [Wait] on [<-rl.tokens] *)
}.

(** [for i := 0; i < capacity; i++ { rl.tokens <- struct{}{} }]: a send
    that cannot complete leaves the constructor blocked for ever. *)
Fixpoint fill (n : nat) (c : Chan.chan unit) : option (Chan.chan unit) :=
  match n with
  | O => Some c
  | S n' =>
      match Chan.send c tt with
      | Chan.SendOk c' => fill n' c'
      | _ => None
      end
  end.

(** [make(chan struct{}, capacity)] panics on a negative capacity. *)
Definition NewRateLimiter (capacity : Z) : option RateLimiter :=
  if capacity <? 0 then None
  else
    c ← fill (Z.to_nat capacity) (Chan.make (Z.to_nat capacity));
    Some (Mk c false true O).

(** [select { case <-rl.tokens: return true; default: return false }] *)
Definition Allow (rl : RateLimiter) : RateLimiter * bool :=
  match Chan.recv (tokens rl) with
  | Chan.RecvOk _ c' => (Mk c' (stop_closed rl) (refill_running rl) (waiters rl), true)
  | Chan.RecvClosed => (rl, true)
  | Chan.RecvBlock => (rl, false)
  end.

Inductive label : Type :=
| CallAllow     (* some caller runs [Allow] *)
| CallWait      (* some caller enters [Wait]: takes a token or parks *)
| Tick          (* the ticker fires and the refill goroutine takes that case *)
| CallClose     (* some caller runs [Close] *)
| RefillExit.   (* the refill goroutine takes [<-rl.stop] and returns *)

(** [None]: the step cannot happen, or ([CallClose] on a stopped
    limiter) panics. *)
Definition step (l : label) (rl : RateLimiter) : option RateLimiter :=
  match l with
  | CallAllow => Some (fst (Allow rl))
  | CallWait =>
      match Chan.recv (tokens rl) with
      | Chan.RecvOk _ c' =>
          Some (Mk c' (stop_closed rl) (refill_running rl) (waiters rl))
      | Chan.RecvClosed => Some rl
      | Chan.RecvBlock =>
          Some (Mk (tokens rl) (stop_closed rl) (refill_running rl) (S (waiters rl)))
      end
  | Tick =>
      if refill_running rl then
        match waiters rl with
        | S w =>
            (* the send completes at once into a parked receiver *)
            Some (Mk (tokens rl) (stop_closed rl) true w)
        | O =>
            match Chan.try_send (tokens rl) tt with
            | Some (c', _) => Some (Mk c' (stop_closed rl) true O)
            | None => None
            end
        end
      else None
  | CallClose =>
      if stop_closed rl then None
      else Some (Mk (tokens rl) true (refill_running rl) (waiters rl))
  | RefillExit =>
      if stop_closed rl && refill_running rl
      then Some (Mk (tokens rl) true false (waiters rl))
      else None
  end.


Definition count (rl : RateLimiter) : nat := Chan.len (tokens rl).

End Limiter.

(** ** Worker pool

    [WorkerPool] (concurrency.go:89-129).  [NewWorkerPool] makes the
    queue [jobs] with capacity 100 and [start] launches [workers]
    goroutines of
<<
    defer p.wg.Done()
    for job := range p.jobs { job() }
>>
    [Submit] is the bare send [p.jobs <- job]; [Close] is
    [close(p.jobs); p.wg.Wait()].  A job is an opaque [func()]: it is
    identified by a number and its completed calls are logged.  One
    caller goroutine runs a script of [Submit] and [Close] calls. *)

Module Pool.

Definition job : Type := nat.

Inductive worker_pc : Type :=
| WRange                 (* blocked in [range p.jobs] *)
| WRunning (j : job)     (* inside [job()] *)
| WExited.               (* returned; [p.wg.Done()] has run *)

Inductive op : Type :=
| OpSubmit (j : job)     (* [pool.Submit(job)] *)
| OpClose.               (* [pool.Close()] *)

Inductive caller_pc : Type :=
| CRun (script : list op)     (* about to make the next call; [[]]: done *)
| CWait (script : list op)    (* inside [Close], at [p.wg.Wait()] *)
| CPanicked.                  (* a send on, or a close of, the closed queue *)

Record state : Type := Mk {
  workers : Z;                 (* [p.workers] *)
  jobs : Chan.chan job;        (* [p.jobs] *)
  wg : nat;                    (* the WaitGroup counter *)
  pcs : list worker_pc;        (* the goroutines launched by [start] *)
  caller : caller_pc;
  finished : list job          (* calls of [job()] that have returned *)
}.

(** [NewWorkerPool(workers)] followed by the caller's script.  The loop
    [for i := 0; i < p.workers; i++] launches nothing when [workers <= 0]. *)
Definition NewWorkerPool (workers : Z) (script : list op) : state :=
  let n := Z.to_nat workers in
  Mk workers (Chan.make 100) n (replicate n WRange) (CRun script) [].

Inductive label : Type :=
| Submit             (* the caller's [p.jobs <- job] *)
| CloseJobs          (* the caller's [close(p.jobs)] *)
| WgWait             (* the caller's [p.wg.Wait()] returns *)
| Take (i : nat)     (* worker [i] receives a job *)
| Finish (i : nat)   (* worker [i]'s [job()] returns *)
| Exit (i : nat).    (* worker [i] sees the queue closed and drained *)

Definition set_caller (s : state) (q : Chan.chan job) (c : caller_pc) : state :=
  Mk (workers s) q (wg s) (pcs s) c (finished s).

Definition step (l : label) (s : state) : option state :=
  match caller s with
  | CPanicked => None       (* the panic has ended the program *)
  | _ =>
    match l with
    | Submit =>
        match caller s with
        | CRun (OpSubmit j :: rest) =>
            match Chan.send (jobs s) j with
            | Chan.SendOk q => Some (set_caller s q (CRun rest))
            | Chan.SendBlock => None
            | Chan.SendPanic => Some (set_caller s (jobs s) CPanicked)
            end
        | _ => None
        end
    | CloseJobs =>
        match caller s with
        | CRun (OpClose :: rest) =>
            match Chan.close (jobs s) with
            | Some q => Some (set_caller s q (CWait rest))
            | None => Some (set_caller s (jobs s) CPanicked)
            end
        | _ => None
        end
    | WgWait =>
        match caller s, wg s with
        | CWait rest, O => Some (set_caller s (jobs s) (CRun rest))
        | _, _ => None
        end
    | Take i =>
        match pcs s !! i, Chan.recv (jobs s) with
        | Some WRange, Chan.RecvOk j q =>
            Some (Mk (workers s) q (wg s) (<[i := WRunning j]> (pcs s))
                     (caller s) (finished s))
        | _, _ => None
        end
    | Finish i =>
        match pcs s !! i with
        | Some (WRunning j) =>
            Some (Mk (workers s) (jobs s) (wg s) (<[i := WRange]> (pcs s))
                     (caller s) (finished s ++ [j]))
        | _ => None
        end
    | Exit i =>
        match pcs s !! i, Chan.recv (jobs s) with
        | Some WRange, Chan.RecvClosed =>
            Some (Mk (workers s) (jobs s) (pred (wg s)) (<[i := WExited]> (pcs s))
                     (caller s) (finished s))
        | _, _ => None
        end
    end
  end.

Definition submitted (script : list op) : list job :=
  omap (fun o => match o with OpSubmit j => Some j | OpClose => None end) script.

Definition op_weight (o : op) : nat :=
  match o with OpSubmit _ => 3 | OpClose => 2 end.

Definition worker_weight (w : worker_pc) : nat :=
  match w with WRange => 1 | WRunning _ => 2 | WExited => 0 end.

Definition measure (s : state) : nat :=
  match caller s with
  | CRun script => sum_list_with op_weight script
  | CWait script => 1 + sum_list_with op_weight script
  | CPanicked => 0
  end +
  2 * Chan.len (jobs s) +
  sum_list_with worker_weight (pcs s).

Definition labels (s : state) : list label :=
  [Submit; CloseJobs; WgWait] ++
  flat_map (fun i => [Finish i; Take i; Exit i]) (seq 0 (length (pcs s))).

(** The script to completion under the first-enabled scheduler. *)
Definition run_script (workers : Z) (script : list op) : state :=
  let s0 := NewWorkerPool workers script in
  LTS.run step labels (measure s0) s0.

End Pool.

(** ** Broadcaster

    [Broadcaster] (channels.go:142-220).  [NewBroadcaster] makes the
    inbox [input] with capacity 10 and starts the dispatcher [run]:
<<
    for {
        select {
        case <-b.ctx.Done(): b.closeAll(); return
        case val := <-b.input: b.broadcast(val)
        }
    }
>>
    [broadcast] holds the read lock while it offers [val] to every
    subscriber with [select { case ch <- val: default: }]; [Subscribe]
    and [closeAll] take the write lock, so neither runs in the middle of
    a [broadcast].  Each subscription is ranged over by its own caller;
    [got] records what that caller has received, and [accepted] the
    values that [Send] has put into the inbox, in order. *)

Module Broadcast.
Section Broadcaster.
Context {T : Type}.

Record subscriber : Type := Sub {
  ch : Chan.chan T;      (* the channel returned by [Subscribe] *)
  got : list T;          (* received by the ranging caller so far *)
  ended : bool           (* the caller's [range] has seen [ch] closed *)
}.

Inductive disp_pc : Type :=
| DSelect                         (* at the [select] of [run] *)
| DBroadcast (val : T) (i : nat)  (* in [broadcast], about to offer to subscriber [i] *)
| DExited.                        (* [closeAll] done, [run] returned *)

Record state : Type := Mk {
  subscribers : list subscriber;
  input : Chan.chan T;
  ctx_done : bool;                (* [b.cancel()] has been called *)
  dispatcher : disp_pc;
  accepted : list T;
  panicked : bool                 (* a send on, or close of, a closed channel *)
}.

Definition NewBroadcaster : state :=
  Mk [] (Chan.make 10) false DSelect [] false.

Inductive label : Type :=
| SendEnqueue (v : T)   (* [Send(v)] takes [case b.input <- val] *)
| SendDropped (v : T)   (* [Send(v)] takes [case <-b.ctx.Done()] *)
| CallSubscribe         (* [Subscribe()] *)
| CallClose             (* [Close()] *)
| Recv (i : nat)        (* subscriber [i]'s caller receives, or sees the end *)
| DispTake              (* [run] takes [case val := <-b.input] *)
| DispDone              (* [run] takes [case <-b.ctx.Done()] and runs [closeAll] *)
| DispOffer             (* [broadcast]: one [select { case ch <- val: default: }] *)
| DispLoopEnd.          (* [broadcast] returns *)

(** The dispatcher's own steps and the subscribers' callers. *)
Definition program (l : label) : Prop :=
  match l with
  | Recv _ | DispTake | DispDone | DispOffer | DispLoopEnd => True
  | _ => False
  end.

Definition dispatch (l : label) : Prop :=
  match l with
  | DispTake | DispDone | DispOffer | DispLoopEnd => True
  | _ => False
  end.

(** [for _, ch := range b.subscribers { close(ch) }]; [None] if some
    channel is already closed. *)
Fixpoint closeAll (subs : list subscriber) : option (list subscriber) :=
  match subs with
  | [] => Some []
  | s :: rest =>
      c ← Chan.close (ch s);
      rest' ← closeAll rest;
      Some (Sub c (got s) (ended s) :: rest')
  end.

Definition step (l : label) (s : state) : option state :=
  match l with
  | SendEnqueue v =>
      match Chan.send (input s) v with
      | Chan.SendOk q =>
          Some (Mk (subscribers s) q (ctx_done s) (dispatcher s)
                   (accepted s ++ [v]) (panicked s))
      | Chan.SendBlock => None
      | Chan.SendPanic =>
          Some (Mk (subscribers s) (input s) (ctx_done s) (dispatcher s)
                   (accepted s) true)
      end
  | SendDropped v => if ctx_done s then Some s else None
  | CallSubscribe =>
      match dispatcher s with
      | DBroadcast _ _ => None      (* the read lock is held *)
      | _ =>
          Some (Mk (subscribers s ++ [Sub (Chan.make 10) [] false]) (input s)
                   (ctx_done s) (dispatcher s) (accepted s) (panicked s))
      end
  | CallClose =>
      Some (Mk (subscribers s) (input s) true (dispatcher s)
               (accepted s) (panicked s))
  | Recv i =>
      sub ← subscribers s !! i;
      if ended sub then None
      else
        match Chan.recv (ch sub) with
        | Chan.RecvOk v c' =>
            Some (Mk (<[i := Sub c' (got sub ++ [v]) false]> (subscribers s))
                     (input s) (ctx_done s) (dispatcher s) (accepted s) (panicked s))
        | Chan.RecvClosed =>
            Some (Mk (<[i := Sub (ch sub) (got sub) true]> (subscribers s))
                     (input s) (ctx_done s) (dispatcher s) (accepted s) (panicked s))
        | Chan.RecvBlock => None
        end
  | DispTake =>
      match dispatcher s, Chan.recv (input s) with
      | DSelect, Chan.RecvOk v q =>
          Some (Mk (subscribers s) q (ctx_done s) (DBroadcast v 0)
                   (accepted s) (panicked s))
      | _, _ => None
      end
  | DispDone =>
      match dispatcher s with
      | DSelect =>
          if ctx_done s then
            match closeAll (subscribers s) with
            | Some subs' =>
                Some (Mk subs' (input s) true DExited (accepted s) (panicked s))
            | None =>
                Some (Mk (subscribers s) (input s) true DExited (accepted s) true)
            end
          else None
      | _ => None
      end
  | DispOffer =>
      match dispatcher s with
      | DBroadcast val i =>
          sub ← subscribers s !! i;
          match Chan.try_send (ch sub) val with
          | Some (c', _) =>
              Some (Mk (<[i := Sub c' (got sub) (ended sub)]> (subscribers s))
                       (input s) (ctx_done s) (DBroadcast val (S i))
                       (accepted s) (panicked s))
          | None =>
              Some (Mk (subscribers s) (input s) (ctx_done s) DExited
                       (accepted s) true)
          end
      | _ => None
      end
  | DispLoopEnd =>
      match dispatcher s with
      | DBroadcast val i =>
          if bool_decide (length (subscribers s) <= i)%nat
          then Some (Mk (subscribers s) (input s) (ctx_done s) DSelect
                        (accepted s) (panicked s))
          else None
      | _ => None
      end
  end.

(** One [select { case ch <- val: default: }] of [broadcast]; [None] when
    the channel is closed, where the send panics. *)
Definition offer (val : T) (sub : subscriber) : option subscriber :=
  '(c', _) ← Chan.try_send (ch sub) val;
  Some (Sub c' (got sub) (ended sub)).

(** [broadcast(val)] run without interruption: the [range] over the
    subscribers. *)
Definition broadcast (val : T) (subs : list subscriber) : option (list subscriber) :=
  mapM (offer val) subs.

(** What a subscription still has to do: drain its buffer and see the end. *)
Definition pending (sub : subscriber) : nat :=
  (Chan.len (ch sub) + (if ended sub then 0 else 1))%nat.

(** Bound on the number of [program] steps left. *)
Definition measure (s : state) : nat :=
  let n := length (subscribers s) in
  (Chan.len (input s) * (2 * n + 2)
   + match dispatcher s with
     | DSelect => 1
     | DBroadcast _ k => 2 * (n - k) + 2
     | DExited => 0
     end
   + sum_list_with pending (subscribers s))%nat.

Definition labels (s : state) : list label :=
  map Recv (seq 0 (length (subscribers s)))
  ++ [DispOffer; DispLoopEnd; DispTake; DispDone].

End Broadcaster.
Arguments subscriber : clear implicits.
Arguments disp_pc : clear implicits.
Arguments state : clear implicits.
Arguments label : clear implicits.

End Broadcast.

(** ** GenerateNumbers and the ranging caller

    [GenerateNumbers] (concurrency.go:16-31):
<<
    defer close(ch)
    for i := start; i <= end; i++ {
        select { case <-ctx.Done(): return; case ch <- i: }
    }
>>
    [NumLoop i]: at the loop test with the counter at [i]; [NumExited]:
    the deferred [close(ch)] has run.  [i++] wraps around as Go's [int]
    does.  The bound [end] is written [last] here.  [ch] is unbuffered,
    so a send completes only together with the caller's receive. *)

Module Numbers.
Import Source.

Inductive num_pc : Type :=
| NumLoop (i : Z)
| NumExited.

Definition GenerateNumbers (start : Z) : num_pc := NumLoop start.

(** [case ch <- i] together with the receive, then [i++]. *)
Definition num_send (last : Z) (g : num_pc) : option (Z * num_pc) :=
  match g with
  | NumLoop i => if i <=? last then Some (i, NumLoop (GoInt.wrap (i + 1))) else None
  | NumExited => None
  end.

(** [i <= end] fails: the loop ends and the deferred [close(ch)] runs. *)
Definition num_exit (last : Z) (g : num_pc) : option num_pc :=
  match g with
  | NumLoop i => if i <=? last then None else Some NumExited
  | NumExited => None
  end.

(** [case <-ctx.Done(): return], then the deferred [close(ch)]. *)
Definition num_cancel (last : Z) (cancelled : bool) (g : num_pc) : option num_pc :=
  match g with
  | NumLoop i => if (i <=? last) && cancelled then Some NumExited else None
  | NumExited => None
  end.

Record state : Type := Mk {
  cancelled : bool;      (* ctx.Done() is closed *)
  gen : num_pc;
  cons : cons_pc;        (* the caller's [for n := range ch] *)
  received : list Z
}.

Inductive label : Type :=
| Send        (* [ch <- i] meets the caller's receive *)
| Exit        (* the loop ends and [ch] is closed *)
| GenCancel   (* the goroutine takes [<-ctx.Done()] *)
| ConsEnd     (* the caller's [range] sees [ch] closed *)
| Cancel      (* environment: the context is cancelled *)
| Leave.      (* environment: the caller stops receiving *)

Definition program (l : label) : Prop :=
  match l with Cancel | Leave => False | _ => True end.

Definition init (start : Z) : state :=
  Mk false (GenerateNumbers start) Consuming [].

Definition step (last : Z) (l : label) (s : state) : option state :=
  match l with
  | Send =>
      match cons s, num_send last (gen s) with
      | Consuming, Some (v, g') =>
          Some (Mk (cancelled s) g' Consuming (received s ++ [v]))
      | _, _ => None
      end
  | Exit =>
      g' ← num_exit last (gen s);
      Some (Mk (cancelled s) g' (cons s) (received s))
  | GenCancel =>
      g' ← num_cancel last (cancelled s) (gen s);
      Some (Mk (cancelled s) g' (cons s) (received s))
  | ConsEnd =>
      match gen s, cons s with
      | NumExited, Consuming =>
          Some (Mk (cancelled s) NumExited ConsDone (received s))
      | _, _ => None
      end
  | Cancel =>
      if cancelled s then None
      else Some (Mk true (gen s) (cons s) (received s))
  | Leave =>
      match cons s with
      | Consuming => Some (Mk (cancelled s) (gen s) ConsGone (received s))
      | _ => None
      end
  end.

(** The values [start, start+1, ..., last]; empty when [last < start]. *)
Definition numbers (start last : Z) : list Z := seqZ start (last - start + 1).

(** Steps left at most, as long as [i++] does not overflow. *)
Definition measure (last : Z) (s : state) : nat :=
  ((if cancelled s then 0 else 1) +
   match gen s with
   | NumLoop i => Z.to_nat (last - i + 1) + 1
   | NumExited => 0
   end +
   match cons s with Consuming => 1 | _ => 0 end)%nat.

(** The [Generator] over a list that [GenerateNumbers] amounts to. *)
Definition as_Generator (last : Z) (g : num_pc) : gen_pc Z :=
  match g with
  | NumLoop i => GenLoop (numbers i last)
  | NumExited => GenExited
  end.

End Numbers.

(** ** SafeCounter

    [SafeCounter] (concurrency.go:243-260) as [ExampleConcurrency] uses
    it (concurrency.go:319-331): the caller starts [n] goroutines, each
    after a [wg.Add(1)], every goroutine calls [Increment] and then the
    deferred [wg.Done()]; the caller waits for the group and calls
    [Value].
<<
    func (c *SafeCounter) Increment() { c.mu.Lock(); defer c.mu.Unlock(); c.count++ }
    func (c *SafeCounter) Value() int { c.mu.RLock(); defer c.mu.RUnlock(); return c.count }
>>
    [c.count++] is a read followed by a write, two steps here. *)

Module Counter.

Inductive inc_pc : Type :=
| IStart              (* about to call [c.mu.Lock()] *)
| ILocked             (* holds the lock, about to read [c.count] *)
| ILoaded (tmp : Z)   (* has read [c.count], about to write [tmp + 1] *)
| IStored             (* [c.count++] done, the deferred [Unlock] pending *)
| IUnlocked           (* [Increment] has returned, [wg.Done()] pending *)
| IDone.

(** [sync.RWMutex]: free, held by a writer, or held by [n] readers. *)
Inductive mutex : Type := Free | Writer | Readers (n : nat).

Inductive main_pc : Type :=
| MSpawn (more : nat)   (* in the [for] loop with [more] goroutines to start;
                           at [wg.Wait()] when [more = 0] *)
| MValue                (* [wg.Wait()] has returned, about to [RLock] *)
| MRLocked              (* in [Value], holding the read lock *)
| MRead (v : Z)         (* has read [c.count], the deferred [RUnlock] pending *)
| MDone (v : Z).        (* [Value] has returned [v] *)

Record state : Type := Mk {
  mu : mutex;
  count : Z;
  wg : Z;                 (* the WaitGroup counter *)
  pcs : list inc_pc;
  main : main_pc;
  panicked : bool         (* negative WaitGroup counter, unlock of an unlocked mutex *)
}.

Inductive label : Type :=
| Spawn                 (* [wg.Add(1); go func() { ... }()] *)
| Wait                  (* [wg.Wait()] returns *)
| RLock | ReadValue | RUnlock
| Lock (i : nat) | Load (i : nat) | Store (i : nat) | Unlock (i : nat)
| WgDone (i : nat).

(** [counter := &SafeCounter{}] and the loop about to start [n] goroutines. *)
Definition init (n : nat) : state := Mk Free 0 0 [] (MSpawn n) false.

Definition set_pc (s : state) (i : nat) (pc : inc_pc) : list inc_pc :=
  <[i := pc]> (pcs s).

Definition step (l : label) (s : state) : option state :=
  if panicked s then None else
  match l with
  | Spawn =>
      match main s with
      | MSpawn (S more) =>
          Some (Mk (mu s) (count s) (wg s + 1) (pcs s ++ [IStart]) (MSpawn more) false)
      | _ => None
      end
  | Wait =>
      match main s with
      | MSpawn O =>
          if wg s =? 0 then Some (Mk (mu s) (count s) (wg s) (pcs s) MValue false)
          else None
      | _ => None
      end
  | RLock =>
      match main s, mu s with
      | MValue, Free => Some (Mk (Readers 1) (count s) (wg s) (pcs s) MRLocked false)
      | MValue, Readers n =>
          Some (Mk (Readers (S n)) (count s) (wg s) (pcs s) MRLocked false)
      | _, _ => None
      end
  | ReadValue =>
      match main s with
      | MRLocked => Some (Mk (mu s) (count s) (wg s) (pcs s) (MRead (count s)) false)
      | _ => None
      end
  | RUnlock =>
      match main s with
      | MRead v =>
          match mu s with
          | Readers 1 => Some (Mk Free (count s) (wg s) (pcs s) (MDone v) false)
          | Readers (S (S n)) =>
              Some (Mk (Readers (S n)) (count s) (wg s) (pcs s) (MDone v) false)
          | _ => Some (Mk (mu s) (count s) (wg s) (pcs s) (main s) true)
          end
      | _ => None
      end
  | Lock i =>
      match pcs s !! i, mu s with
      | Some IStart, Free =>
          Some (Mk Writer (count s) (wg s) (set_pc s i ILocked) (main s) false)
      | _, _ => None
      end
  | Load i =>
      match pcs s !! i with
      | Some ILocked =>
          Some (Mk (mu s) (count s) (wg s) (set_pc s i (ILoaded (count s))) (main s) false)
      | _ => None
      end
  | Store i =>
      match pcs s !! i with
      | Some (ILoaded tmp) =>
          Some (Mk (mu s) (GoInt.wrap (tmp + 1)) (wg s) (set_pc s i IStored) (main s) false)
      | _ => None
      end
  | Unlock i =>
      match pcs s !! i with
      | Some IStored =>
          match mu s with
          | Writer => Some (Mk Free (count s) (wg s) (set_pc s i IUnlocked) (main s) false)
          | _ => Some (Mk (mu s) (count s) (wg s) (pcs s) (main s) true)
          end
      | _ => None
      end
  | WgDone i =>
      match pcs s !! i with
      | Some IUnlocked =>
          if 0 <? wg s
          then Some (Mk (mu s) (count s) (wg s - 1) (set_pc s i IDone) (main s) false)
          else Some (Mk (mu s) (count s) (wg s) (pcs s) (main s) true)
      | _ => None
      end
  end.

(** Goroutines between [Lock] and [Unlock]. *)
Definition holding (pc : inc_pc) : nat :=
  match pc with ILocked | ILoaded _ | IStored => 1 | _ => 0 end.

(** Goroutines whose write of [c.count] has happened. *)
Definition stored (pc : inc_pc) : nat :=
  match pc with IStored | IUnlocked | IDone => 1 | _ => 0 end.

(** Goroutines that have not called [wg.Done()] yet. *)
Definition live (pc : inc_pc) : nat :=
  match pc with IDone => 0 | _ => 1 end.

(** Steps a goroutine has left. *)
Definition todo (pc : inc_pc) : nat :=
  match pc with
  | IStart => 5 | ILocked => 4 | ILoaded _ => 3 | IStored => 2
  | IUnlocked => 1 | IDone => 0
  end.

Definition measure (s : state) : nat :=
  ((if panicked s then 0 else 1) +
   sum_list_with todo (pcs s) +
   match main s with
   | MSpawn more => 6 * more + 4
   | MValue => 3 | MRLocked => 2 | MRead _ => 1 | MDone _ => 0
   end)%nat.

Definition labels (s : state) : list label :=
  [Spawn; Wait; RLock; ReadValue; RUnlock]
  ++ flat_map (fun i => [Lock i; Load i; Store i; Unlock i; WgDone i])
       (seq 0 (length (pcs s))).

(** The value printed by [ExampleConcurrency] under the first-enabled
    scheduler, if [Value] returns. *)
Definition final_count (n : nat) : option Z :=
  match main (LTS.run step labels (measure (init n)) (init n)) with
  | MDone v => Some v
  | _ => None
  end.

End Counter.

(** ** DoWithTimeout and SelectExample

    Both race an unbuffered send of a sleeping goroutine against a
    context.  Time is a clock [now] in nanoseconds since the call, moved
    by [Tick]; [time.Sleep(d)] ends at some moment not before [d], and
    the deadline of [context.WithTimeout] fires at some moment not before
    the timeout: the runtime promises no more, so every order of the
    remaining steps is a run.

    [DoWithTimeout] (concurrency.go:160-178):
<<
    ctx, cancel := context.WithTimeout(context.Background(), timeout)
    defer cancel()
    done := make(chan bool)
    go func() { time.Sleep(200 * time.Millisecond); done <- true }()
    select {
    case <-done:       return nil
    case <-ctx.Done(): return ctx.Err()
    }
>> *)

Module Timeout.

Definition Millisecond : Z := 1000000.

Inductive sender_pc : Type :=
| SSleeping     (* in [time.Sleep] *)
| SSending      (* blocked in the send on the unbuffered channel *)
| SDone.        (* the send has met a receive; the goroutine has returned *)

Inductive error : Type := DeadlineExceeded | Canceled.

Inductive main_pc : Type :=
| MSelect                         (* blocked in the [select] *)
| MReturned (err : option error).

Record state : Type := Mk {
  now : Z;
  ctx_err : option error;         (* [ctx.Err()]; [Some _] once [ctx.Done()] is closed *)
  worker : sender_pc;
  main : main_pc
}.

Inductive label : Type :=
| Tick (d : Z)    (* [d > 0] nanoseconds pass *)
| Wake            (* [time.Sleep] returns *)
| Expire          (* the deadline timer fires *)
| RecvDone        (* [case <-done], together with the worker's send *)
| TakeCtx.        (* [case <-ctx.Done()] *)

(** A non-positive timeout gives a context that is already expired. *)
Definition init (timeout : Z) : state :=
  Mk 0 (if timeout <=? 0 then Some DeadlineExceeded else None) SSleeping MSelect.

(** The deferred [cancel()]: sets [Canceled] unless the context is done. *)
Definition cancel (e : option error) : option error :=
  match e with None => Some Canceled | Some _ => e end.

Definition step (timeout : Z) (l : label) (s : state) : option state :=
  match l with
  | Tick d =>
      if 0 <? d then Some (Mk (now s + d) (ctx_err s) (worker s) (main s)) else None
  | Wake =>
      match worker s with
      | SSleeping =>
          if 200 * Millisecond <=? now s
          then Some (Mk (now s) (ctx_err s) SSending (main s)) else None
      | _ => None
      end
  | Expire =>
      match ctx_err s with
      | None =>
          if timeout <=? now s
          then Some (Mk (now s) (Some DeadlineExceeded) (worker s) (main s))
          else None
      | Some _ => None
      end
  | RecvDone =>
      match worker s, main s with
      | SSending, MSelect =>
          Some (Mk (now s) (cancel (ctx_err s)) SDone (MReturned None))
      | _, _ => None
      end
  | TakeCtx =>
      match ctx_err s, main s with
      | Some e, MSelect =>
          Some (Mk (now s) (ctx_err s) (worker s) (MReturned (Some e)))
      | _, _ => None
      end
  end.

End Timeout.

(** [SelectExample] (concurrency.go:132-157):
<<
    go func() { time.Sleep(100 * time.Millisecond); ch1 <- "message from ch1" }()
    go func() { time.Sleep(50 * time.Millisecond);  ch2 <- "message from ch2" }()
    for i := 0; i < 2; i++ {
        select {
        case msg := <-ch1: fmt.Println(msg)
        case msg := <-ch2: fmt.Println(msg)
        case <-ctx.Done(): fmt.Println("Context cancelled"); return
        }
    }
>> *)

Module SelectEx.
Import Timeout.

(** The lines printed. *)
Inductive line : Type :=
| FromCh1       (* "message from ch1" *)
| FromCh2       (* "message from ch2" *)
| Cancelled.    (* "Context cancelled" *)

Inductive loop_pc : Type :=
| LSelect (i : Z)   (* blocked in the [select] of iteration [i] *)
| LReturned.

Record state : Type := Mk {
  now : Z;
  cancelled : bool;       (* [ctx.Done()] is closed *)
  sender1 : sender_pc;
  sender2 : sender_pc;
  loop : loop_pc;
  printed : list line
}.

Inductive label : Type :=
| Tick (d : Z)   (* [d > 0] nanoseconds pass *)
| Wake1 | Wake2  (* a [time.Sleep] returns *)
| Recv1 | Recv2  (* [case msg := <-ch], together with the sender's send *)
| TakeCtx        (* [case <-ctx.Done()] *)
| Cancel.        (* environment: the context is cancelled *)

Definition init : state := Mk 0 false SSleeping SSleeping (LSelect 0) [].

(** [i++] and the loop test [i < 2]. *)
Definition next (i : Z) : loop_pc :=
  if GoInt.wrap (i + 1) <? 2 then LSelect (GoInt.wrap (i + 1)) else LReturned.

Definition step (l : label) (s : state) : option state :=
  match l with
  | Tick d =>
      if 0 <? d
      then Some (Mk (now s + d) (cancelled s) (sender1 s) (sender2 s) (loop s) (printed s))
      else None
  | Wake1 =>
      match sender1 s with
      | SSleeping =>
          if 100 * Millisecond <=? now s
          then Some (Mk (now s) (cancelled s) SSending (sender2 s) (loop s) (printed s))
          else None
      | _ => None
      end
  | Wake2 =>
      match sender2 s with
      | SSleeping =>
          if 50 * Millisecond <=? now s
          then Some (Mk (now s) (cancelled s) (sender1 s) SSending (loop s) (printed s))
          else None
      | _ => None
      end
  | Recv1 =>
      match sender1 s, loop s with
      | SSending, LSelect i =>
          Some (Mk (now s) (cancelled s) SDone (sender2 s) (next i)
                   (printed s ++ [FromCh1]))
      | _, _ => None
      end
  | Recv2 =>
      match sender2 s, loop s with
      | SSending, LSelect i =>
          Some (Mk (now s) (cancelled s) (sender1 s) SDone (next i)
                   (printed s ++ [FromCh2]))
      | _, _ => None
      end
  | TakeCtx =>
      match loop s with
      | LSelect i =>
          if cancelled s
          then Some (Mk (now s) true (sender1 s) (sender2 s) LReturned
                        (printed s ++ [Cancelled]))
          else None
      | LReturned => None
      end
  | Cancel =>
      if cancelled s then None
      else Some (Mk (now s) true (sender1 s) (sender2 s) (loop s) (printed s))
  end.

End SelectEx.

(* ===================================================================== *)
(** * Proofs *)
(* ===================================================================== *)

(** ** Schedules: composition, invariants, termination measures *)

Module LTSFacts.
Import LTS.
Section Exec.
Context {state label : Type}.
Variable step : label -> state -> option state.
Variable allowed : label -> Prop.

Lemma exec_app (a b : list label) (s : state) :
  exec step (a ++ b) s = exec step a s ≫= exec step b.
Proof.
  revert s; induction a as [|l a IH]; intros s; simpl; [done|].
  destruct (step l s); simpl; auto.
Qed.

Lemma exec_snoc (a : list label) (l : label) (s : state) :
  exec step (a ++ [l]) s = exec step a s ≫= step l.
Proof.
  rewrite exec_app. destruct (exec step a s) as [s'|]; simpl; [|done].
  destruct (step l s'); done.
Qed.

(** A property kept by every allowed step holds along every allowed
    schedule. *)
Lemma exec_invariant (P : state -> Prop) :
  (forall l s s', allowed l -> P s -> step l s = Some s' -> P s') ->
  forall sched s s',
    Forall allowed sched -> P s -> exec step sched s = Some s' -> P s'.
Proof.
  intros Hstep sched; induction sched as [|l sched IH]; intros s s' Hall HP Hex.
  - simpl in Hex. congruence.
  - simpl in Hex. inversion Hall as [|? ? Hl Hrest]; subst.
    destruct (step l s) as [s1|] eqn:E; [|done].
    apply (IH s1 s' Hrest); [|exact Hex].
    exact (Hstep l s s1 Hl HP E).
Qed.

(** A measure that every allowed step decreases bounds every allowed
    schedule. *)
Lemma exec_measure (m : state -> nat) :
  (forall l s s', allowed l -> step l s = Some s' -> (m s' < m s)%nat) ->
  forall sched s s',
    Forall allowed sched -> exec step sched s = Some s' ->
    (length sched + m s' <= m s)%nat.
Proof.
  intros Hstep sched; induction sched as [|l sched IH]; intros s s' Hall Hex.
  - simpl in *. injection Hex as ->. lia.
  - simpl in Hex. inversion Hall as [|? ? Hl Hrest]; subst.
    destruct (step l s) as [s1|] eqn:E; [|done].
    specialize (IH _ _ Hrest Hex). specialize (Hstep _ _ _ Hl E). simpl. lia.
Qed.

Lemma pick_Some (cands : list label) (s s' : state) :
  pick step cands s = Some s' -> exists l, l ∈ cands /\ step l s = Some s'.
Proof.
  induction cands as [|l cands IH]; simpl; [done|].
  destruct (step l s) as [s1|] eqn:E.
  - intros [= <-]. exists l. split; [left|done].
  - intros H. destruct (IH H) as (l' & Hin & Hs). exists l'. split; [by right|done].
Qed.

Lemma pick_None (cands : list label) (s : state) :
  pick step cands s = None -> forall l, l ∈ cands -> step l s = None.
Proof.
  induction cands as [|l cands IH]; simpl; intros H l' Hin.
  - by apply elem_of_nil in Hin.
  - destruct (step l s) eqn:E; [done|].
    apply elem_of_cons in Hin as [->|Hin]; auto.
Qed.

Variable cands : state -> list label.
Hypothesis cands_allowed : forall s l, l ∈ cands s -> allowed l.

(** The first-enabled scheduler follows one of the allowed schedules. *)
Lemma run_exec (fuel : nat) (s : state) :
  exists sched, Forall allowed sched /\ exec step sched s = Some (run step cands fuel s).
Proof.
  revert s; induction fuel as [|n IH]; intros s; simpl.
  - exists []. split; [constructor|done].
  - destruct (pick step (cands s) s) as [s1|] eqn:E.
    + destruct (pick_Some _ _ _ E) as (l & Hin & Hl).
      destruct (IH s1) as (sched & Hall & Hex).
      exists (l :: sched). split; [constructor; eauto|].
      simpl. by rewrite Hl.
    + exists []. split; [constructor|done].
Qed.

(** With fuel for the measure, it stops where none of its candidates is
    enabled. *)
Lemma run_stops (m : state -> nat) :
  (forall l s s', allowed l -> step l s = Some s' -> (m s' < m s)%nat) ->
  forall fuel s, (m s <= fuel)%nat ->
    pick step (cands (run step cands fuel s)) (run step cands fuel s) = None.
Proof.
  intros Hstep fuel; induction fuel as [|n IH]; intros s Hm; simpl.
  - destruct (pick step (cands s) s) as [s1|] eqn:E; [|done].
    destruct (pick_Some _ _ _ E) as (l & Hin & Hl).
    specialize (Hstep _ _ _ (cands_allowed _ _ Hin) Hl). lia.
  - destruct (pick step (cands s) s) as [s1|] eqn:E; [|done].
    destruct (pick_Some _ _ _ E) as (l & Hin & Hl).
    specialize (Hstep _ _ _ (cands_allowed _ _ Hin) Hl).
    apply IH. lia.
Qed.

End Exec.
End LTSFacts.

(** ** Generator -> stage -> caller *)

Module PipelineFacts.
Import LTS Source Pipeline.

Ltac step_cases Hstep :=
  match type of Hstep with
  | step _ ?l ?s = Some ?s' =>
      destruct s; destruct l;
      cbn [step gen stage cons cancelled collected] in Hstep;
      unfold gen_send, gen_exit, gen_cancel, gen_closed in Hstep;
      repeat (case_match; simplify_eq/=); simplify_eq/=
  end.

Section Stage.
Variable f : Z -> Z.

Lemma step_measure (l : label) (s s' : state) :
  step f l s = Some s' -> (measure s' < measure s)%nat.
Proof.
  intros H. step_cases H; unfold measure; simpl; lia.
Qed.

(** Any schedule at all, cancellation included, is bounded. *)
Lemma exec_bounded (values : list Z) (sched : list label) (s : state) :
  exec (step f) sched (init values) = Some s ->
  (length sched + measure s <= 2 * length values + 4)%nat.
Proof.
  intros H.
  pose proof (LTSFacts.exec_measure (step f) (fun _ => True) measure
    (fun l s s' _ => step_measure l s s') sched _ _
    (proj2 (Forall_forall _ _) (fun _ _ => I)) H) as Hm.
  unfold measure at 2 in Hm; simpl in Hm. lia.
Qed.

(** What holds of every state the program reaches on its own. *)
Definition inv (values : list Z) (s : state) : Prop :=
  cancelled s = false /\
  cons s <> ConsGone /\
  collected s ++ pending f s = map f values /\
  (cons s = ConsDone -> stage s = StExited) /\
  (stage s = StExited -> gen s = GenExited).

Lemma inv_init (values : list Z) : inv values (init values).
Proof. unfold inv, pending; simpl. repeat split; intros; congruence. Qed.

Lemma inv_step (values : list Z) (l : label) (s s' : state) :
  program l -> inv values s -> step f l s = Some s' -> inv values s'.
Proof.
  intros Hl (Hc & Hg & Hp & Hd & He) H. unfold inv, pending in *.
  step_cases H; simpl in *; try done;
    repeat split; try (intuition congruence);
    rewrite <- Hp, <- ?app_assoc; simpl; done.
Qed.

Lemma inv_exec (values : list Z) (sched : list label) (s : state) :
  Forall program sched -> exec (step f) sched (init values) = Some s ->
  inv values s.
Proof.
  intros Hall H.
  exact (LTSFacts.exec_invariant (step f) program (inv values)
           (inv_step values) sched _ _ Hall (inv_init values) H).
Qed.

(** Without cancellation the program stops only when the caller has seen
    the end of the output. *)
Lemma quiescent_done (values : list Z) (s : state) :
  inv values s -> quiescent (step f) program s ->
  cons s = ConsDone /\ all_exited s /\ collected s = map f values.
Proof.
  intros (Hc & Hg & Hp & Hd & He) Hq. unfold all_exited, pending in *.
  pose proof (Hq GenSend I) as H1. pose proof (Hq GenExit I) as H2.
  pose proof (Hq StageRecvClosed I) as H3. pose proof (Hq StageSend I) as H4.
  pose proof (Hq ConsEnd I) as H5.
  destruct s as [c g st cn col]; simpl in *.
  destruct cn; [exfalso| |done].
  - destruct st; simpl in *; try done.
    destruct g as [[|v r]|]; simpl in *; done.
  - specialize (Hd eq_refl). subst st. specialize (He eq_refl). subst g.
    simpl in Hp. rewrite app_nil_r in Hp. done.
Qed.

(** Once the context is cancelled, no goroutine can be left blocked. *)
Lemma cancelled_quiescent_exited (s : state) :
  cancelled s = true -> quiescent (step f) program s ->
  all_exited s /\ cons s <> Consuming.
Proof.
  intros Hc Hq. unfold all_exited.
  pose proof (Hq GenExit I) as H2. pose proof (Hq GenCancel I) as H1.
  pose proof (Hq StageRecvClosed I) as H3. pose proof (Hq StageCancel I) as H4.
  pose proof (Hq ConsEnd I) as H5.
  destruct s as [c g st cn col]; simpl in *. subst c.
  destruct g as [[|v r]|]; simpl in *; try done.
  destruct st; simpl in *; try done.
  destruct cn; done.
Qed.

Lemma labels_program (l : label) : l ∈ labels -> program l.
Proof.
  unfold labels. rewrite !elem_of_cons, elem_of_nil.
  intros H; destruct l; simpl; try exact I; intuition discriminate.
Qed.

Lemma program_labels (l : label) : program l -> l ∈ labels.
Proof.
  unfold labels. rewrite !elem_of_cons, elem_of_nil.
  destruct l; simpl; try done; tauto.
Qed.

Lemma collect_spec (values : list Z) : collect f values = map f values.
Proof.
  unfold collect.
  set (fuel := measure (init values)).
  destruct (LTSFacts.run_exec (step f) program (fun _ => labels)
              (fun _ => labels_program) fuel (init values)) as (sched & Hall & Hex).
  pose proof (inv_exec values sched _ Hall Hex) as Hinv.
  assert (Hq : quiescent (step f) program (run (step f) (fun _ => labels) fuel (init values))).
  { intros l Hl. apply program_labels in Hl.
    eapply LTSFacts.pick_None; [|exact Hl].
    apply (LTSFacts.run_stops (step f) program (fun _ => labels)
             (fun _ => labels_program) measure
             (fun l s s' _ => step_measure l s s')).
    unfold fuel. lia. }
  by destruct (quiescent_done values _ Hinv Hq) as (_ & _ & ->).
Qed.

End Stage.

(** The scenario of the specification, run by the first-enabled scheduler. *)
Example collect_double_1_to_5 : collect double [1; 2; 3; 4; 5] = [2; 4; 6; 8; 10].
Proof. reflexivity. Qed.

(** Multiplication wraps around like Go's [int]. *)
Example collect_double_wraps : collect double [2 ^ 62; -1] = [- 2 ^ 63; -2].
Proof. reflexivity. Qed.

(** C1. With the context never cancelled and the caller ranging over the
    output until it is closed, every schedule of Generator, stage and
    caller is finite, the values collected so far are always a prefix of
    [map f values], and when nothing can run any more the caller has seen
    the output closed and has collected exactly [f (values[i])] at every
    index [i], in order and with the length of the input.  The scheduler
    that always runs the first enabled goroutine reaches that result. *)
Theorem stage_output_in_order
    (f : Z -> Z) (values : list Z) (sched : list label) (s : state) :
  Forall program sched ->
  exec (step f) sched (init values) = Some s ->
  (length sched <= 2 * length values + 3)%nat /\
  collected s `prefix_of` map f values /\
  (quiescent (step f) program s ->
     cons s = ConsDone /\ all_exited s /\
     length (collected s) = length values /\
     (forall i x, values !! i = Some x -> collected s !! i = Some (f x)) /\
     collected s = map f values) /\
  collect f values = map f values.
Proof.
  intros Hall Hex.
  pose proof (inv_exec f values sched s Hall Hex) as Hinv.
  pose proof (exec_bounded f values sched s Hex) as Hb.
  split; [|split; [|split]].
  - destruct Hinv as (Hc & _). unfold measure in Hb. rewrite Hc in Hb. lia.
  - destruct Hinv as (_ & _ & Hp & _). exists (pending f s). by rewrite Hp.
  - intros Hq.
    destruct (quiescent_done f values s Hinv Hq) as (Hd & He & Hcol).
    repeat split; try done; try apply He.
    + by rewrite Hcol, length_map.
    + intros i x Hi. rewrite Hcol.
      change (map f values) with (f <$> values).
      by rewrite list_lookup_fmap, Hi.
  - apply collect_spec.
Qed.

Lemma stage_output_in_order_witness :
  let values := [1; 2; 3; 4; 5] in
  let sched := [GenSend; StageSend; GenSend; StageSend; GenSend; StageSend;
                GenSend; StageSend; GenSend; StageSend;
                GenExit; StageRecvClosed; ConsEnd] in
  let s := Mk false GenExited StExited ConsDone [2; 4; 6; 8; 10] in
  Forall program sched /\
  exec (step double) sched (init values) = Some s /\
  collected s `prefix_of` map double values /\
  collect double values = [2; 4; 6; 8; 10].
Proof.
  intros values sched s.
  assert (Hall : Forall program sched) by (repeat constructor).
  assert (Hex : exec (step double) sched (init values) = Some s) by reflexivity.
  destruct (stage_output_in_order double values sched s Hall Hex)
    as (_ & Hpre & _ & Hcol).
  split; [exact Hall|split; [exact Hex|split; [exact Hpre|exact Hcol]]].
Defined.

(** Kept by every step, cancellation and a leaving caller included: while
    the stage runs, what was collected and what is in flight is a prefix
    of the transformed input; afterwards what was collected is. *)
Definition ainv (f : Z -> Z) (values : list Z) (s : state) : Prop :=
  match stage s with
  | StExited => collected s `prefix_of` map f values
  | _ => (collected s ++ pending f s) `prefix_of` map f values
  end.

Lemma pipeline_ainv_step (f : Z -> Z) (values : list Z) (l : label) (s s' : state) :
  ainv f values s -> step f l s = Some s' -> ainv f values s'.
Proof.
  intros Hi H. unfold ainv, pending in *.
  step_cases H; simpl in *; rewrite ?app_nil_r in *; try done.
  all: try (rewrite <- ?app_assoc; simpl; done).
  all: try (eapply prefix_app_l; rewrite <- ?app_assoc; exact Hi).
  all: try (eapply prefix_app_l; rewrite <- ?app_assoc in Hi; exact Hi).
Qed.

(** X1. Generator and stage under cancellation: whatever the schedule
    (the context may be cancelled and the caller may stop receiving at
    any point), the run takes at most [2 * len(values) + 4] steps, and
    once the context is cancelled a state in which no goroutine can run
    has both the Generator and the stage returned, with the caller no
    longer waiting on the output. *)
Theorem pipeline_cancel_releases_all
    (f : Z -> Z) (values : list Z) (sched : list label) (s : state) :
  exec (step f) sched (init values) = Some s ->
  (length sched <= 2 * length values + 4)%nat /\
  (cancelled s = true -> quiescent (step f) program s ->
     all_exited s /\ cons s <> Consuming).
Proof.
  intros Hex. split.
  - pose proof (exec_bounded f values sched s Hex). lia.
  - apply cancelled_quiescent_exited.
Qed.

Lemma pipeline_cancel_releases_all_witness :
  let values := [1; 2; 3] in
  let sched := [GenSend; StageSend; GenSend; Leave; Cancel; StageCancel;
                GenCancel] in
  let s := Mk true GenExited StExited ConsGone [2] in
  exec (step double) sched (init values) = Some s /\
  (length sched <= 2 * length values + 4)%nat.
Proof.
  intros values sched s.
  assert (Hex : exec (step double) sched (init values) = Some s) by reflexivity.
  destruct (pipeline_cancel_releases_all double values sched s Hex) as (Hlen & _).
  split; [exact Hex|exact Hlen].
Defined.

(** X2. Whatever the schedule, cancellation and a leaving caller
    included, what the caller has collected from the stage is a prefix of
    [map f values]: cancellation can cut the output short but never
    reorders, repeats or invents a value. *)
Theorem pipeline_output_prefix_any_schedule
    (f : Z -> Z) (values : list Z) (sched : list label) (s : state) :
  exec (step f) sched (init values) = Some s ->
  collected s `prefix_of` map f values.
Proof.
  intros Hex.
  assert (Hi : ainv f values s).
  { apply (LTSFacts.exec_invariant (step f) (fun _ => True) (ainv f values))
      with (sched := sched) (s := init values); [|by apply Forall_true| |done].
    - intros l s1 s2 _. apply pipeline_ainv_step.
    - unfold ainv, pending; simpl. done. }
  unfold ainv in Hi. destruct (stage s); try done.
  all: by eapply prefix_app_l.
Qed.

Lemma pipeline_output_prefix_any_schedule_witness :
  let values := [1; 2; 3] in
  let sched := [GenSend; StageSend; GenSend; Cancel; StageCancel; GenCancel;
                ConsEnd] in
  let s := Mk true GenExited StExited ConsDone [2] in
  exec (step double) sched (init values) = Some s /\
  collected s `prefix_of` map double values.
Proof.
  intros values sched s.
  assert (Hex : exec (step double) sched (init values) = Some s) by reflexivity.
  split; [exact Hex|].
  exact (pipeline_output_prefix_any_schedule double values sched s Hex).
Defined.

End PipelineFacts.

(** ** Fan-out / fan-in *)

(** Slices of goroutines updated at one index. *)
Module SliceFacts.
Section Slice.
Context {A B : Type}.

Lemma sum_list_with_insert (g : A -> nat) (l : list A) (i : nat) (x y : A) :
  l !! i = Some x ->
  (sum_list_with g (<[i := y]> l) + g x = sum_list_with g l + g y)%nat.
Proof.
  revert i; induction l as [|a l IH]; intros [|i] H; simplify_eq/=; [lia|].
  specialize (IH _ H). lia.
Qed.

Lemma sum_list_with_zero (g : A -> nat) (l : list A) :
  sum_list_with g l = O <-> Forall (fun x => g x = O) l.
Proof.
  induction l as [|a l IH]; simpl.
  - split; [constructor|done].
  - split.
    + intros H. constructor; [lia|]. apply IH. lia.
    + intros H. inversion H as [|? ? Ha Hl]; subst. apply IH in Hl. lia.
Qed.

Lemma sum_list_with_pos (g : A -> nat) (l : list A) :
  (0 < sum_list_with g l)%nat -> exists i x, l !! i = Some x /\ (0 < g x)%nat.
Proof.
  induction l as [|a l IH]; simpl; [lia|].
  intros H. destruct (decide (0 < g a)%nat) as [Ha|Ha].
  - exists O, a. done.
  - destruct IH as (i & x & Hi & Hx); [lia|]. exists (S i), x. done.
Qed.

Lemma omap_insert_perm (g : A -> option B) (l : list A) (i : nat) (x y : A) :
  l !! i = Some x ->
  omap g (<[i := y]> l) ++ option_list (g x) ≡ₚ omap g l ++ option_list (g y).
Proof.
  revert i; induction l as [|a l IH]; intros [|i] H; simplify_eq/=.
  - destruct (g x), (g y); simpl; rewrite <- ?Permutation_cons_append, ?app_nil_r;
      try done. apply perm_swap.
  - specialize (IH _ H). destruct (g a); simpl; [|done].
    by rewrite IH.
Qed.

Lemma omap_nil_Forall (g : A -> option B) (l : list A) :
  Forall (fun x => g x = None) l -> omap g l = [].
Proof.
  induction 1 as [|a l Ha _ IH]; simpl; [done|]. by rewrite Ha.
Qed.

End Slice.
End SliceFacts.

Module FanFacts.
Import LTS Source Fan SliceFacts.

Ltac step_cases Hstep :=
  match type of Hstep with
  | step ?l ?s = Some ?s' =>
      destruct s; destruct l;
      cbn [step set_worker gen workers fwds wg merged_closed cons cancelled
           collected panicked] in Hstep;
      unfold gen_send, gen_exit, gen_cancel, gen_closed in Hstep;
      repeat (case_match; simplify_eq/=); simplify_eq/=
  end.

Lemma fan_step_measure (l : label) (s s' : state) :
  step l s = Some s' -> (measure s' < measure s)%nat.
Proof.
  intros H. step_cases H; unfold measure; simpl;
    repeat match goal with
    | Hl : ?l !! ?i = Some ?x |- context [sum_list_with ?g (<[?i := ?y]> ?l)] =>
        let E := fresh "E" in
        pose proof (sum_list_with_insert g l i x y Hl) as E;
        simpl in E;
        generalize dependent (sum_list_with g (<[i := y]> l)); intros
    end; lia.
Qed.

Definition fwd_alive (p : fwd_pc) : nat :=
  match p with FExited => 0 | _ => 1 end.

(** Kept by every step, cancellation included. *)
Definition sinv (s : state) : Prop :=
  length (workers s) = length (fwds s) /\
  wg s = sum_list_with fwd_alive (fwds s) /\
  (merged_closed s = true -> wg s = O) /\
  panicked s = false.

Lemma fan_sinv_step (l : label) (s s' : state) :
  sinv s -> step l s = Some s' -> sinv s'.
Proof.
  intros (Hlen & Hwg & Hmc & Hp) H. unfold sinv in *.
  step_cases H; simpl in *; rewrite ?length_insert;
    repeat match goal with
    | Hl : ?l !! ?i = Some ?x |- context [sum_list_with ?g (<[?i := ?y]> ?l)] =>
        let E := fresh "E" in
        pose proof (sum_list_with_insert g l i x y Hl) as E;
        simpl in E;
        generalize dependent (sum_list_with g (<[i := y]> l)); intros
    end;
    try specialize (Hmc eq_refl);
    repeat split; intros;
    try match goal with
        | Hm : ?a = true -> _, Ha : ?a = true |- _ => specialize (Hm Ha)
        end;
    (done || lia).
Qed.

Definition worker_held (w : worker_pc) : option Z :=
  match w with WSelect val => Some (square val) | _ => None end.

Definition fwd_held (p : fwd_pc) : option Z :=
  match p with FSelect val => Some val | _ => None end.

(** Results still on their way to the caller. *)
Definition pending (s : state) : list Z :=
  omap fwd_held (fwds s) ++ omap worker_held (workers s) ++
  map square (gen_rest (gen s)).

(** Kept by the program while the context is not cancelled and the caller
    keeps receiving. *)
Definition ninv (values : list Z) (s : state) : Prop :=
  cancelled s = false /\
  cons s <> ConsGone /\
  collected s ++ pending s ≡ₚ map square values /\
  (forall i, fwds s !! i = Some FExited -> workers s !! i = Some WExited) /\
  (forall i, workers s !! i = Some WExited -> gen s = GenExited) /\
  (cons s = ConsDone -> merged_closed s = true).

Ltac lookup_insert_cases :=
  repeat match goal with
  | H : context [<[?i := _]> _ !! ?j] |- _ =>
      rewrite list_lookup_insert in H; case_decide; destruct_and?; simplify_eq/=
  | |- context [<[?i := _]> _ !! ?j] =>
      rewrite list_lookup_insert; case_decide; destruct_and?; simplify_eq/=
  end.

Lemma fan_ninv_step (values : list Z) (l : label) (s s' : state) :
  program l -> sinv s -> ninv values s -> step l s = Some s' -> ninv values s'.
Proof.
  intros Hl (Hlen & Hwg & Hmc & Hpan) (Hc & Hg & Hp & Hfw & Hwg' & Hd) H.
  unfold ninv, pending in *.
  step_cases H; simpl in *; try done.
  all: try match goal with
       | Hm : true = true -> _ |- _ => specialize (Hm eq_refl)
       end.
  all: try (exfalso;
       match goal with
       | Hm : sum_list_with fwd_alive ?l = O, Hx : ?l !! ?i = Some (FSelect _) |- _ =>
           pose proof (sum_list_with_insert fwd_alive l i _ FExited Hx);
           simpl in *; lia
       end).
  all: split; [done|]; split; [done|]; split; [|split; [|split]].
  all: try (intros i0 Hi0; lookup_insert_cases;
            try pose proof (Hfw _ Hi0); try pose proof (Hwg' _ Hi0);
            eauto; congruence).
  all: try (intuition congruence).
  all: rewrite <- Hp;
    repeat match goal with
    | Hl : ?l !! ?i = Some ?x |- context [omap ?g (<[?i := ?y]> ?l)] =>
        let E := fresh "E" in
        pose proof (omap_insert_perm g l i x y Hl) as E;
        simpl in E; rewrite ?app_nil_r in E;
        generalize dependent (omap g (<[i := y]> l)); intros ? E;
        first [rewrite E | rewrite <- E]; clear E
    end; simpl; solve_Permutation.
Qed.

Lemma fan_ninv_exec (values : list Z) (sched : list label) (s0 s : state) :
  sinv s0 -> ninv values s0 ->
  Forall program sched -> exec step sched s0 = Some s ->
  sinv s /\ ninv values s.
Proof.
  intros Hs Hn Hall Hex.
  apply (LTSFacts.exec_invariant step program
           (fun s => sinv s /\ ninv values s)) with (sched := sched) (s := s0);
    [|done..].
  intros l s1 s2 Hl [Hs1 Hn1] Hst. split.
  - eapply fan_sinv_step; eauto.
  - eapply fan_ninv_step; eauto.
Qed.

Lemma fan_sinv_exec (sched : list label) (s0 s : state) :
  sinv s0 -> exec step sched s0 = Some s -> sinv s.
Proof.
  intros Hs Hex.
  apply (LTSFacts.exec_invariant step (fun _ => True) sinv)
    with (sched := sched) (s := s0); [|by apply Forall_true|done..].
  intros l s1 s2 _. apply fan_sinv_step.
Qed.

Lemma fwd_alive_zero (p : fwd_pc) : fwd_alive p = O -> fwd_exited p.
Proof. by destruct p. Qed.

(** Without cancellation, and with at least one worker, the program
    stops only after the caller has seen the merged output closed. *)
Lemma fan_quiescent_done (values : list Z) (s : state) :
  sinv s -> ninv values s -> (0 < length (workers s))%nat ->
  quiescent step program s ->
  cons s = ConsDone /\ all_exited s /\ collected s ≡ₚ map square values.
Proof.
  intros (Hlen & Hwg & Hmc & Hpan) (Hc & Hg & Hp & Hfw & Hwe & Hd) Hn Hq.
  unfold all_exited, pending in *.
  destruct s as [c g ws fs n mc cn col pan]; simpl in *.
  destruct cn; [exfalso| |done].
  - destruct mc; [by specialize (Hq ConsEnd I)|].
    destruct n as [|n]; [by specialize (Hq Barrier I)|].
    destruct (sum_list_with_pos fwd_alive fs) as (i & p & Hi & Hpos); [lia|].
    destruct (lookup_lt_is_Some_2 ws i) as [w Hw].
    { rewrite Hlen. by eapply lookup_lt_Some. }
    destruct p; simpl in Hpos; [| |lia].
    + destruct w.
      * destruct g as [[|v r]|].
        -- specialize (Hq GenExit I). done.
        -- specialize (Hq (GenSend i) I). simpl in Hq. by rewrite Hw in Hq.
        -- specialize (Hq (WorkerRecvClosed i) I). simpl in Hq. by rewrite Hw in Hq.
      * specialize (Hq (WorkerSend i) I). simpl in Hq. by rewrite Hw, Hi in Hq.
      * specialize (Hq (FwdRecvClosed i) I). simpl in Hq. by rewrite Hw, Hi in Hq.
    + specialize (Hq (FwdSend i) I). simpl in Hq. by rewrite Hi in Hq.
  - specialize (Hd eq_refl). subst mc. specialize (Hmc eq_refl).
    rewrite Hwg in Hmc. apply sum_list_with_zero in Hmc.
    assert (Hfs : Forall fwd_exited fs).
    { eapply List.Forall_impl; [|exact Hmc]. apply fwd_alive_zero. }
    assert (Hws : Forall worker_exited ws).
    { apply Forall_lookup_2. intros i w Hw.
      destruct (lookup_lt_is_Some_2 fs i) as [p Hi].
      { rewrite <- Hlen. by eapply lookup_lt_Some. }
      pose proof (Forall_lookup_1 _ _ _ _ Hfs Hi) as Hx. red in Hx. subst p.
      specialize (Hfw _ Hi). red. congruence. }
    assert (Hgen : g = GenExited).
    { destruct (lookup_lt_is_Some_2 ws O Hn) as [w Hw].
      pose proof (Forall_lookup_1 _ _ _ _ Hws Hw) as Hx. red in Hx. subst w.
      by apply (Hwe O). }
    subst g. repeat split; try done.
    rewrite <- Hp. simpl.
    rewrite (omap_nil_Forall fwd_held fs), (omap_nil_Forall worker_held ws).
    + by rewrite !app_nil_r.
    + eapply List.Forall_impl; [|exact Hws]. by intros ? ->.
    + eapply List.Forall_impl; [|exact Hfs]. by intros ? ->.
Qed.

(** Once the context is cancelled, nothing can be left blocked: when no
    goroutine can run, all of them have returned and the merged output is
    closed. *)
Lemma fan_cancelled_quiescent_exited (s : state) :
  sinv s -> cancelled s = true -> quiescent step program s ->
  all_exited s /\ cons s <> Consuming.
Proof.
  intros (Hlen & Hwg & Hmc & Hpan) Hc Hq. unfold all_exited.
  destruct s as [c g ws fs n mc cn col pan]; simpl in *. subst c.
  assert (Hgen : g = GenExited).
  { destruct g as [[|v r]|]; [|by specialize (Hq GenCancel I)|done].
    by specialize (Hq GenExit I). }
  subst g.
  assert (Hws : Forall worker_exited ws).
  { apply Forall_lookup_2. intros i w Hw. destruct w; [| |done].
    - specialize (Hq (WorkerRecvClosed i) I). simpl in Hq. by rewrite Hw in Hq.
    - specialize (Hq (WorkerCancel i) I). simpl in Hq. by rewrite Hw in Hq. }
  assert (Hfs : Forall fwd_exited fs).
  { apply Forall_lookup_2. intros i p Hi. destruct p; [| |done].
    - destruct (lookup_lt_is_Some_2 ws i) as [w Hw].
      { rewrite Hlen. by eapply lookup_lt_Some. }
      pose proof (Forall_lookup_1 _ _ _ _ Hws Hw) as Hx. red in Hx. subst w.
      specialize (Hq (FwdRecvClosed i) I). simpl in Hq. by rewrite Hw, Hi in Hq.
    - specialize (Hq (FwdCancel i) I). simpl in Hq. by rewrite Hi in Hq. }
  assert (Hn : n = O).
  { rewrite Hwg. apply sum_list_with_zero.
    eapply List.Forall_impl; [|exact Hfs]. by intros ? ->. }
  clear Hwg. subst n.
  assert (Hm : mc = true).
  { destruct mc; [done|]. by specialize (Hq Barrier I). }
  subst mc. repeat split; try done.
  destruct cn; try done. by specialize (Hq ConsEnd I).
Qed.

Lemma sum_list_with_replicate {A} (g : A -> nat) (n : nat) (x : A) :
  sum_list_with g (replicate n x) = (n * g x)%nat.
Proof. induction n as [|n IH]; simpl; [done|]. rewrite IH. lia. Qed.

Lemma omap_replicate_None {A B} (g : A -> option B) (n : nat) (x : A) :
  g x = None -> omap g (replicate n x) = [].
Proof. intros H. induction n as [|n IH]; simpl; [done|]. by rewrite H. Qed.

Lemma init_facts (values : list Z) (workers : Z) (s0 : state) :
  FanOutFanIn values workers = Some s0 ->
  0 <= workers /\
  length (Fan.workers s0) = Z.to_nat workers /\
  measure s0 = (3 * length values + 2 * Z.to_nat workers + 4)%nat /\
  sinv s0 /\ ninv values s0.
Proof.
  unfold FanOutFanIn. case_match eqn:E; [done|]. intros [= <-].
  apply Z.ltb_ge in E.
  unfold sinv, ninv, pending, measure; simpl.
  rewrite !length_replicate, !sum_list_with_replicate.
  rewrite !omap_replicate_None by done. simpl.
  repeat split; try done; try lia.
  - intros i Hi. apply lookup_replicate_1 in Hi as [? _]. done.
  - intros i Hi. apply lookup_replicate_1 in Hi as [? _]. done.
Qed.

Lemma fan_labels_program (s : state) (l : label) : l ∈ labels s -> program l.
Proof.
  unfold labels. rewrite elem_of_app, !elem_of_cons, elem_of_nil.
  intros [H|H].
  - destruct l; simpl; try exact I; intuition discriminate.
  - apply list_elem_of_In, in_flat_map in H as (i & _ & H).
    simpl in H. destruct l; simpl; try exact I; intuition discriminate.
Qed.

Lemma fan_enabled_in_labels (s s' : state) (l : label) :
  sinv s -> program l -> step l s = Some s' -> l ∈ labels s.
Proof.
  intros (Hlen & _) Hl H. unfold labels.
  assert (Hidx : forall i, (i < length (workers s))%nat ->
    forall l', In l' [FwdSend i; FwdRecvClosed i; FwdCancel i;
                      WorkerSend i; WorkerRecvClosed i; WorkerCancel i; GenSend i] ->
    l' ∈ [GenExit; GenCancel; Barrier; ConsEnd] ++
         flat_map (fun i => [FwdSend i; FwdRecvClosed i; FwdCancel i;
                      WorkerSend i; WorkerRecvClosed i; WorkerCancel i; GenSend i])
           (seq 0 (length (workers s)))).
  { intros i Hi l' Hin. apply elem_of_app. right.
    apply list_elem_of_In, in_flat_map. exists i. split; [|done].
    apply in_seq. lia. }
  destruct l; simpl in Hl; try done;
    try (apply elem_of_app; left; rewrite !elem_of_cons; tauto).
  all: apply (Hidx i); [|simpl; tauto].
  all: simpl in H; repeat case_match; simplify_eq/=.
  all: try (eapply lookup_lt_Some; eassumption).
  all: rewrite Hlen; eapply lookup_lt_Some; eassumption.
Qed.

Lemma fan_run_quiescent (s0 : state) :
  sinv s0 ->
  quiescent step program (run step labels (measure s0) s0).
Proof.
  intros Hs l Hl.
  destruct (LTSFacts.run_exec step program labels fan_labels_program
              (measure s0) s0) as (sched & Hall & Hex).
  pose proof (fan_sinv_exec sched _ _ Hs Hex) as Hs'.
  destruct (step l _) as [s'|] eqn:E; [|done].
  pose proof (fan_enabled_in_labels _ _ _ Hs' Hl E) as Hin.
  pose proof (LTSFacts.run_stops step program labels fan_labels_program measure
                (fun l s s' _ => fan_step_measure l s s') (measure s0) s0
                (le_n _)) as Hpick.
  rewrite (LTSFacts.pick_None step _ _ Hpick l Hin) in E. done.
Qed.

Lemma exec_workers_length (sched : list label) (s0 s : state) :
  exec step sched s0 = Some s -> length (workers s) = length (workers s0).
Proof.
  revert s0; induction sched as [|l sched IH]; intros s0 Hex; simpl in Hex.
  - by simplify_eq.
  - destruct (step l s0) as [s1|] eqn:E; [|done].
    rewrite (IH _ Hex). clear -E.
    step_cases E; simpl; by rewrite ?length_insert.
Qed.

Lemma fan_collect_spec (values : list Z) (workers : Z) :
  1 <= workers ->
  exists out, collect values workers = Some out /\ out ≡ₚ map square values.
Proof.
  intros Hw. unfold collect.
  destruct (FanOutFanIn values workers) as [s0|] eqn:E.
  2:{ unfold FanOutFanIn in E. case_match eqn:E'; [|done].
      apply Z.ltb_lt in E'. lia. }
  simpl. eexists; split; [done|].
  destruct (init_facts _ _ _ E) as (_ & Hlen & _ & Hs & Hn).
  destruct (LTSFacts.run_exec step program labels fan_labels_program
              (measure s0) s0) as (sched & Hall & Hex).
  destruct (fan_ninv_exec values sched _ _ Hs Hn Hall Hex) as [Hs' Hn'].
  apply (fan_quiescent_done values _ Hs' Hn'); [|by apply fan_run_quiescent].
  destruct Hs' as (Hl' & _).
  rewrite (exec_workers_length _ _ _ Hex).
  lia.
Qed.

(** The scenario of the specification under the first-enabled scheduler,
    and the degenerate worker counts. *)
Example collect_squares_3_workers :
  collect [1; 2; 3; 4; 5] 3 = Some [1; 4; 9; 16; 25].
Proof. reflexivity. Qed.

Example collect_no_worker : collect [1; 2; 3; 4; 5] 0 = Some [].
Proof. reflexivity. Qed.

Example collect_negative_workers : collect [1; 2; 3; 4; 5] (-1) = None.
Proof. reflexivity. Qed.

(** C2. For [workers >= 1] and every finite input, with the context never
    cancelled and the caller ranging over the merged output: every
    schedule is finite, no send ever hits the closed merged output, and
    when nothing can run any more the caller has seen the merged output
    closed, every worker, forwarder and the Generator have returned, and
    the collected values are exactly as many as the inputs and a
    permutation of their squares.  The first-enabled scheduler reaches
    such a result. *)
Theorem fan_out_fan_in_multiset
    (values : list Z) (workers : Z) (s0 : state) (sched : list label) (s : state) :
  1 <= workers ->
  FanOutFanIn values workers = Some s0 ->
  Forall program sched ->
  exec step sched s0 = Some s ->
  (length sched <= 3 * length values + 2 * Z.to_nat workers + 3)%nat /\
  panicked s = false /\
  collected s ⊆+ map square values /\
  (quiescent step program s ->
     cons s = ConsDone /\ all_exited s /\
     length (collected s) = length values /\
     collected s ≡ₚ map square values) /\
  (exists out, collect values workers = Some out /\ out ≡ₚ map square values).
Proof.
  intros Hw Hinit Hall Hex.
  destruct (init_facts _ _ _ Hinit) as (_ & Hlen & Hm & Hs & Hn).
  destruct (fan_ninv_exec values sched _ _ Hs Hn Hall Hex) as [Hs' Hn'].
  pose proof (LTSFacts.exec_measure step (fun _ => True) measure
    (fun l s s' _ => fan_step_measure l s s') sched _ _
    (Forall_true _ _ (fun _ => I)) Hex) as Hb.
  split; [|split; [|split; [|split]]].
  - destruct Hn' as (Hc & _). unfold measure at 1 in Hb. rewrite Hc in Hb. lia.
  - apply Hs'.
  - destruct Hn' as (_ & _ & Hp & _). rewrite <- Hp. by apply submseteq_inserts_r.
  - intros Hq.
    destruct (fan_quiescent_done values s Hs' Hn') as (Hd & He & Hcol); [|done|].
    { rewrite (exec_workers_length _ _ _ Hex). lia. }
    repeat split; try done; try apply He.
    by rewrite Hcol, length_map.
  - by apply fan_collect_spec.
Qed.

Lemma fan_out_fan_in_multiset_witness :
  let values := [1; 2; 3; 4; 5] in
  let sched :=
    [GenSend 0; GenSend 1; GenSend 2; WorkerSend 2; WorkerSend 1; FwdSend 1;
     GenSend 1; FwdSend 2; WorkerSend 0; FwdSend 0; GenSend 2; WorkerSend 2;
     WorkerSend 1; GenExit; FwdSend 2; FwdSend 1; WorkerRecvClosed 0;
     WorkerRecvClosed 2; WorkerRecvClosed 1; FwdRecvClosed 1; FwdRecvClosed 0;
     FwdRecvClosed 2; Barrier; ConsEnd] in
  let s0 := Mk false (Generator values) [WRange; WRange; WRange]
               [FRange; FRange; FRange] 3 false Consuming [] false in
  let s := Mk false GenExited [WExited; WExited; WExited]
              [FExited; FExited; FExited] 0 true ConsDone [4; 9; 1; 25; 16] false in
  1 <= 3 /\
  FanOutFanIn values 3 = Some s0 /\
  Forall program sched /\
  exec step sched s0 = Some s /\
  collected s ⊆+ map square values /\
  (exists out, collect values 3 = Some out /\ out ≡ₚ [1; 4; 9; 16; 25]).
Proof.
  intros values sched s0 s.
  assert (Hw : 1 <= 3) by lia.
  assert (Hinit : FanOutFanIn values 3 = Some s0) by reflexivity.
  assert (Hall : Forall program sched) by (repeat constructor).
  assert (Hex : exec step sched s0 = Some s) by reflexivity.
  destruct (fan_out_fan_in_multiset values 3 s0 sched s Hw Hinit Hall Hex)
    as (_ & _ & Hsub & _ & Hcol).
  split; [exact Hw|split; [exact Hinit|split; [exact Hall|split; [exact Hex|]]]].
  split; [exact Hsub|exact Hcol].
Defined.

(** Kept by every step, cancellation included: what was collected and
    what is in flight never exceeds the squares of the input. *)
Definition ainv (values : list Z) (s : state) : Prop :=
  collected s ++ pending s ⊆+ map square values.

Lemma fan_ainv_step (values : list Z) (l : label) (s s' : state) :
  ainv values s -> step l s = Some s' -> ainv values s'.
Proof.
  intros Hp H. unfold ainv, pending in *.
  step_cases H; simpl in *; try done.
  all: etrans; [|exact Hp]; clear Hp.
  all: repeat match goal with
    | Hl : ?l !! ?i = Some ?x |- context [omap ?g (<[?i := ?y]> ?l)] =>
        let E := fresh "E" in
        pose proof (omap_insert_perm g l i x y Hl) as E;
        simpl in E; rewrite ?app_nil_r in E;
        generalize dependent (omap g (<[i := y]> l)); intros ? E;
        first [rewrite E | rewrite <- E]; clear E
    end; simpl; solve_submseteq.
Qed.

Lemma ainv_exec (values : list Z) (workers : Z) (sched : list label) (s0 s : state) :
  FanOutFanIn values workers = Some s0 -> exec step sched s0 = Some s ->
  ainv values s.
Proof.
  intros Hinit Hex.
  apply (LTSFacts.exec_invariant step (fun _ => True) (ainv values))
    with (sched := sched) (s := s0); [|by apply Forall_true| |done].
  - intros l s1 s2 _. apply fan_ainv_step.
  - destruct (init_facts _ _ _ Hinit) as (_ & _ & _ & _ & _ & _ & Hp & _).
    unfold ainv. by rewrite Hp.
Qed.

(** X3. Fan-out/fan-in under any schedule, cancellation and a leaving
    caller included: the run is finite; no forwarder ever sends on the
    closed merged output (the barrier closes it only when the WaitGroup
    counter is zero, that is when every forwarder has returned); and once
    the context is cancelled a state in which no goroutine can run has
    the Generator, every worker and every forwarder returned and the
    merged output closed. *)
Theorem fan_barrier_and_cancel
    (values : list Z) (workers : Z) (s0 : state) (sched : list label) (s : state) :
  FanOutFanIn values workers = Some s0 ->
  exec step sched s0 = Some s ->
  (length sched <= 3 * length values + 2 * Z.to_nat workers + 4)%nat /\
  panicked s = false /\
  (merged_closed s = true -> wg s = O /\ Forall fwd_exited (fwds s)) /\
  (cancelled s = true -> quiescent step program s ->
     all_exited s /\ cons s <> Consuming).
Proof.
  intros Hinit Hex.
  destruct (init_facts _ _ _ Hinit) as (_ & _ & Hm & Hs & _).
  pose proof (fan_sinv_exec sched _ _ Hs Hex) as Hs'.
  pose proof (LTSFacts.exec_measure step (fun _ => True) measure
    (fun l s s' _ => fan_step_measure l s s') sched _ _
    (Forall_true _ _ (fun _ => I)) Hex) as Hb.
  split; [lia|]. split; [apply Hs'|]. split.
  - destruct Hs' as (_ & Hwg & Hmc & _). intros Hc. specialize (Hmc Hc).
    split; [done|]. rewrite Hwg in Hmc. apply sum_list_with_zero in Hmc.
    eapply List.Forall_impl; [|exact Hmc]. apply fwd_alive_zero.
  - by apply fan_cancelled_quiescent_exited.
Qed.

Lemma fan_barrier_and_cancel_witness :
  let values := [1; 2; 3] in
  let sched := [GenSend 0; GenSend 1; WorkerSend 1; Cancel; FwdCancel 1;
                WorkerCancel 0; GenCancel; WorkerRecvClosed 1;
                FwdRecvClosed 0; Barrier; ConsEnd] in
  let s0 := Mk false (Generator values) [WRange; WRange] [FRange; FRange]
               2 false Consuming [] false in
  let s := Mk true GenExited [WExited; WExited] [FExited; FExited]
              0 true ConsDone [] false in
  FanOutFanIn values 2 = Some s0 /\
  exec step sched s0 = Some s /\
  panicked s = false /\
  (length sched <= 3 * length values + 2 * Z.to_nat 2 + 4)%nat.
Proof.
  intros values sched s0 s.
  assert (Hinit : FanOutFanIn values 2 = Some s0) by reflexivity.
  assert (Hex : exec step sched s0 = Some s) by reflexivity.
  destruct (fan_barrier_and_cancel values 2 s0 sched s Hinit Hex)
    as (Hlen & Hp & _).
  split; [exact Hinit|split; [exact Hex|split; [exact Hp|exact Hlen]]].
Defined.

(** X5. Whatever the schedule, cancellation and a leaving caller
    included, the values the caller has collected from the merged output
    are a sub-multiset of the squares of the input: a square is delivered
    at most as often as its input occurs, and nothing else is delivered. *)
Theorem fan_output_submultiset_any_schedule
    (values : list Z) (workers : Z) (s0 : state) (sched : list label) (s : state) :
  FanOutFanIn values workers = Some s0 ->
  exec step sched s0 = Some s ->
  collected s ⊆+ map square values.
Proof.
  intros Hinit Hex.
  pose proof (ainv_exec values workers sched s0 s Hinit Hex) as Hi.
  unfold ainv in Hi. etrans; [|exact Hi]. by apply submseteq_inserts_r.
Qed.

Lemma fan_output_submultiset_any_schedule_witness :
  let values := [1; 2; 3] in
  let sched := [GenSend 1; WorkerSend 1; GenSend 0; FwdSend 1; Cancel;
                WorkerCancel 0; GenCancel] in
  let s0 := Mk false (Generator values) [WRange; WRange] [FRange; FRange]
               2 false Consuming [] false in
  let s := Mk true GenExited [WExited; WRange] [FRange; FRange]
              2 false Consuming [1] false in
  FanOutFanIn values 2 = Some s0 /\
  exec step sched s0 = Some s /\
  collected s ⊆+ map square values.
Proof.
  intros values sched s0 s.
  assert (Hinit : FanOutFanIn values 2 = Some s0) by reflexivity.
  assert (Hex : exec step sched s0 = Some s) by reflexivity.
  split; [exact Hinit|split; [exact Hex|]].
  exact (fan_output_submultiset_any_schedule values 2 s0 sched s Hinit Hex).
Defined.

(** With no worker nothing ever leaves the Generator. *)
Definition zinv (values : list Z) (s : state) : Prop :=
  cancelled s = false /\
  workers s = [] /\ fwds s = [] /\ wg s = O /\ collected s = [] /\
  cons s <> ConsGone /\
  (cons s = ConsDone -> merged_closed s = true) /\
  (gen s = GenLoop values \/ (values = [] /\ gen s = GenExited)).

Lemma fan_zinv_step (values : list Z) (l : label) (s s' : state) :
  program l -> zinv values s -> step l s = Some s' -> zinv values s'.
Proof.
  intros Hl (Hc & Hw & Hf & Hwg & Hcol & Hg & Hd & Hgen) H. unfold zinv in *.
  destruct s as [c g ws fs n mc cn col pan]; simpl in *. subst c ws fs n col.
  destruct l; simpl in H; try done;
    unfold gen_exit, gen_cancel in H; repeat case_match; simplify_eq/=;
    repeat split; try done; try (intros; congruence).
  destruct Hgen as [[= <-]|[-> ?]]; [by right|done].
Qed.

(** X4. [FanOutFanIn] with [workers = 0]: [merge] has nothing to wait
    for, so the barrier closes the merged output at once and the caller
    collects nothing; no goroutine ever receives from [input], so a
    Generator with at least one value stays blocked on its first send
    with its channel open until the context is cancelled. *)
Theorem fan_zero_workers
    (values : list Z) (s0 : state) (sched : list label) (s : state) :
  FanOutFanIn values 0 = Some s0 ->
  Forall program sched ->
  exec step sched s0 = Some s ->
  collected s = [] /\
  (values <> [] -> gen s = GenLoop values) /\
  (quiescent step program s -> cons s = ConsDone /\ merged_closed s = true).
Proof.
  intros Hinit Hall Hex.
  assert (Hz : zinv values s).
  { apply (LTSFacts.exec_invariant step program (zinv values))
      with (sched := sched) (s := s0); [|done| |done].
    - apply fan_zinv_step.
    - injection Hinit as <-. unfold zinv; simpl.
      repeat split; try done. by left. }
  destruct Hz as (Hc & Hw & Hf & Hwg & Hcol & Hg & Hd & Hgen).
  split; [done|]. split.
  - intros Hne. by destruct Hgen as [?|[? ?]].
  - intros Hq.
    destruct s as [c g ws fs n mc cn col pan]; simpl in *. subst ws fs n col.
    destruct cn; [exfalso| |done].
    + destruct mc; [by specialize (Hq ConsEnd I)|by specialize (Hq Barrier I)].
    + by rewrite Hd.
Qed.

Lemma fan_zero_workers_witness :
  let values := [1; 2; 3] in
  let sched := [Barrier; ConsEnd] in
  let s0 := Mk false (Generator values) [] [] 0 false Consuming [] false in
  let s := Mk false (GenLoop values) [] [] 0 true ConsDone [] false in
  FanOutFanIn values 0 = Some s0 /\
  Forall program sched /\
  exec step sched s0 = Some s /\
  collected s = [] /\ gen s = GenLoop values.
Proof.
  intros values sched s0 s.
  assert (Hinit : FanOutFanIn values 0 = Some s0) by reflexivity.
  assert (Hall : Forall program sched) by (repeat constructor).
  assert (Hex : exec step sched s0 = Some s) by reflexivity.
  destruct (fan_zero_workers values s0 sched s Hinit Hall Hex) as (Hc & Hg & _).
  split; [exact Hinit|split; [exact Hall|split; [exact Hex|]]].
  split; [exact Hc|]. apply Hg. discriminate.
Defined.

End FanFacts.

(** ** Tee *)

Module TeeFacts.
Import LTS Source Tee.

Ltac step_cases Hstep :=
  match type of Hstep with
  | step ?l ?s = Some ?s' =>
      destruct s; destruct l;
      cbn [step set_tee gen tee closes1 closes2 cons1 cons2 out1 out2
           cancelled] in Hstep;
      unfold gen_send, gen_exit, gen_cancel, gen_closed in Hstep;
      repeat (case_match; simplify_eq/=); simplify_eq/=
  end.

Lemma tee_step_measure (l : label) (s s' : state) :
  step l s = Some s' -> (measure s' < measure s)%nat.
Proof.
  intros H. step_cases H; unfold measure; simpl; lia.
Qed.

(** The close counters are determined by how far Tee has returned:
    kept by every step, cancellation included. *)
Definition sinv (s : state) : Prop :=
  closes2 s = match tee s with TClose1 | TExited => 1%nat | _ => O end /\
  closes1 s = match tee s with TExited => 1%nat | _ => O end.

Lemma tee_sinv_step (l : label) (s s' : state) :
  sinv s -> step l s = Some s' -> sinv s'.
Proof.
  intros (H2 & H1) H. unfold sinv in *.
  step_cases H; simpl in *; done.
Qed.

Lemma tee_sinv_exec (sched : list label) (s0 s : state) :
  sinv s0 -> exec step sched s0 = Some s -> sinv s.
Proof.
  intros Hs Hex.
  apply (LTSFacts.exec_invariant step (fun _ => True) sinv)
    with (sched := sched) (s := s0); [|by apply Forall_true|done..].
  intros l s1 s2 _. apply tee_sinv_step.
Qed.

Definition held1 (t : tee_pc) : list Z :=
  match t with TSelect1 val => [val] | _ => [] end.

Definition held2 (t : tee_pc) : list Z :=
  match t with TSelect1 val | TSelect2 val => [val] | _ => [] end.

Definition returning (t : tee_pc) : Prop :=
  match t with TClose2 | TClose1 | TExited => True | _ => False end.

(** Kept by the program while the context is not cancelled and both
    callers keep receiving. *)
Definition ninv (values : list Z) (s : state) : Prop :=
  cancelled s = false /\
  cons1 s <> ConsGone /\ cons2 s <> ConsGone /\
  out1 s ++ held1 (tee s) ++ gen_rest (gen s) = values /\
  out2 s ++ held2 (tee s) ++ gen_rest (gen s) = values /\
  (returning (tee s) -> gen s = GenExited) /\
  (cons1 s = ConsDone -> closes1 s = 1%nat) /\
  (cons2 s = ConsDone -> closes2 s = 1%nat).

Lemma tee_ninv_step (values : list Z) (l : label) (s s' : state) :
  program l -> sinv s -> ninv values s -> step l s = Some s' -> ninv values s'.
Proof.
  intros Hl (Hs2 & Hs1) (Hc & Hg1 & Hg2 & Hp1 & Hp2 & Hr & Hd1 & Hd2) H.
  unfold ninv in *.
  step_cases H; simpl in *; try done.
  all: repeat split; try done; try (intros; congruence);
       try (rewrite <- ?app_assoc; simpl; done);
       try (intros; lia).
Qed.

(** The first caller is level with the second or one value ahead. *)
Lemma outs_in_step (values : list Z) (s : state) :
  ninv values s -> out1 s = out2 s \/ exists v, out1 s = out2 s ++ [v].
Proof.
  intros (_ & _ & _ & Hp1 & Hp2 & _).
  rewrite <- Hp2, !app_assoc in Hp1. apply app_inv_tail in Hp1.
  destruct (tee s) as [|v|v| | |]; simpl in *; rewrite ?app_nil_r in Hp1;
    try (by left).
  - left. by apply app_inv_tail in Hp1.
  - right. by exists v.
Qed.

Lemma tee_ninv_exec (values : list Z) (sched : list label) (s : state) :
  Forall program sched -> exec step sched (init values) = Some s ->
  sinv s /\ ninv values s.
Proof.
  intros Hall Hex.
  apply (LTSFacts.exec_invariant step program
           (fun s => sinv s /\ ninv values s))
    with (sched := sched) (s := init values); [|done| |done].
  - intros l s1 s2 Hl [Hs1 Hn1] Hst. split.
    + eapply tee_sinv_step; eauto.
    + eapply tee_ninv_step; eauto.
  - unfold sinv, ninv; simpl. repeat split; try done.
Qed.

(** Without cancellation the program stops only after both callers have
    seen their output closed. *)
Lemma tee_quiescent_done (values : list Z) (s : state) :
  sinv s -> ninv values s -> quiescent step program s ->
  cons1 s = ConsDone /\ cons2 s = ConsDone /\ all_exited s /\
  closes1 s = 1%nat /\ closes2 s = 1%nat /\
  out1 s = values /\ out2 s = values.
Proof.
  intros (Hs2 & Hs1) (Hc & Hg1 & Hg2 & Hp1 & Hp2 & Hr & Hd1 & Hd2) Hq.
  unfold all_exited in *.
  pose proof (Hq GenSend I) as Q1. pose proof (Hq GenExit I) as Q2.
  pose proof (Hq TeeRecvClosed I) as Q3. pose proof (Hq TeeSend1 I) as Q4.
  pose proof (Hq TeeSend2 I) as Q5. pose proof (Hq TeeClose2 I) as Q6.
  pose proof (Hq TeeClose1 I) as Q7. pose proof (Hq Cons1End I) as Q8.
  pose proof (Hq Cons2End I) as Q9. clear Hq.
  destruct s as [c g t n1 n2 c1 o1 c2 o2]; simpl in *. subst n1 n2.
  destruct t; simpl in *; try done.
  - destruct g as [[|v r]|]; simpl in *; done.
  - destruct c1; simpl in *; try done. by specialize (Hd1 eq_refl).
  - destruct c2; simpl in *; try done. by specialize (Hd2 eq_refl).
  - specialize (Hr I). subst g. simpl in *. rewrite app_nil_r in Hp1, Hp2.
    destruct c1, c2; simpl in *; done.
Qed.

(** Once the context is cancelled nothing can be left blocked, even when
    a caller has stopped receiving. *)
Lemma tee_cancelled_quiescent_exited (s : state) :
  sinv s -> cancelled s = true -> quiescent step program s ->
  all_exited s /\ closes1 s = 1%nat /\ closes2 s = 1%nat /\
  cons1 s <> Consuming /\ cons2 s <> Consuming.
Proof.
  intros (Hs2 & Hs1) Hc Hq. unfold all_exited.
  pose proof (Hq GenCancel I) as Q1. pose proof (Hq GenExit I) as Q2.
  pose proof (Hq TeeRecvClosed I) as Q3. pose proof (Hq TeeCancel1 I) as Q4.
  pose proof (Hq TeeCancel2 I) as Q5. pose proof (Hq TeeClose2 I) as Q6.
  pose proof (Hq TeeClose1 I) as Q7. pose proof (Hq Cons1End I) as Q8.
  pose proof (Hq Cons2End I) as Q9. clear Hq.
  destruct s as [c g t n1 n2 c1 o1 c2 o2]; simpl in *. subst c n1 n2.
  destruct g as [[|v r]|]; simpl in *; try done.
  destruct t; simpl in *; try done.
  destruct c1, c2; simpl in *; done.
Qed.

Lemma tee_labels_program (l : label) : l ∈ labels -> program l.
Proof.
  unfold labels. rewrite !elem_of_cons, elem_of_nil.
  intros H; destruct l; simpl; try exact I; intuition discriminate.
Qed.

Lemma tee_program_labels (l : label) : program l -> l ∈ labels.
Proof.
  unfold labels. rewrite !elem_of_cons, elem_of_nil.
  destruct l; simpl; try done; tauto.
Qed.

Lemma tee_collect_spec (values : list Z) : collect values = (values, values).
Proof.
  unfold collect.
  set (fuel := measure (init values)).
  destruct (LTSFacts.run_exec step program (fun _ => labels)
              (fun _ => tee_labels_program) fuel (init values)) as (sched & Hall & Hex).
  destruct (tee_ninv_exec values sched _ Hall Hex) as [Hs Hn].
  assert (Hq : quiescent step program (run step (fun _ => labels) fuel (init values))).
  { intros l Hl. apply tee_program_labels in Hl.
    eapply LTSFacts.pick_None; [|exact Hl].
    apply (LTSFacts.run_stops step program (fun _ => labels)
             (fun _ => tee_labels_program) measure
             (fun l s s' _ => tee_step_measure l s s')).
    unfold fuel. lia. }
  destruct (tee_quiescent_done values _ Hs Hn Hq) as (_ & _ & _ & _ & _ & -> & ->).
  done.
Qed.

Example collect_1_2_3 : collect [1; 2; 3] = ([1; 2; 3], [1; 2; 3]).
Proof. reflexivity. Qed.

(** C4. With the context never cancelled and both callers ranging over
    their output: every schedule is finite; at every moment what the
    second caller has received is a prefix of what the first has received
    (at most one value behind), itself a prefix of the input; each output
    is closed at most once, and none before the input has ended and both
    callers hold the whole input; when nothing can run any more both
    callers have seen their output closed, each output has been closed
    exactly once, and both received sequences equal the input. *)
Theorem tee_outputs_equal_input
    (values : list Z) (sched : list label) (s : state) :
  Forall program sched ->
  exec step sched (init values) = Some s ->
  (length sched <= 3 * length values + 6)%nat /\
  out2 s `prefix_of` out1 s /\ out1 s `prefix_of` values /\
  (length (out1 s) <= length (out2 s) + 1)%nat /\
  (closes1 s <= 1)%nat /\ (closes2 s <= 1)%nat /\
  ((0 < closes1 s)%nat \/ (0 < closes2 s)%nat ->
     gen s = GenExited /\ out1 s = values /\ out2 s = values) /\
  (quiescent step program s ->
     cons1 s = ConsDone /\ cons2 s = ConsDone /\ all_exited s /\
     closes1 s = 1%nat /\ closes2 s = 1%nat /\
     out1 s = values /\ out2 s = values) /\
  collect values = (values, values).
Proof.
  intros Hall Hex.
  destruct (tee_ninv_exec values sched s Hall Hex) as [Hs Hn].
  pose proof (LTSFacts.exec_measure step (fun _ => True) measure
    (fun l s s' _ => tee_step_measure l s s') sched _ _
    (Forall_true _ _ (fun _ => I)) Hex) as Hb.
  split; [|split; [|split; [|split; [|split; [|split; [|split; [|split]]]]]]].
  - destruct Hn as (Hc & _). unfold measure at 1 in Hb. rewrite Hc in Hb.
    unfold measure in Hb; simpl in Hb. lia.
  - destruct (outs_in_step values s Hn) as [->|[v ->]]; [done|by exists [v]].
  - destruct Hn as (_ & _ & _ & Hp1 & _). by eexists.
  - destruct (outs_in_step values s Hn) as [->|[v ->]]; [lia|].
    rewrite length_app. simpl. lia.
  - destruct Hs as (_ & ->). destruct (tee s); lia.
  - destruct Hs as (-> & _). destruct (tee s); lia.
  - intros Hcl. destruct Hs as (Hs2 & Hs1).
    destruct Hn as (_ & _ & _ & Hp1 & Hp2 & Hr & _).
    rewrite Hs1, Hs2 in Hcl.
    destruct (tee s); simpl in *; try lia.
    all: rewrite (Hr I) in *; simpl in *; rewrite app_nil_r in Hp1, Hp2; done.
  - by apply tee_quiescent_done.
  - apply tee_collect_spec.
Qed.

Lemma tee_outputs_equal_input_witness :
  let values := [7; 8] in
  let sched := [GenSend; TeeSend1; TeeSend2; GenSend; GenExit; TeeSend1;
                TeeSend2; TeeRecvClosed; TeeClose2; Cons2End; TeeClose1;
                Cons1End] in
  let s := Mk false GenExited TExited 1 1 ConsDone [7; 8] ConsDone [7; 8] in
  Forall program sched /\
  exec step sched (init values) = Some s /\
  out2 s `prefix_of` out1 s /\
  collect values = (values, values).
Proof.
  intros values sched s.
  assert (Hall : Forall program sched) by (repeat constructor).
  assert (Hex : exec step sched (init values) = Some s) by reflexivity.
  destruct (tee_outputs_equal_input values sched s Hall Hex)
    as (_ & Hpre & _ & _ & _ & _ & _ & _ & Hcol).
  split; [exact Hall|split; [exact Hex|split; [exact Hpre|exact Hcol]]].
Defined.

(** X6. Tee under any schedule, cancellation and leaving callers
    included: the run is finite; each output is closed at most once, and
    [ch1] only after [ch2] (the deferred calls run last-in first-out);
    once the context is cancelled a state in which no goroutine can run
    has the Generator and Tee returned, both outputs closed exactly once
    and no caller still waiting. *)
Theorem tee_closes_once_and_cancel
    (values : list Z) (sched : list label) (s : state) :
  exec step sched (init values) = Some s ->
  (length sched <= 3 * length values + 7)%nat /\
  (closes1 s <= 1)%nat /\ (closes2 s <= 1)%nat /\
  (closes1 s <= closes2 s)%nat /\
  (cancelled s = true -> quiescent step program s ->
     all_exited s /\ closes1 s = 1%nat /\ closes2 s = 1%nat /\
     cons1 s <> Consuming /\ cons2 s <> Consuming).
Proof.
  intros Hex.
  assert (Hs : sinv s).
  { apply (tee_sinv_exec sched (init values)); [|done]. by unfold sinv. }
  pose proof (LTSFacts.exec_measure step (fun _ => True) measure
    (fun l s s' _ => tee_step_measure l s s') sched _ _
    (Forall_true _ _ (fun _ => I)) Hex) as Hb.
  unfold measure at 2 in Hb; simpl in Hb.
  split; [lia|].
  destruct Hs as (H2 & H1).
  split; [|split; [|split]].
  - rewrite H1. destruct (tee s); lia.
  - rewrite H2. destruct (tee s); lia.
  - rewrite H1, H2. destruct (tee s); lia.
  - apply tee_cancelled_quiescent_exited. by split.
Qed.

Lemma tee_closes_once_and_cancel_witness :
  let values := [7; 8; 9] in
  let sched := [GenSend; TeeSend1; Leave2; Cancel; TeeCancel2; GenCancel;
                TeeClose2; TeeClose1; Cons1End] in
  let s := Mk true GenExited TExited 1 1 ConsDone [7] ConsGone [] in
  exec step sched (init values) = Some s /\
  (closes1 s <= 1)%nat /\ (closes2 s <= 1)%nat.
Proof.
  intros values sched s.
  assert (Hex : exec step sched (init values) = Some s) by reflexivity.
  destruct (tee_closes_once_and_cancel values sched s Hex) as (_ & H1 & H2 & _).
  split; [exact Hex|split; [exact H1|exact H2]].
Defined.

(** Kept by every step: the two callers advance in lock step through a
    prefix of the input. *)
Definition ainv (values : list Z) (s : state) : Prop :=
  out1 s `prefix_of` values /\
  match tee s with
  | TRange => out1 s = out2 s /\ (out1 s ++ gen_rest (gen s)) `prefix_of` values
  | TSelect1 v =>
      out1 s = out2 s /\ (out1 s ++ v :: gen_rest (gen s)) `prefix_of` values
  | TSelect2 v =>
      out1 s = out2 s ++ [v] /\ (out1 s ++ gen_rest (gen s)) `prefix_of` values
  | _ => out1 s = out2 s \/ exists v, out1 s = out2 s ++ [v]
  end.

Lemma tee_ainv_step (values : list Z) (l : label) (s s' : state) :
  ainv values s -> step l s = Some s' -> ainv values s'.
Proof.
  intros (Hp & Hi) H. unfold ainv in *.
  step_cases H; simpl in *; rewrite ?app_nil_r in *; destruct_and?;
    simplify_eq/=; try done.
  all: repeat split; try done; eauto.
  all: try (rewrite <- ?app_assoc; simpl; done).
  all: try (eapply prefix_app_l; rewrite <- ?app_assoc; simpl; eassumption).
Qed.

(** X7. Whatever the schedule, cancellation and leaving callers
    included, the second caller has received a prefix of what the first
    has received and is at most one value behind, and the first has
    received a prefix of the input: Tee never reorders, repeats or skips
    a value on either output. *)
Theorem tee_lock_step_any_schedule
    (values : list Z) (sched : list label) (s : state) :
  exec step sched (init values) = Some s ->
  out2 s `prefix_of` out1 s /\ out1 s `prefix_of` values /\
  (length (out1 s) <= length (out2 s) + 1)%nat.
Proof.
  intros Hex.
  assert (Hi : ainv values s).
  { apply (LTSFacts.exec_invariant step (fun _ => True) (ainv values))
      with (sched := sched) (s := init values); [|by apply Forall_true| |done].
    - intros l s1 s2 _. apply tee_ainv_step.
    - unfold ainv; simpl. repeat split; try done; apply prefix_nil. }
  destruct Hi as (Hp & Hi).
  assert (Hrel : out1 s = out2 s \/ exists v, out1 s = out2 s ++ [v]).
  { destruct (tee s) as [|v|v| | |]; try exact Hi; destruct Hi as [Hi _].
    - by left.
    - by left.
    - right. by exists v. }
  destruct Hrel as [E|[v E]]; rewrite E in *.
  - split; [by exists []; rewrite app_nil_r|]. split; [done|lia].
  - split; [by exists [v]|]. split; [done|]. rewrite length_app. simpl. lia.
Qed.

Lemma tee_lock_step_any_schedule_witness :
  let values := [7; 8; 9] in
  let sched := [GenSend; TeeSend1; TeeSend2; GenSend; TeeSend1; Cancel;
                TeeCancel2] in
  let s := Mk true (GenLoop [9]) TClose2 0 0 Consuming [7; 8] Consuming [7] in
  exec step sched (init values) = Some s /\
  out2 s `prefix_of` out1 s /\ out1 s `prefix_of` values.
Proof.
  intros values sched s.
  assert (Hex : exec step sched (init values) = Some s) by reflexivity.
  destruct (tee_lock_step_any_schedule values sched s Hex) as (H1 & H2 & _).
  split; [exact Hex|split; [exact H1|exact H2]].
Defined.

(** The program's own steps and the second caller walking away. *)
Definition program_or_leave2 (l : label) : Prop :=
  match l with Cancel | Leave1 => False | _ => True end.

(** Kept while the context is not cancelled and the first caller keeps
    receiving, whatever the second caller does. *)
Definition linv (values : list Z) (s : state) : Prop :=
  cancelled s = false /\
  cons1 s <> ConsGone /\
  out1 s ++ held1 (tee s) ++ gen_rest (gen s) = values /\
  (returning (tee s) -> gen s = GenExited) /\
  (cons1 s = ConsDone -> closes1 s = 1%nat).

Lemma linv_step (values : list Z) (l : label) (s s' : state) :
  program_or_leave2 l -> sinv s -> linv values s -> step l s = Some s' ->
  linv values s'.
Proof.
  intros Hl (Hs2 & Hs1) (Hc & Hg1 & Hp1 & Hr & Hd1) H.
  unfold linv in *.
  step_cases H; simpl in *; try done.
  all: repeat split; try done; try (intros; congruence);
       try (rewrite <- ?app_assoc; simpl; done);
       try (intros; lia).
Qed.

(** X10. Tee when the second caller stops receiving and the context is
    never cancelled: Tee has no way out of its second [select], so when
    nothing can run any more either the whole input had already been
    delivered (Tee has returned and the first caller has seen its output
    closed, holding the whole input), or Tee is blocked sending some
    value [v] to the second output, the first caller is still waiting on
    an output that is not closed, and [v] is the last value it received. *)
Theorem tee_stalls_without_second_caller
    (values : list Z) (sched : list label) (s : state) :
  Forall program_or_leave2 sched ->
  exec step sched (init values) = Some s ->
  cons2 s = ConsGone ->
  quiescent step program s ->
  (tee s = TExited /\ cons1 s = ConsDone /\ out1 s = values) \/
  (exists v, tee s = TSelect2 v /\ cons1 s = Consuming /\
             closes1 s = O /\ closes2 s = O /\
             exists before, out1 s = before ++ [v]).
Proof.
  intros Hall Hex Hgone Hq.
  assert (Hinv : sinv s /\ linv values s).
  { apply (LTSFacts.exec_invariant step program_or_leave2
             (fun s => sinv s /\ linv values s))
      with (sched := sched) (s := init values); [|done| |done].
    - intros l s1 s2 Hl [Hs1 Hn1] Hst. split.
      + eapply tee_sinv_step; eauto.
      + eapply linv_step; eauto.
    - unfold sinv, linv; simpl. repeat split; try done. }
  destruct Hinv as ((Hs2 & Hs1) & (Hc & Hg1 & Hp1 & Hr & Hd1)).
  assert (Ha : ainv values s).
  { apply (LTSFacts.exec_invariant step (fun _ => True) (ainv values))
      with (sched := sched) (s := init values); [|by apply Forall_true| |done].
    - intros l s1 s2 _. apply tee_ainv_step.
    - unfold ainv; simpl. repeat split; try done; apply prefix_nil. }
  pose proof (Hq GenSend I) as Q1. pose proof (Hq GenExit I) as Q2.
  pose proof (Hq TeeRecvClosed I) as Q3. pose proof (Hq TeeSend1 I) as Q4.
  pose proof (Hq TeeClose2 I) as Q6.
  pose proof (Hq TeeClose1 I) as Q7. pose proof (Hq Cons1End I) as Q8.
  clear Hq Hex.
  destruct s as [c g t n1 n2 c1 o1 c2 o2]; simpl in *. subst n1 n2 c c2.
  destruct t as [|v|v| | |]; simpl in *; try done.
  - destruct g as [[|v r]|]; simpl in *; done.
  - destruct c1; simpl in *; try done. by specialize (Hd1 eq_refl).
  - right. exists v. destruct c1; simpl in *; try done.
    + repeat split; try done.
      destruct Ha as (_ & Ha & _). simpl in Ha. by exists o2.
    + by specialize (Hd1 eq_refl).
  - left. specialize (Hr I). subst g. simpl in Hp1. rewrite app_nil_r in Hp1.
    destruct c1; simpl in *; done.
Qed.

Lemma tee_stalls_without_second_caller_witness :
  let values := [7; 8; 9] in
  let sched := [GenSend; TeeSend1; TeeSend2; Leave2; GenSend; TeeSend1] in
  let s := Mk false (GenLoop [9]) (TSelect2 8) 0 0 Consuming [7; 8]
              ConsGone [7] in
  Forall program_or_leave2 sched /\
  exec step sched (init values) = Some s /\
  cons2 s = ConsGone /\
  quiescent step program s /\
  tee s = TSelect2 8 /\ cons1 s = Consuming.
Proof.
  intros values sched s.
  assert (Hall : Forall program_or_leave2 sched) by (repeat constructor).
  assert (Hex : exec step sched (init values) = Some s) by reflexivity.
  assert (Hgone : cons2 s = ConsGone) by reflexivity.
  assert (Hq : quiescent step program s) by (intros l Hl; by destruct l).
  destruct (tee_stalls_without_second_caller values sched s Hall Hex Hgone Hq)
    as [(Ht & _)|(v & Ht & Hc & _)].
  - discriminate Ht.
  - split; [exact Hall|split; [exact Hex|split; [exact Hgone|split; [exact Hq|]]]].
    split; [reflexivity|exact Hc].
Defined.

End TeeFacts.

(** ** OrDone and Bridge *)

Module BridgeFacts.
Import LTS Source Bridge SliceFacts.

Section Bridge.
Context {T : Type}.
Implicit Types (s : state T) (g : gen_pc T).

Ltac step_cases Hstep :=
  match type of Hstep with
  | step ?l ?s = Some ?s' =>
      destruct s; destruct l;
      cbn [step set_inner set_relay set_outer cancelled outer inners relay
           bridge cons collected] in Hstep;
      unfold gen_send, gen_exit, gen_cancel, gen_closed in Hstep;
      repeat (first [case_match | progress simplify_option_eq])
  end.

Ltac sum_insert :=
  repeat match goal with
  | Hl : ?l !! ?i = Some ?x |- context [sum_list_with ?g (<[?i := ?y]> ?l)] =>
      let E := fresh "E" in
      pose proof (sum_list_with_insert g l i x y Hl) as E;
      simpl in E;
      generalize dependent (sum_list_with g (<[i := y]> l)); intros
  end.

Lemma bridge_step_measure (l : label) s s' :
  step l s = Some s' -> (measure s' < measure s)%nat.
Proof.
  intros H. step_cases H; unfold measure; simpl; sum_insert; lia.
Qed.

(** Bridge never ranges over a relay that was not started: kept by every
    step, cancellation included. *)
Definition sinv s : Prop :=
  match bridge s with
  | BRange | BSend _ => relay s <> RNone
  | _ => True
  end.

Lemma bridge_sinv_step (l : label) s s' : sinv s -> step l s = Some s' -> sinv s'.
Proof.
  intros Hs H. unfold sinv in *.
  step_cases H; simpl in *; done.
Qed.

Lemma bridge_sinv_exec (sched : list label) s0 s :
  sinv s0 -> exec step sched s0 = Some s -> sinv s.
Proof.
  intros Hs Hex.
  apply (LTSFacts.exec_invariant step (fun _ => True) sinv)
    with (sched := sched) (s := s0); [|by apply Forall_true|done..].
  intros l s1 s2 _. apply bridge_sinv_step.
Qed.

Definition drained g : Prop := gen_rest g = [].

(** What the inner sources still hold, in channel order. *)
Definition flat (l : list (gen_pc T)) : list T := concat (map gen_rest l).

Lemma flat_app (l1 l2 : list (gen_pc T)) : flat (l1 ++ l2) = flat l1 ++ flat l2.
Proof. unfold flat. by rewrite map_app, concat_app. Qed.

Lemma flat_drained (l : list (gen_pc T)) : Forall drained l -> flat l = [].
Proof.
  induction 1 as [|g l Hg _ IH]; [done|].
  unfold flat in *; simpl. by rewrite Hg, IH.
Qed.

Lemma flat_lookup (l : list (gen_pc T)) (k : nat) g :
  l !! k = Some g ->
  flat l = flat (take k l) ++ gen_rest g ++ flat (drop (S k) l).
Proof.
  intros H. rewrite <- (take_drop_middle l k g H) at 1.
  rewrite flat_app. unfold flat at 2. simpl. done.
Qed.

Lemma flat_insert (l : list (gen_pc T)) (k : nat) g g' :
  l !! k = Some g ->
  flat (<[k := g']> l) = flat (take k l) ++ gen_rest g' ++ flat (drop (S k) l).
Proof.
  intros H. rewrite insert_take_drop by (by eapply lookup_lt_Some).
  rewrite flat_app. unfold flat at 2. simpl. done.
Qed.

Lemma flat_insert_same (l : list (gen_pc T)) (k : nat) g g' :
  l !! k = Some g -> gen_rest g' = gen_rest g -> flat (<[k := g']> l) = flat l.
Proof.
  intros H E. by rewrite (flat_insert l k g g' H), (flat_lookup l k g H), E.
Qed.

Lemma drained_take_insert (l : list (gen_pc T)) (n k : nat) g' :
  Forall drained (take n l) -> ((k < n)%nat -> drained g') ->
  Forall drained (take n (<[k := g']> l)).
Proof.
  intros H Hg. destruct (decide (k < n)%nat) as [Hk|Hk].
  - rewrite take_insert_lt by done. apply Forall_insert; auto.
  - rewrite take_insert_ge by lia. done.
Qed.

Definition relay_at s (k : nat) : Prop :=
  match relay s with
  | RSelect r | RSend r _ => r = k
  | RExited => inners s !! k = Some GenExited
  | RNone => False
  end.

(** Where Bridge stands once the outer source has handed out [k] inner
    channels: those before the one it is draining hold nothing any more. *)
Definition phase (k : nat) s : Prop :=
  match bridge s with
  | BSelect => relay_exited (relay s) /\ Forall drained (take k (inners s))
  | BRange | BSend _ =>
      exists k', k = S k' /\ Forall drained (take k' (inners s)) /\ relay_at s k'
  | BExited =>
      outer s = GenExited /\ relay_exited (relay s) /\ Forall drained (inners s)
  end.

Definition bridge_held (b : bridge_pc T) : list T :=
  match b with BSend val => [val] | _ => [] end.

Definition relay_held (r : relay_pc T) : list T :=
  match r with RSend _ val => [val] | _ => [] end.

(** Values still on their way to the caller, oldest first. *)
Definition pending s : list T :=
  bridge_held (bridge s) ++ relay_held (relay s) ++ flat (inners s).

(** Kept by the program while the context is not cancelled and the caller
    keeps receiving. *)
Definition ninv (sources : list (list T)) s : Prop :=
  cancelled s = false /\
  cons s <> ConsGone /\
  (cons s = ConsDone -> bridge s = BExited) /\
  collected s ++ pending s = concat sources /\
  exists k,
    gen_rest (outer s) = seq k (length (inners s) - k) /\
    (k <= length (inners s))%nat /\
    phase k s.

Lemma seq_cons_inv (k a n : nat) (rest : list nat) :
  k :: rest = seq a n -> k = a /\ rest = seq (S a) (pred n) /\ (0 < n)%nat.
Proof. destruct n as [|n]; simpl; [done|]. intros [= -> ->]. auto with lia. Qed.

Lemma ninv_init (sources : list (list T)) : ninv sources (init sources).
Proof.
  unfold ninv, phase, pending, init; simpl.
  repeat split; try done.
  - unfold flat. rewrite map_map. simpl. by rewrite map_id.
  - exists O. rewrite length_map, Nat.sub_0_r. repeat split; try done. lia.
Qed.

Ltac break_hyps :=
  repeat match goal with
  | H : False |- _ => destruct H
  | H : _ /\ _ |- _ => destruct H
  | H : exists _, _ |- _ => destruct H
  end; simplify_eq/=.

Ltac flat_content Hp :=
  repeat match goal with
  | Hx : ?l !! ?k = Some ?g |- context [flat (<[?k := ?g']> ?l)] =>
      rewrite (flat_insert l k g g' Hx);
      rewrite (flat_lookup l k g Hx) in Hp
  end;
  repeat match goal with
  | Hf : Forall drained ?l |- _ =>
      rewrite ?(flat_drained l Hf); rewrite ?(flat_drained l Hf) in Hp;
      revert Hf
  end; intros;
  simpl in *; rewrite <- ?app_assoc; simpl; try done.

Lemma bridge_ninv_step (sources : list (list T)) (l : label) s s' :
  program l -> ninv sources s -> step l s = Some s' -> ninv sources s'.
Proof.
  intros Hl Hinv H.
  step_cases H; try done.
  all: destruct Hinv as (Hc & Hg & Hd & Hp & kh & Ho & Hk & Hph).
  all: unfold ninv, phase, pending, relay_at, relay_exited in *.
  all: simpl in *; rewrite ?length_insert.
  all: repeat case_match; simplify_eq/=.
  all: split; [done|]; split; [done|]; split; [intuition congruence|].
  all: break_hyps.
  all: split; [flat_content Hp|].
  all: try match goal with
       | Ho : _ :: _ = seq ?k _ |- _ =>
           apply seq_cons_inv in Ho as (-> & -> & ?);
           exists (S k); split; [f_equal; lia|split; [lia|by exists k]]
       end.
  all: match goal with Ho : _ = seq ?k _ |- _ => exists k end.
  all: split; [done|split; [done|]].
  all: repeat first
         [ done
         | split
         | eexists; split; [reflexivity|]
         | apply drained_take_insert; [|intros ?; first [done|lia]]
         | apply Forall_insert
         | erewrite take_S_r by eassumption; apply Forall_app
         | rewrite list_lookup_insert; case_decide
         | by repeat constructor
         | match goal with
           | Ho : [] = seq ?k (?n - ?k), Hf : Forall drained (take ?k ?l)
             |- Forall drained ?l =>
               rewrite take_ge in Hf
                 by (destruct (n - k)%nat eqn:?; [lia|discriminate])
           end ].
Qed.

Lemma bridge_ninv_exec (sources : list (list T)) (sched : list label) s :
  Forall program sched -> exec step sched (init sources) = Some s ->
  ninv sources s.
Proof.
  intros Hall Hex.
  exact (LTSFacts.exec_invariant step program (ninv sources)
           (bridge_ninv_step sources) sched _ _ Hall (ninv_init sources) Hex).
Qed.

Ltac stuck Hq l :=
  let Q := fresh "Q" in
  pose proof (Hq l I) as Q; simpl in Q;
  repeat match goal with
  | Hx : ?a !! ?i = _ |- _ =>
      match type of Q with context [a !! i] => rewrite Hx in Q; simpl in Q end
  end; done.

(** Without cancellation the program stops only after the caller has
    seen Bridge's output closed. *)
Lemma bridge_quiescent_done (sources : list (list T)) s :
  ninv sources s -> quiescent step program s ->
  cons s = ConsDone /\ all_exited s /\ collected s = concat sources.
Proof.
  intros (Hc & Hg & Hd & Hp & kh & Ho & Hk & Hph) Hq.
  unfold all_exited, phase, pending, relay_at, relay_exited in *.
  destruct s as [c o ins r b cn col]; simpl in *.
  destruct cn; [exfalso| |done].
  - destruct b as [| |val|].
    + destruct o as [[|k rest]|]; [stuck Hq OuterExit|stuck Hq OuterSend|].
      stuck Hq BridgeRecvClosed.
    + destruct Hph as (k' & -> & Hdr & Hr).
      destruct r as [|k|k v|]; [done| |stuck Hq RelaySend|stuck Hq BridgeRangeEnd].
      subst k. destruct (lookup_lt_is_Some_2 ins k') as [g Hg']; [lia|].
      destruct g as [[|v rest]|].
      * stuck Hq (InnerExit k').
      * stuck Hq InnerSend.
      * stuck Hq RelayRecvClosed.
    + stuck Hq BridgeSend.
    + stuck Hq ConsEnd.
  - specialize (Hd eq_refl). subst b. destruct Hph as (-> & Hr & Hdr).
    assert (Hex : Forall (fun g => g = GenExited) ins).
    { apply Forall_lookup_2. intros j g Hj.
      pose proof (Forall_lookup_1 _ _ _ _ Hdr Hj) as Hx.
      destruct g as [rest|]; [|done]. unfold drained in Hx. simpl in Hx. subst rest.
      stuck Hq (InnerExit j). }
    repeat split; try done.
    rewrite <- Hp. simpl. rewrite (flat_drained ins Hdr).
    destruct r; simpl; try done; by rewrite !app_nil_r.
Qed.

(** Once the context is cancelled nothing can be left blocked: when no
    goroutine can run, the outer and inner sources, the relay and Bridge
    have all returned. *)
Lemma bridge_cancelled_quiescent_exited s :
  sinv s -> cancelled s = true -> quiescent step program s ->
  all_exited s /\ cons s <> Consuming.
Proof.
  intros Hs Hc Hq. unfold all_exited, sinv, relay_exited in *.
  destruct s as [c o ins r b cn col]; simpl in *. subst c.
  assert (Ho : o = GenExited).
  { destruct o as [[|k rest]|]; [stuck Hq OuterExit|stuck Hq OuterCancel|done]. }
  subst o.
  assert (Hins : Forall (fun g => g = GenExited) ins).
  { apply Forall_lookup_2. intros j g Hj.
    destruct g as [[|v rest]|]; [stuck Hq (InnerExit j)|stuck Hq (InnerCancel j)|done]. }
  assert (Hr : match r with RNone | RExited => True | _ => False end).
  { destruct r; [done|stuck Hq RelayCancelRecv|stuck Hq RelayCancelSend|done]. }
  assert (Hb : b = BExited).
  { destruct b; [stuck Hq BridgeCancelOuter| |stuck Hq BridgeCancelInner|done].
    destruct r; try done. stuck Hq BridgeRangeEnd. }
  subst b. repeat split; try done.
  destruct cn; try done. stuck Hq ConsEnd.
Qed.

Lemma bridge_labels_program s (l : label) : l ∈ labels s -> program l.
Proof.
  unfold labels. rewrite elem_of_app, !elem_of_cons, elem_of_nil.
  intros [H|H].
  - destruct l; simpl; try exact I; intuition discriminate.
  - apply list_elem_of_In, in_flat_map in H as (i & _ & H).
    simpl in H. destruct l; simpl; try exact I; intuition discriminate.
Qed.

Lemma bridge_enabled_in_labels s s' (l : label) :
  program l -> step l s = Some s' -> l ∈ labels s.
Proof.
  intros Hl H. unfold labels.
  destruct l; simpl in Hl; try done;
    try (apply elem_of_app; left; rewrite !elem_of_cons; tauto).
  all: apply elem_of_app; right; apply list_elem_of_In, in_flat_map.
  all: exists k; split; [|simpl; tauto].
  all: apply in_seq; split; [lia|]; simpl.
  all: simpl in H; destruct (inners s !! k) eqn:E; [|done].
  all: by eapply lookup_lt_Some.
Qed.

Lemma bridge_run_quiescent s0 :
  quiescent step program (run step labels (measure s0) s0).
Proof.
  intros l Hl.
  destruct (step l _) as [s'|] eqn:E; [|done].
  pose proof (bridge_enabled_in_labels _ _ _ Hl E) as Hin.
  pose proof (LTSFacts.run_stops step program labels bridge_labels_program measure
                (fun l s s' _ => bridge_step_measure l s s') (measure s0) s0
                (le_n _)) as Hpick.
  rewrite (LTSFacts.pick_None step _ _ Hpick l Hin) in E. done.
Qed.

Lemma bridge_collect_spec (sources : list (list T)) : collect sources = concat sources.
Proof.
  unfold collect.
  destruct (LTSFacts.run_exec step program labels bridge_labels_program
              (measure (init sources)) (init sources)) as (sched & Hall & Hex).
  pose proof (bridge_ninv_exec sources sched _ Hall Hex) as Hinv.
  by destruct (bridge_quiescent_done sources _ Hinv (bridge_run_quiescent _)) as (_ & _ & ->).
Qed.

Lemma measure_init (sources : list (list T)) :
  measure (init sources) =
  (3 * length (concat sources) + 5 * length sources + 4)%nat.
Proof.
  unfold measure, init; simpl. rewrite length_seq.
  assert (sum_list_with inner_weight (map Generator sources)
          = (3 * length (concat sources) + length sources)%nat) as ->.
  { induction sources as [|a l IH]; simpl; [done|].
    rewrite IH, length_app. lia. }
  lia.
Qed.

End Bridge.

Example collect_flattens :
  collect [[1; 2]; []; [3]; [4; 5; 6]] = [1; 2; 3; 4; 5; 6].
Proof. reflexivity. Qed.

(** X8. Bridge over a finite outer source of finite inner sources, with
    the context never cancelled and the caller ranging over the output:
    every schedule is finite, what the caller has collected is always a
    prefix of the concatenation of the inner sequences in outer order,
    and when nothing can run any more the caller has seen the output
    closed, every goroutine (outer and inner sources, relay, Bridge) has
    returned, and the collected sequence is exactly that concatenation. *)
Theorem bridge_flattens_in_order
    {T : Type} (sources : list (list T)) (sched : list label) (s : state T) :
  Forall program sched ->
  exec step sched (init sources) = Some s ->
  (length sched <= 3 * length (concat sources) + 5 * length sources + 3)%nat /\
  collected s `prefix_of` concat sources /\
  (quiescent step program s ->
     cons s = ConsDone /\ all_exited s /\ collected s = concat sources) /\
  collect sources = concat sources.
Proof.
  intros Hall Hex.
  pose proof (bridge_ninv_exec sources sched s Hall Hex) as Hinv.
  pose proof (LTSFacts.exec_measure step (fun _ => True) measure
    (fun l s s' _ => bridge_step_measure l s s') sched _ _
    (Forall_true _ _ (fun _ => I)) Hex) as Hb.
  rewrite measure_init in Hb.
  split; [|split; [|split]].
  - destruct Hinv as (Hc & _). unfold measure in Hb. rewrite Hc in Hb. lia.
  - destruct Hinv as (_ & _ & _ & Hp & _). by eexists.
  - by apply bridge_quiescent_done.
  - apply bridge_collect_spec.
Qed.

Lemma bridge_flattens_in_order_witness :
  let sources := [[1; 2]; []; [3]] in
  let sched :=
    [InnerExit 1; OuterSend; InnerSend; RelaySend; InnerSend; BridgeSend;
     RelaySend; InnerExit 0; BridgeSend; RelayRecvClosed; BridgeRangeEnd;
     OuterSend; RelayRecvClosed; BridgeRangeEnd; OuterSend; OuterExit;
     InnerSend; RelaySend; BridgeSend; InnerExit 2; RelayRecvClosed;
     BridgeRangeEnd; BridgeRecvClosed; ConsEnd] in
  let s := Mk false GenExited [GenExited; GenExited; GenExited] RExited
              BExited ConsDone [1; 2; 3] in
  Forall program sched /\
  exec step sched (init sources) = Some s /\
  collected s `prefix_of` concat sources /\
  collect sources = [1; 2; 3].
Proof.
  intros sources sched s.
  assert (Hall : Forall program sched) by (repeat constructor).
  assert (Hex : exec step sched (init sources) = Some s) by reflexivity.
  destruct (bridge_flattens_in_order sources sched s Hall Hex)
    as (_ & Hpre & _ & Hcol).
  split; [exact Hall|split; [exact Hex|split; [exact Hpre|exact Hcol]]].
Defined.

(** X9. Bridge under cancellation: whatever the schedule (the context
    may be cancelled and the caller may stop receiving at any point), the
    run is finite, and once the context is cancelled a state in which no
    goroutine can run has the outer source, every inner source, the
    OrDone relay and Bridge all returned: no goroutine is left blocked. *)
Theorem bridge_cancel_releases_all
    {T : Type} (sources : list (list T)) (sched : list label) (s : state T) :
  exec step sched (init sources) = Some s ->
  (length sched <= 3 * length (concat sources) + 5 * length sources + 4)%nat /\
  (cancelled s = true -> quiescent step program s ->
     all_exited s /\ cons s <> Consuming).
Proof.
  intros Hex.
  pose proof (LTSFacts.exec_measure step (fun _ => True) measure
    (fun l s s' _ => bridge_step_measure l s s') sched _ _
    (Forall_true _ _ (fun _ => I)) Hex) as Hb.
  rewrite measure_init in Hb.
  split; [lia|].
  apply bridge_cancelled_quiescent_exited.
  by apply (bridge_sinv_exec sched (init sources)).
Qed.

Lemma bridge_cancel_releases_all_witness :
  let sources := [[1; 2]; [3]] in
  let sched :=
    [OuterSend; InnerSend; RelaySend; InnerSend; Leave; Cancel;
     RelayCancelSend; BridgeCancelInner; OuterCancel; InnerExit 0;
     InnerCancel 1] in
  let s := Mk true GenExited [GenExited; GenExited] RExited
              BExited ConsGone [] in
  exec step sched (init sources) = Some s /\
  (length sched <= 3 * length (concat sources) + 5 * length sources + 4)%nat /\
  all_exited s.
Proof.
  intros sources sched s.
  assert (Hex : exec step sched (init sources) = Some s) by reflexivity.
  destruct (bridge_cancel_releases_all sources sched s Hex) as (Hlen & _).
  split; [exact Hex|split; [exact Hlen|]].
  repeat split; repeat constructor.
Defined.

End BridgeFacts.

(** ** Token-bucket rate limiter *)

Module LimiterFacts.
Import LTS Limiter.

Lemma fill_spec (n : nat) (c : Chan.chan unit) :
  Chan.closed c = false -> (Chan.len c + n <= Chan.cap c)%nat ->
  exists c', fill n c = Some c' /\
    Chan.len c' = (Chan.len c + n)%nat /\ Chan.cap c' = Chan.cap c /\
    Chan.closed c' = false.
Proof.
  revert c; induction n as [|n IH]; intros c Hc Hn; simpl.
  - exists c. rewrite Nat.add_0_r. done.
  - unfold Chan.send. rewrite Hc. unfold Chan.full.
    rewrite bool_decide_eq_false_2 by lia.
    destruct (IH (Chan.Mk (Chan.buf c ++ [tt]) (Chan.cap c) (Chan.closed c)))
      as (c' & Hf & Hl & Hcap & Hcl); simpl; [done| |].
    + unfold Chan.len in *; simpl. rewrite length_app; simpl. lia.
    + exists c'. unfold Chan.len in *; simpl in *.
      rewrite length_app in Hl; simpl in Hl.
      rewrite Hc in Hf.
      split; [exact Hf|]. split; [lia|]. split; [exact Hcap|exact Hcl].
Qed.

(** What every reachable limiter satisfies. *)
Definition inv (rl : RateLimiter) : Prop :=
  Chan.closed (tokens rl) = false /\
  (count rl <= Chan.cap (tokens rl))%nat /\
  ((0 < waiters rl)%nat -> count rl = O) /\
  (refill_running rl = false -> stop_closed rl = true).

Lemma new_spec (capacity : Z) (rl : RateLimiter) :
  NewRateLimiter capacity = Some rl ->
  0 <= capacity /\ count rl = Z.to_nat capacity /\
  Chan.cap (tokens rl) = Z.to_nat capacity /\
  stop_closed rl = false /\ refill_running rl = true /\ waiters rl = O /\
  inv rl.
Proof.
  unfold NewRateLimiter. case_match eqn:E; [done|]. apply Z.ltb_ge in E.
  destruct (fill_spec (Z.to_nat capacity) (Chan.make (Z.to_nat capacity)))
    as (c & Hf & Hl & Hcap & Hcl); [done|simpl; lia|].
  rewrite Hf. simpl. intros [= <-]. unfold inv, count; simpl in *.
  repeat split; try done; try lia.
Qed.




Lemma limiter_inv_step (l : label) (rl rl' : RateLimiter) :
  inv rl -> step l rl = Some rl' ->
  inv rl' /\ Chan.cap (tokens rl') = Chan.cap (tokens rl).
Proof.
  intros (Hcl & Hle & Hw & Hr) H. unfold inv, count, Chan.len in *.
  destruct rl as [[b cap cl] sc rr w]; simpl in *. subst cl.
  destruct l; simpl in H; unfold Allow, Chan.recv, Chan.try_send, Chan.send,
    Chan.full, Chan.len in H; simpl in H;
    repeat (case_match; simplify_eq/=); simplify_eq/=;
    repeat split; simpl in *; rewrite ?length_app; simpl;
    try done; try lia; try (intros; lia); try (intros; congruence).
  all: try (intros; specialize (Hw ltac:(lia)); simpl in Hw; lia).
  all: repeat match goal with
       | Hb : bool_decide _ = false |- _ => apply bool_decide_eq_false_1 in Hb
       end; lia.
Qed.

Lemma limiter_inv_exec (sched : list label) (rl rl' : RateLimiter) :
  inv rl -> exec step sched rl = Some rl' ->
  inv rl' /\ Chan.cap (tokens rl') = Chan.cap (tokens rl).
Proof.
  revert rl; induction sched as [|l sched IH]; intros rl Hi Hex; simpl in Hex.
  - by simplify_eq.
  - destruct (step l rl) as [rl1|] eqn:E; [|done].
    destruct (limiter_inv_step l rl rl1 Hi E) as [Hi1 Hc1].
    destruct (IH rl1 Hi1 Hex) as [Hi' Hc']. split; [done|congruence].
Qed.






Lemma stopped_step (l : label) (rl rl' : RateLimiter) :
  inv rl -> refill_running rl = false -> step l rl = Some rl' ->
  refill_running rl' = false /\
  (count rl' <= count rl)%nat /\
  (waiters rl <= waiters rl')%nat /\
  (waiters rl' = waiters rl \/ count rl = O).
Proof.
  intros (Hcl & Hle & Hw & Hr) Hrun H. unfold count, Chan.len in *.
  destruct rl as [[b cap cl] sc rr w]; simpl in *. subst cl rr.
  destruct l; simpl in H; unfold Allow, Chan.recv in H; simpl in H;
    repeat (case_match; simplify_eq/=); simplify_eq/=;
    repeat split; simpl; try done; try lia; auto.
Qed.

(** X13. Once [Close] has been called and the refill goroutine has
    returned, no token is ever added again: whatever calls follow, the
    token count never grows, and a caller parked in [Wait] is never
    released ([Wait] is a bare [<-rl.tokens], with no case for [stop]),
    so a [Wait] on the empty bucket of a closed limiter blocks for
    ever. *)
Theorem limiter_close_stops_refill
    (capacity : Z) (rl0 : RateLimiter) (before after : list label)
    (rl rl' : RateLimiter) :
  NewRateLimiter capacity = Some rl0 ->
  exec step before rl0 = Some rl ->
  refill_running rl = false ->
  exec step after rl = Some rl' ->
  stop_closed rl' = true /\ refill_running rl' = false /\
  (count rl' <= count rl)%nat /\
  (waiters rl <= waiters rl')%nat /\
  step Tick rl' = None.
Proof.
  intros Hnew Hb Hrun Ha.
  destruct (new_spec capacity rl0 Hnew) as (_ & _ & _ & _ & _ & _ & Hi0).
  destruct (limiter_inv_exec before rl0 rl Hi0 Hb) as [Hi _].
  assert (Hall : refill_running rl' = false /\ (count rl' <= count rl)%nat /\
                 (waiters rl <= waiters rl')%nat /\ inv rl').
  { clear Hb Hnew Hi0. revert rl Hi Hrun Ha.
    induction after as [|l after IH]; intros rl Hi Hrun Ha; simpl in Ha.
    - simplify_eq. split; [done|split; [lia|split; [lia|done]]].
    - destruct (step l rl) as [rl1|] eqn:E; [|done].
      destruct (stopped_step l rl rl1 Hi Hrun E) as (Hr1 & Hc1 & Hw1 & _).
      destruct (limiter_inv_step l rl rl1 Hi E) as [Hi1 _].
      destruct (IH rl1 Hi1 Hr1 Ha) as (? & ? & ? & ?).
      split; [done|split; [lia|split; [lia|done]]]. }
  destruct Hall as (Hr' & Hc' & Hw' & (_ & _ & _ & Hsc)).
  repeat split; try done; [by apply Hsc|].
  simpl. by rewrite Hr'.
Qed.

Lemma limiter_close_stops_refill_witness :
  let rl0 := Mk (Chan.Mk [tt] 1 false) false true 0 in
  let before := [CallAllow; CallClose; RefillExit; CallWait] in
  let rl := Mk (Chan.Mk [] 1 false) true false 1 in
  let after := [CallAllow; CallWait; CallAllow] in
  let rl' := Mk (Chan.Mk [] 1 false) true false 2 in
  NewRateLimiter 1 = Some rl0 /\
  exec step before rl0 = Some rl /\
  refill_running rl = false /\
  exec step after rl = Some rl' /\
  (waiters rl <= waiters rl')%nat /\ step Tick rl' = None.
Proof.
  intros rl0 before rl after rl'.
  assert (Hnew : NewRateLimiter 1 = Some rl0) by reflexivity.
  assert (Hb : exec step before rl0 = Some rl) by reflexivity.
  assert (Hrun : refill_running rl = false) by reflexivity.
  assert (Ha : exec step after rl = Some rl') by reflexivity.
  destruct (limiter_close_stops_refill 1 rl0 before after rl rl' Hnew Hb Hrun Ha)
    as (_ & _ & _ & Hw & Ht).
  split; [exact Hnew|split; [exact Hb|split; [exact Hrun|split; [exact Ha|]]]].
  split; [exact Hw|exact Ht].
Defined.




End LimiterFacts.

(** ** Worker pool *)

Module PoolFacts.
Import LTS Pool SliceFacts.

Ltac step_cases Hstep :=
  match type of Hstep with
  | step ?l ?s = Some ?s' =>
      destruct s as [W q n ws c fin]; destruct l;
      unfold step, set_caller in Hstep;
      cbn [workers jobs wg pcs caller finished] in Hstep;
      unfold Chan.send, Chan.recv, Chan.close, Chan.full, Chan.len in Hstep;
      destruct q as [b cp cl]; cbn [Chan.buf Chan.cap Chan.closed] in Hstep;
      repeat (case_match; simplify_eq/=); simplify_eq/=
  end.

Ltac sum_insert :=
  repeat match goal with
  | Hl : ?l !! ?i = Some ?x |- context [sum_list_with ?g (<[?i := ?y]> ?l)] =>
      let E := fresh "E" in
      pose proof (sum_list_with_insert g l i x y Hl) as E;
      simpl in E;
      generalize dependent (sum_list_with g (<[i := y]> l)); intros
  end.

Lemma pool_step_measure (l : label) (s s' : state) :
  step l s = Some s' -> (measure s' < measure s)%nat.
Proof.
  intros H. step_cases H; unfold measure, Chan.len; simpl;
    rewrite ?length_app; simpl; sum_insert; lia.
Qed.

Definition alive (w : worker_pc) : nat :=
  match w with WExited => 0 | _ => 1 end.

Definition running (w : worker_pc) : option job :=
  match w with WRunning j => Some j | _ => None end.

Definition todo (c : caller_pc) : list job :=
  match c with CRun script | CWait script => submitted script | CPanicked => [] end.

(** Kept by every step of every script. *)
Definition ginv (s : state) : Prop :=
  length (pcs s) = Z.to_nat (workers s) /\
  wg s = sum_list_with alive (pcs s) /\
  Chan.cap (jobs s) = 100%nat /\
  (Chan.len (jobs s) <= 100)%nat /\
  (Chan.closed (jobs s) = false -> Forall (fun w => w <> WExited) (pcs s)) /\
  ((exists i, pcs s !! i = Some WExited) -> Chan.buf (jobs s) = []).

Lemma ginv_init (workers : Z) (script : list op) :
  ginv (NewWorkerPool workers script).
Proof.
  unfold ginv, NewWorkerPool, Chan.len; simpl.
  rewrite length_replicate, FanFacts.sum_list_with_replicate. simpl.
  split; [done|]. split; [lia|]. split; [done|]. split; [lia|]. split.
  - intros _. by apply Forall_replicate.
  - intros [i Hi]. apply lookup_replicate_1 in Hi as [? _]. done.
Qed.

Lemma ginv_step (l : label) (s s' : state) :
  ginv s -> step l s = Some s' -> ginv s'.
Proof.
  intros (Hlen & Hwg & Hcap & Hle & Hop & Hex) H. unfold ginv, Chan.len in *.
  step_cases H; simpl in *; rewrite ?length_insert, ?length_app in *;
    simpl in *; sum_insert.
  all: split; [done|]. all: split; [lia|]. all: split; [done|].
  all: split; [try lia|].
  all: try (apply bool_decide_eq_false_1 in H; lia).
  all: split.
  all: try done.
  all: try (intros ?; apply Forall_insert; [auto|done]).
  all: try (intros [i0 Hi0]; apply Hex; exists i0;
            rewrite list_lookup_insert in Hi0; case_decide; destruct_and?;
            simplify_eq/=; done).
  all: try (intros [i0 Hi0]; specialize (Hop eq_refl);
            pose proof (Forall_lookup_1 _ _ _ _ Hop Hi0); done).
  all: intros [i0 Hi0]; rewrite list_lookup_insert in Hi0; case_decide;
       destruct_and?; simplify_eq/=;
       discriminate (Hex (ex_intro _ i0 Hi0)).
Qed.

Lemma ginv_exec (sched : list label) (s0 s : state) :
  ginv s0 -> exec step sched s0 = Some s -> ginv s.
Proof.
  intros Hs Hex.
  apply (LTSFacts.exec_invariant step (fun _ => True) ginv)
    with (sched := sched) (s := s0); [|by apply Forall_true|done..].
  intros l s1 s2 _. apply ginv_step.
Qed.

Lemma exec_pcs_length (sched : list label) (s0 s : state) :
  exec step sched s0 = Some s -> length (pcs s) = length (pcs s0).
Proof.
  revert s0; induction sched as [|l sched IH]; intros s0 Hex; simpl in Hex.
  - by simplify_eq.
  - destruct (step l s0) as [s1|] eqn:E; [|done].
    rewrite (IH _ Hex). clear -E.
    step_cases E; simpl; by rewrite ?length_insert.
Qed.

Definition inflight (s : state) : list job :=
  finished s ++ omap running (pcs s) ++ Chan.buf (jobs s).

(** Jobs are neither lost nor duplicated nor invented. *)
Definition sub_inv (js : list job) (s : state) : Prop :=
  inflight s ++ todo (caller s) ⊆+ js.

Ltac perm_insert :=
  repeat match goal with
  | Hl : ?l !! ?i = Some ?x |- context [omap ?g (<[?i := ?y]> ?l)] =>
      let E := fresh "E" in
      pose proof (omap_insert_perm g l i x y Hl) as E;
      simpl in E; rewrite ?app_nil_r in E;
      generalize dependent (omap g (<[i := y]> l)); intros ? E;
      first [rewrite E | rewrite <- E]; clear E
  end.

Lemma sub_inv_step (js : list job) (l : label) (s s' : state) :
  sub_inv js s -> step l s = Some s' -> sub_inv js s'.
Proof.
  intros Hp H. unfold sub_inv, inflight in *.
  step_cases H; simpl in *.
  all: etrans; [|exact Hp]; clear Hp.
  all: perm_insert; simpl; solve_submseteq.
Qed.

Lemma omap_running_length (ws : list worker_pc) :
  (length (omap running ws) <= length ws)%nat.
Proof.
  induction ws as [|w ws IH]; [done|].
  change (omap running (w :: ws))
    with (match running w with
          | Some y => y :: omap running ws
          | None => omap running ws
          end).
  destruct (running w); simpl; lia.
Qed.

(** X19. Whatever the script of [Submit] and [Close] calls and whatever
    the schedule: the queue never holds more than 100 jobs, at most
    [workers] jobs are running at any moment, and the jobs finished,
    running or queued are a sub-multiset of those the script submits, so
    no job runs more often than it was submitted and none runs that was
    not. *)
Theorem pool_bounded_and_conservative
    (workers : Z) (script : list op) (sched : list label) (s : state) :
  exec step sched (NewWorkerPool workers script) = Some s ->
  (Chan.len (jobs s) <= 100)%nat /\
  (length (omap running (pcs s)) <= Z.to_nat workers)%nat /\
  finished s ++ omap running (pcs s) ++ Chan.buf (jobs s) ⊆+ submitted script.
Proof.
  intros Hex.
  pose proof (ginv_exec sched _ s (ginv_init workers script) Hex)
    as (_ & _ & _ & Hle & _).
  pose proof (exec_pcs_length sched _ s Hex) as Hlen.
  simpl in Hlen. rewrite length_replicate in Hlen.
  split; [done|]. split.
  - rewrite <- Hlen. apply omap_running_length.
  - assert (Hs : sub_inv (submitted script) s).
    { apply (LTSFacts.exec_invariant step (fun _ => True)
               (sub_inv (submitted script)))
        with (sched := sched) (s := NewWorkerPool workers script);
        [|by apply Forall_true| |done].
      - intros l s1 s2 _. apply sub_inv_step.
      - unfold sub_inv, inflight; simpl.
        by rewrite (omap_nil_Forall running), app_nil_l
          by (apply Forall_replicate; done). }
    unfold sub_inv, inflight in Hs. etrans; [|exact Hs].
    rewrite <- !app_assoc. rewrite !app_assoc. by apply submseteq_inserts_r.
Qed.

Lemma pool_bounded_and_conservative_witness :
  let script := [OpSubmit 1; OpSubmit 2; OpSubmit 3; OpClose]%nat in
  let sched := [Submit; Submit; Take 1; Take 0; Submit; Finish 0] in
  let s := Mk 2 (Chan.Mk [3%nat] 100 false) 2 [WRange; WRunning 1%nat]
              (CRun [OpClose]) [2%nat] in
  exec step sched (NewWorkerPool 2 script) = Some s /\
  (Chan.len (jobs s) <= 100)%nat /\
  (length (omap running (pcs s)) <= Z.to_nat 2)%nat.
Proof.
  intros script sched s.
  assert (Hex : exec step sched (NewWorkerPool 2 script) = Some s) by reflexivity.
  destruct (pool_bounded_and_conservative 2 script sched s Hex) as (H1 & H2 & _).
  split; [exact Hex|split; [exact H1|exact H2]].
Defined.

(** The caller's progress through a script [Submit js...; Close; tail],
    with the jobs accounted for at each stage. *)
Definition pinv (js : list job) (tail : list op) (s : state) : Prop :=
  match caller s with
  | CRun script =>
      (exists rest,
         script = map OpSubmit rest ++ OpClose :: tail /\
         Chan.closed (jobs s) = false /\
         inflight s ++ rest ≡ₚ js) \/
      (script = tail /\ Chan.closed (jobs s) = true /\ wg s = O /\
       inflight s ≡ₚ js)
  | CWait script =>
      script = tail /\ Chan.closed (jobs s) = true /\ inflight s ≡ₚ js
  | CPanicked =>
      tail <> [] /\ Chan.closed (jobs s) = true /\ wg s = O /\
      inflight s ≡ₚ js
  end.

Ltac break_pinv :=
  repeat match goal with
  | H : _ \/ _ |- _ => destruct H
  | H : _ /\ _ |- _ => destruct H
  | H : exists _, _ |- _ => destruct H
  | H : _ :: _ = map OpSubmit ?r ++ _ |- _ => destruct r; simplify_eq/=
  | H : [] = map OpSubmit ?r ++ _ |- _ => destruct r; simplify_eq/=
  end; simplify_eq/=.

Lemma pinv_step (js : list job) (tail : list op) (l : label) (s s' : state) :
  pinv js tail s -> step l s = Some s' -> pinv js tail s'.
Proof.
  intros Hp H. unfold pinv, inflight in *.
  step_cases H; simpl in *; break_pinv.
  all: try match goal with
       | |- _ \/ _ =>
           first
             [ left; eexists; split; [reflexivity|split; [done|]]
             | right; split; [done|split; [done|split; [done|]]] ]
       | |- _ /\ _ => repeat (split; [done|])
       end.
  all: try match goal with
       | Hp : _ ≡ₚ ?j |- _ ≡ₚ ?j => rewrite <- Hp; clear Hp
       end.
  all: perm_insert; simpl; solve_Permutation.
Qed.

Lemma pinv_init (workers : Z) (js : list job) (tail : list op) :
  pinv js tail (NewWorkerPool workers (map OpSubmit js ++ OpClose :: tail)).
Proof.
  unfold pinv, inflight; simpl. left. exists js.
  split; [done|]. split; [done|].
  by rewrite (omap_nil_Forall running) by (apply Forall_replicate; done).
Qed.

Lemma alive_zero (w : worker_pc) : alive w = O -> w = WExited.
Proof. by destruct w. Qed.

Ltac stuck Hq l :=
  let Q := fresh "Q" in
  pose proof (Hq l) as Q; unfold step, set_caller in Q; simpl in Q;
  unfold Chan.send, Chan.recv, Chan.close, Chan.full, Chan.len in Q;
  simpl in Q;
  repeat match goal with
  | Hx : ?a !! ?i = _ |- _ =>
      match type of Q with context [a !! i] => rewrite Hx in Q; simpl in Q end
  end;
  repeat (case_match; simplify_eq/=); try done;
  repeat match goal with
  | Hb : bool_decide _ = true |- _ => apply bool_decide_eq_true_1 in Hb
  end; simpl in *; try lia.

(** With at least one worker the script runs to its end: the program
    stops only when the caller is past [Close] (done, or stopped by the
    panic of a call after [Close]), with every job finished and every
    worker returned. *)
Lemma pool_quiescent_done (js : list job) (tail : list op) (s : state) :
  ginv s -> pinv js tail s -> (0 < length (pcs s))%nat ->
  (forall l, step l s = None) ->
  (caller s = CRun [] /\ tail = [] \/ caller s = CPanicked /\ tail <> []) /\
  Forall (fun w => w = WExited) (pcs s) /\
  Chan.closed (jobs s) = true /\ Chan.buf (jobs s) = [] /\
  finished s ≡ₚ js.
Proof.
  intros (Hlen & Hwg & Hcap & Hle & Hop & Hex) Hp Hn Hq.
  unfold pinv, inflight in *.
  destruct s as [W [b cp cl] n ws c fin]; simpl in *. subst cp.
  destruct (lookup_lt_is_Some_2 ws O Hn) as [w0 Hw0].
  assert (Hdone : cl = true /\ n = O /\ fin ++ omap running ws ++ b ≡ₚ js /\
                  (c = CRun [] /\ tail = [] \/ c = CPanicked /\ tail <> [])).
  { destruct c as [script|script|].
    - destruct Hp as [(rest & -> & -> & Hperm)|(-> & -> & -> & Hperm)].
      + exfalso. specialize (Hop eq_refl).
        pose proof (Forall_lookup_1 _ _ _ _ Hop Hw0) as Hne.
        destruct rest as [|j rest]; simpl in *; [stuck Hq CloseJobs|].
        destruct (decide (length b < 100)%nat) as [Hb|Hb].
        * stuck Hq Submit.
        * destruct b as [|v b]; [simpl in Hb; lia|].
          destruct w0; [stuck Hq (Take O)|stuck Hq (Finish O)|done].
      + destruct tail as [|[j|] tail].
        * repeat split; try done. by left.
        * exfalso. stuck Hq Submit.
        * exfalso. stuck Hq CloseJobs.
    - exfalso. destruct Hp as (-> & -> & Hperm).
      destruct n as [|n]; [stuck Hq WgWait|].
      destruct (sum_list_with_pos alive ws) as (i & w & Hi & Hpos); [lia|].
      destruct w; simpl in Hpos; [| |lia].
      + destruct b as [|v b]; [stuck Hq (Exit i)|stuck Hq (Take i)].
      + stuck Hq (Finish i).
    - destruct Hp as (Ht & -> & -> & Hperm). repeat split; try done. by right. }
  destruct Hdone as (-> & -> & Hperm & Hc).
  assert (Hall : Forall (fun w => w = WExited) ws).
  { symmetry in Hwg. apply sum_list_with_zero in Hwg.
    eapply List.Forall_impl; [|exact Hwg]. apply alive_zero. }
  assert (Hb : b = []).
  { apply Hex. exists O. by rewrite (Forall_lookup_1 _ _ _ _ Hall Hw0) in Hw0. }
  subst b. split; [done|]. split; [done|]. split; [done|]. split; [done|].
  rewrite <- Hperm.
  rewrite (omap_nil_Forall running ws); [by rewrite !app_nil_r|].
  eapply List.Forall_impl; [|exact Hall]. by intros ? ->.
Qed.

Lemma pool_exec (workers : Z) (js : list job) (tail : list op)
    (sched : list label) (s : state) :
  exec step sched (NewWorkerPool workers (map OpSubmit js ++ OpClose :: tail))
    = Some s ->
  ginv s /\ pinv js tail s /\ length (pcs s) = Z.to_nat workers /\
  (length sched + measure s <=
     3 * length js + 2 + sum_list_with op_weight tail + Z.to_nat workers)%nat.
Proof.
  intros Hex.
  split; [by apply (ginv_exec sched _ s (ginv_init _ _) Hex)|].
  split.
  { apply (LTSFacts.exec_invariant step (fun _ => True) (pinv js tail))
      with (sched := sched) (s := NewWorkerPool workers
                                    (map OpSubmit js ++ OpClose :: tail));
      [|by apply Forall_true|apply pinv_init|done].
    intros l s1 s2 _. apply pinv_step. }
  split.
  { rewrite (exec_pcs_length sched _ s Hex). simpl. by rewrite length_replicate. }
  pose proof (LTSFacts.exec_measure step (fun _ => True) measure
    (fun l s s' _ => pool_step_measure l s s') sched _ _
    (Forall_true _ _ (fun _ => I)) Hex) as Hb.
  unfold measure at 2 in Hb. simpl in Hb.
  rewrite sum_list_with_app, FanFacts.sum_list_with_replicate in Hb. simpl in Hb.
  assert (sum_list_with op_weight (map OpSubmit js) = (3 * length js)%nat) as E.
  { clear. induction js as [|j js IH]; simpl; [done|]. rewrite IH. lia. }
  rewrite E in Hb. unfold Chan.len in Hb. simpl in Hb. lia.
Qed.

Lemma labels_complete (s s' : state) (l : label) :
  step l s = Some s' -> l ∈ labels s.
Proof.
  intros H. unfold labels.
  destruct l; try (apply elem_of_app; left; rewrite !elem_of_cons; tauto).
  all: apply elem_of_app; right; apply list_elem_of_In, in_flat_map.
  all: exists i; split; [|simpl; tauto].
  all: apply in_seq; split; [lia|]; simpl.
  all: unfold step in H; destruct (caller s); try done.
  all: destruct (pcs s !! i) eqn:E; [|done].
  all: by eapply lookup_lt_Some.
Qed.

Lemma pool_run_quiescent (s0 : state) (l : label) :
  step l (run step labels (measure s0) s0) = None.
Proof.
  destruct (step l _) as [s'|] eqn:E; [|done].
  pose proof (labels_complete _ _ _ E) as Hin.
  pose proof (LTSFacts.run_stops step (fun _ => True) labels
                (fun _ _ _ => I) measure
                (fun l s s' _ => pool_step_measure l s s') (measure s0) s0
                (le_n _)) as Hpick.
  rewrite (LTSFacts.pick_None step _ _ Hpick l Hin) in E. done.
Qed.

Example run_script_5_jobs_3_workers :
  finished (run_script 3 (map OpSubmit [1; 2; 3; 4; 5]%nat ++ [OpClose]))
  = [1; 2; 3; 4; 5]%nat.
Proof. reflexivity. Qed.

(** X16. With at least one worker, a caller that submits the jobs [js]
    and then calls [Close]: every schedule is finite and none panics;
    whenever [Close] has returned, every worker has returned and the
    finished calls are a permutation of [js] (each submitted job has run
    exactly once); and the program stops only there. *)
Theorem pool_runs_every_job_once
    (workers : Z) (js : list job) (sched : list label) (s : state) :
  1 <= workers ->
  exec step sched (NewWorkerPool workers (map OpSubmit js ++ [OpClose])) = Some s ->
  (length sched <= 3 * length js + Z.to_nat workers + 2)%nat /\
  caller s <> CPanicked /\
  (caller s = CRun [] ->
     Forall (fun w => w = WExited) (pcs s) /\ finished s ≡ₚ js) /\
  ((forall l, step l s = None) -> caller s = CRun []) /\
  finished (run_script workers (map OpSubmit js ++ [OpClose])) ≡ₚ js.
Proof.
  intros Hw Hex.
  destruct (pool_exec workers js [] sched s Hex) as (Hg & Hp & Hlen & Hb).
  split; [simpl in Hb; lia|]. split.
  { intros Hc. unfold pinv in Hp. rewrite Hc in Hp. by destruct Hp. }
  split.
  { intros Hc. destruct Hg as (_ & Hwg & _ & _ & _ & Hex').
    unfold pinv, inflight in Hp. rewrite Hc in Hp.
    destruct Hp as [(rest & Hr & _)|(_ & _ & Hz & Hperm)].
    { by destruct rest. }
    rewrite Hz in Hwg. symmetry in Hwg. apply sum_list_with_zero in Hwg.
    assert (Hall : Forall (fun w => w = WExited) (pcs s)).
    { eapply List.Forall_impl; [|exact Hwg]. apply alive_zero. }
    split; [done|]. rewrite <- Hperm.
    destruct (lookup_lt_is_Some_2 (pcs s) O) as [w0 Hw0]; [lia|].
    rewrite Hex'.
    - rewrite (omap_nil_Forall running (pcs s)); [by rewrite !app_nil_r|].
      eapply List.Forall_impl; [|exact Hall]. by intros ? ->.
    - exists O. by rewrite (Forall_lookup_1 _ _ _ _ Hall Hw0) in Hw0. }
  split.
  { intros Hq.
    destruct (pool_quiescent_done js [] s Hg Hp) as ([[Hc _]|[_ Ht]] & _); try done.
    lia. }
  unfold run_script.
  set (s0 := NewWorkerPool workers (map OpSubmit js ++ [OpClose])).
  destruct (LTSFacts.run_exec step (fun _ => True) labels (fun _ _ _ => I)
              (measure s0) s0) as (sched' & _ & Hex').
  destruct (pool_exec workers js [] sched' _ Hex') as (Hg' & Hp' & Hlen' & _).
  destruct (pool_quiescent_done js [] _ Hg' Hp') as (_ & _ & _ & _ & Hfin);
    [lia|apply pool_run_quiescent|done].
Qed.

Lemma pool_runs_every_job_once_witness :
  let js := [1; 2; 3]%nat in
  let sched := [Submit; Submit; Take 1; Take 0; Submit; Finish 0; CloseJobs;
                Take 0; Finish 1; Exit 1; Finish 0; Exit 0; WgWait] in
  let s := Mk 2 (Chan.Mk [] 100 true) 0 [WExited; WExited] (CRun [])
              [2; 1; 3]%nat in
  1 <= 2 /\
  exec step sched (NewWorkerPool 2 (map OpSubmit js ++ [OpClose])) = Some s /\
  caller s <> CPanicked /\
  finished (run_script 2 (map OpSubmit js ++ [OpClose])) ≡ₚ js.
Proof.
  intros js sched s.
  assert (Hw : 1 <= 2) by lia.
  assert (Hex : exec step sched (NewWorkerPool 2 (map OpSubmit js ++ [OpClose]))
                = Some s) by reflexivity.
  destruct (pool_runs_every_job_once 2 js sched s Hw Hex) as (_ & Hc & _ & _ & Hr).
  split; [exact Hw|split; [exact Hex|split; [exact Hc|exact Hr]]].
Defined.

(** X18. A call after [Close] is fatal: with at least one worker, when
    the caller's script goes on after [Close] with another [Submit] (a
    send on the closed queue) or another [Close] (a close of the closed
    queue), every complete run ends in that call's panic, after all the
    jobs submitted before [Close] have finished. *)
Theorem pool_call_after_close_panics
    (workers : Z) (js : list job) (next : op) (rest : list op)
    (sched : list label) (s : state) :
  1 <= workers ->
  exec step sched
    (NewWorkerPool workers (map OpSubmit js ++ OpClose :: next :: rest)) = Some s ->
  (forall l, step l s = None) ->
  caller s = CPanicked /\ finished s ≡ₚ js /\
  Forall (fun w => w = WExited) (pcs s).
Proof.
  intros Hw Hex Hq.
  destruct (pool_exec workers js (next :: rest) sched s Hex) as (Hg & Hp & Hlen & _).
  destruct (pool_quiescent_done js (next :: rest) s Hg Hp)
    as ([[_ Ht]|[Hc _]] & Hall & _ & _ & Hfin); try done.
  lia.
Qed.

Lemma pool_call_after_close_panics_witness :
  let js := [1]%nat in
  let sched := [Submit; Take 0; CloseJobs; Finish 0; Exit 0; WgWait; Submit] in
  let s := Mk 1 (Chan.Mk [] 100 true) 0 [WExited] CPanicked [1%nat] in
  1 <= 1 /\
  exec step sched
    (NewWorkerPool 1 (map OpSubmit js ++ OpClose :: OpSubmit 2%nat :: [])) = Some s /\
  (forall l, step l s = None) /\
  caller s = CPanicked.
Proof.
  intros js sched s.
  assert (Hw : 1 <= 1) by lia.
  assert (Hex : exec step sched
    (NewWorkerPool 1 (map OpSubmit js ++ OpClose :: OpSubmit 2%nat :: [])) = Some s)
    by reflexivity.
  assert (Hq : forall l, step l s = None) by (intros l; reflexivity).
  destruct (pool_call_after_close_panics 1 js (OpSubmit 2%nat) [] sched s Hw Hex Hq)
    as (Hc & _).
  split; [exact Hw|split; [exact Hex|split; [exact Hq|exact Hc]]].
Defined.

(** A pool without workers: jobs only pile up in the queue. *)
Definition zinv (js : list job) (s : state) : Prop :=
  pcs s = [] /\ finished s = [] /\ wg s = O /\ Chan.cap (jobs s) = 100%nat /\
  match caller s with
  | CRun script =>
      (exists k,
         Chan.buf (jobs s) = take k js /\ (k <= length js)%nat /\
         (k <= 100)%nat /\
         script = map OpSubmit (drop k js) ++ [OpClose] /\
         Chan.closed (jobs s) = false) \/
      (script = [] /\ Chan.buf (jobs s) = js /\ (length js <= 100)%nat /\
       Chan.closed (jobs s) = true)
  | CWait script =>
      script = [] /\ Chan.buf (jobs s) = js /\ (length js <= 100)%nat /\
      Chan.closed (jobs s) = true
  | CPanicked => False
  end.

Lemma drop_cons_inv {A} (l : list A) (k : nat) (x : A) (r : list A) :
  drop k l = x :: r ->
  take (S k) l = take k l ++ [x] /\ drop (S k) l = r /\ (S k <= length l)%nat.
Proof.
  intros H.
  assert (Hx : l !! k = Some x).
  { rewrite <- (Nat.add_0_r k), <- lookup_drop, H. done. }
  split; [by apply take_S_r|]. split.
  - rewrite (drop_S l x k Hx) in H. by simplify_eq.
  - by apply lookup_lt_Some in Hx.
Qed.

Lemma pool_zinv_step (js : list job) (l : label) (s s' : state) :
  zinv js s -> step l s = Some s' -> zinv js s'.
Proof.
  intros (Hp & Hf & Hw & Hcap & Hc) H. unfold zinv in *.
  destruct s as [W [b cp cl] n ws c fin]; simpl in *. subst ws fin n cp.
  destruct l; unfold step, set_caller in H; simpl in H;
    unfold Chan.send, Chan.recv, Chan.close, Chan.full, Chan.len in H;
    simpl in H; repeat (case_match; simplify_eq/=); simplify_eq/=.
  all: repeat match goal with
       | H : _ \/ _ |- _ => destruct H
       | H : _ /\ _ |- _ => destruct H
       | H : exists _, _ |- _ => destruct H
       end; simplify_eq/=.
  all: repeat (split; [done|]).
  - destruct (drop x js) as [|j' r] eqn:E; simplify_eq/=.
    destruct (drop_cons_inv js x j' r E) as (Ht & Hd & Hl).
    match goal with
    | Hb : bool_decide _ = false |- _ =>
        apply bool_decide_eq_false_1 in Hb; rewrite length_take in Hb
    end.
    left. exists (S x). rewrite Ht, Hd. repeat split; try done. lia.
  - destruct (drop x js) as [|j' r] eqn:E; simplify_eq/=.
    apply drop_nil_inv in E.
    assert (x = length js) as -> by lia.
    rewrite take_ge by lia. done.
  - right. done.
Qed.

(** X17. [NewWorkerPool] with [workers <= 0] starts no goroutine
    ([start]'s loop does not run), so no job ever runs.  A caller that
    submits [js] and calls [Close] then stops in one of two ways: with at
    most 100 jobs, [Close] returns at once ([wg] is zero) and leaves
    every job in the closed queue, never run; with more than 100, the
    101st [Submit] blocks for ever on the full queue. *)
Theorem pool_without_workers
    (workers : Z) (js : list job) (sched : list label) (s : state) :
  workers <= 0 ->
  exec step sched (NewWorkerPool workers (map OpSubmit js ++ [OpClose])) = Some s ->
  finished s = [] /\
  ((forall l, step l s = None) ->
     ((length js <= 100)%nat /\ caller s = CRun [] /\
      Chan.buf (jobs s) = js /\ Chan.closed (jobs s) = true) \/
     ((100 < length js)%nat /\
      caller s = CRun (map OpSubmit (drop 100 js) ++ [OpClose]) /\
      Chan.buf (jobs s) = take 100 js /\ Chan.closed (jobs s) = false)).
Proof.
  intros Hw Hex.
  assert (Hz : zinv js s).
  { apply (LTSFacts.exec_invariant step (fun _ => True) (zinv js))
      with (sched := sched)
           (s := NewWorkerPool workers (map OpSubmit js ++ [OpClose]));
      [|by apply Forall_true| |done].
    - intros l s1 s2 _. apply pool_zinv_step.
    - unfold zinv, NewWorkerPool; simpl.
      replace (Z.to_nat workers) with O by lia. simpl.
      repeat split; try done. left. exists O. simpl.
      repeat split; try done; lia. }
  destruct Hz as (Hp & Hf & Hwg & Hcap & Hc).
  split; [done|]. intros Hq.
  destruct s as [W [b cp cl] n ws c fin]; simpl in *. subst ws fin n cp.
  destruct c as [script|script|]; [| |done].
  - destruct Hc as [(k & -> & Hk & Hk' & -> & ->)|(-> & -> & Hl & ->)].
    + destruct (drop k js) as [|j r] eqn:E.
      { exfalso. stuck Hq CloseJobs. }
      destruct (drop_cons_inv js k j r E) as (_ & _ & Hl).
      destruct (decide (k < 100)%nat) as [Hlt|Hge].
      { exfalso. stuck Hq Submit. rewrite length_take in *. lia. }
      assert (k = 100%nat) as -> by lia.
      right. rewrite E. repeat split; try done.
    + left. done.
  - exfalso. stuck Hq WgWait.
Qed.

Lemma pool_without_workers_witness :
  let js := [1; 2]%nat in
  let sched := [Submit; Submit; CloseJobs; WgWait] in
  let s := Mk 0 (Chan.Mk [1; 2]%nat 100 true) 0 [] (CRun []) [] in
  0 <= 0 /\
  exec step sched (NewWorkerPool 0 (map OpSubmit js ++ [OpClose])) = Some s /\
  finished s = [] /\ caller s = CRun [].
Proof.
  intros js sched s.
  assert (Hw : 0 <= 0) by lia.
  assert (Hex : exec step sched (NewWorkerPool 0 (map OpSubmit js ++ [OpClose]))
                = Some s) by reflexivity.
  destruct (pool_without_workers 0 js sched s Hw Hex) as (Hf & _).
  split; [exact Hw|split; [exact Hex|split; [exact Hf|reflexivity]]].
Defined.

End PoolFacts.

(** ** Broadcaster *)

Module BroadcastFacts.
Import LTS Broadcast.

Section Broadcaster.
Context {T : Type}.
Implicit Types (s : state T) (sub : subscriber T) (l : label T).

Definition sub_ok sub : Prop :=
  Chan.cap (ch sub) = 10%nat /\ (Chan.len (ch sub) <= 10)%nat /\
  (ended sub = true -> Chan.closed (ch sub) = true /\ Chan.buf (ch sub) = []).

Definition sub_open sub : Prop := Chan.closed (ch sub) = false.

(** The values taken from the inbox so far. *)
Definition taken_ok s (taken : list T) : Prop :=
  accepted s = taken ++ Chan.buf (input s).

(** What subscriber [i] has been offered, given what was taken. *)
Definition offered_ok s (taken : list T) : Prop :=
  match dispatcher s with
  | DBroadcast val k =>
      (k <= length (subscribers s))%nat /\
      exists before, taken = before ++ [val] /\
        forall i sub, subscribers s !! i = Some sub ->
          (got sub ++ Chan.buf (ch sub)) `sublist_of`
            (if decide (i < k)%nat then taken else before)
  | _ =>
      forall i sub, subscribers s !! i = Some sub ->
        (got sub ++ Chan.buf (ch sub)) `sublist_of` taken
  end.

Lemma closeAll_spec (subs : list (subscriber T)) :
  Forall sub_open subs ->
  exists subs', closeAll subs = Some subs' /\
    length subs' = length subs /\
    forall i sub', subs' !! i = Some sub' ->
      exists sub, subs !! i = Some sub /\
        got sub' = got sub /\ ended sub' = ended sub /\
        Chan.buf (ch sub') = Chan.buf (ch sub) /\
        Chan.cap (ch sub') = Chan.cap (ch sub) /\
        Chan.closed (ch sub') = true.
Proof.
  induction 1 as [|sub subs Ho _ IH]; simpl.
  - exists []. split; [done|]. split; [done|]. intros i sub' Hi. done.
  - destruct IH as (subs' & -> & Hlen & Hall). unfold sub_open in Ho.
    unfold Chan.close. rewrite Ho. simpl.
    eexists; split; [done|]. split; [simpl; by rewrite Hlen|].
    intros [|i] sub' Hi; simpl in Hi.
    + simplify_eq. exists sub. simpl. done.
    + apply Hall in Hi. done.
Qed.

Definition basic s : Prop :=
  panicked s = false /\
  Chan.cap (input s) = 10%nat /\ Chan.closed (input s) = false /\
  (Chan.len (input s) <= 10)%nat /\
  Forall sub_ok (subscribers s) /\
  (dispatcher s <> DExited -> Forall sub_open (subscribers s)) /\
  (ctx_done s = false -> dispatcher s <> DExited).

Ltac chan_unfold H :=
  unfold Chan.send, Chan.recv, Chan.try_send, Chan.send, Chan.full, Chan.len in H.

Ltac basic_split :=
  split; [done|]; split; [done|]; split; [done|];
  split; [simpl; first [done|lia]|]; split; [|split].

Lemma basic_step l s s' : basic s -> step l s = Some s' -> basic s'.
Proof.
  intros (Hpan & Hcap & Hcl & Hlen & Hok & Hopen & Hctx) H.
  unfold basic in *.
  destruct s as [subs [ib icap icl] cd d acc pan]; simpl in *. subst pan icap icl.
  destruct l as [v|v| | |i| | | |]; simpl in H.
  - chan_unfold H. simpl in H. case_bool_decide; simplify_eq/=.
    unfold Chan.len in *; simpl in *. rewrite length_app; simpl.
    basic_split; done.
  - destruct cd; simplify_eq/=. basic_split; done.
  - assert (Hnew : sub_ok (Sub (Chan.make 10) [] false)).
    { unfold sub_ok, Chan.len; simpl. split; [done|]. split; [lia|done]. }
    destruct d; simplify_eq/=; basic_split; try done.
    + apply Forall_app; split; [done|by repeat constructor].
    + intros _. apply Forall_app.
      split; [by apply Hopen|by repeat constructor].
    + apply Forall_app; split; [done|by repeat constructor].
  - simplify_eq/=. basic_split; done.
  - destruct (subs !! i) as [sub|] eqn:Hi; simpl in H; [|done].
    destruct (ended sub) eqn:He; [done|].
    pose proof (Forall_lookup_1 _ _ _ _ Hok Hi) as (Hc1 & Hl1 & He1).
    destruct sub as [[b cp cl] g e]; simpl in *. subst e cp.
    unfold Chan.recv in H; simpl in H.
    destruct b as [|v b]; [destruct cl; [|done]|]; simplify_eq/=;
      basic_split; try done.
    + apply Forall_insert; [done|]. split; [done|]. split; [done|done].
    + intros Hd. specialize (Hopen Hd).
      pose proof (Forall_lookup_1 _ _ _ _ Hopen Hi) as Hx.
      discriminate Hx.
    + apply Forall_insert; [done|]. unfold sub_ok, Chan.len in *; simpl in *.
      split; [done|]. split; [lia|done].
    + intros Hd. specialize (Hopen Hd).
      apply Forall_insert; [done|].
      pose proof (Forall_lookup_1 _ _ _ _ Hopen Hi) as Hx. done.
  - destruct d; try done. unfold Chan.recv in H; simpl in H.
    destruct ib as [|v ib]; simplify_eq/=.
    unfold Chan.len in *; simpl in *. basic_split; try done.
    intros _. by apply Hopen.
  - destruct d; try done. destruct cd; [|done].
    destruct (closeAll_spec subs (Hopen ltac:(done))) as (subs' & E & Hl' & Hall).
    rewrite E in H. simplify_eq/=. basic_split; try done.
    apply Forall_lookup_2. intros i sub' Hi.
    destruct (Hall i sub' Hi) as (sub & Hs & Hg & He & Hb & Hc & Hcl').
    pose proof (Forall_lookup_1 _ _ _ _ Hok Hs) as (Hc1 & Hl1 & He1).
    unfold sub_ok, Chan.len in *. rewrite Hb, Hc, He.
    split; [done|]. split; [done|]. intros Hx. split; [done|by apply He1].
  - destruct d as [|val k|]; try done.
    destruct (subs !! k) as [sub|] eqn:Hi; simpl in H; [|done].
    pose proof (Forall_lookup_1 _ _ _ _ Hok Hi) as (Hc1 & Hl1 & He1).
    pose proof (Forall_lookup_1 _ _ _ _ (Hopen ltac:(done)) Hi) as Ho1.
    destruct sub as [[b cp cl] g e]; unfold sub_open in Ho1; simpl in *.
    subst cl cp. chan_unfold H; simpl in H.
    case_bool_decide; simplify_eq/=; basic_split; try done.
    + by rewrite list_insert_id.
    + intros _. rewrite list_insert_id by done. by apply Hopen.
    + apply Forall_insert; [done|]. unfold sub_ok, Chan.len in *; simpl in *.
      rewrite length_app; simpl. split; [done|]. split; [lia|].
      intros He. by destruct (He1 He).
    + intros _. apply Forall_insert; [by apply Hopen|]. done.
  - destruct d as [|val k|]; try done.
    case_bool_decide; simplify_eq/=. basic_split; try done.
    intros _. by apply Hopen.
Qed.


Definition view (sub : subscriber T) : list T := got sub ++ Chan.buf (ch sub).

Definition ordered s : Prop :=
  exists taken, taken_ok s taken /\ offered_ok s taken.

(** Kept by every step from [NewBroadcaster]. *)
Definition binv s : Prop := basic s /\ ordered s.

Lemma offered_same_view s s' taken :
  dispatcher s' = dispatcher s ->
  length (subscribers s') = length (subscribers s) ->
  (forall j x', subscribers s' !! j = Some x' ->
     exists x, subscribers s !! j = Some x /\ view x' = view x) ->
  offered_ok s taken -> offered_ok s' taken.
Proof.
  unfold offered_ok. intros -> Hl Hv Ho.
  destruct (dispatcher s) as [|val k|].
  - intros j x' Hj. destruct (Hv j x' Hj) as (x & Hx & E).
    fold (view x'). rewrite E. by apply (Ho j).
  - destruct Ho as (Hk & before & -> & Ho). split; [lia|].
    exists before. split; [done|].
    intros j x' Hj. destruct (Hv j x' Hj) as (x & Hx & E).
    fold (view x'). rewrite E. by apply (Ho j).
  - intros j x' Hj. destruct (Hv j x' Hj) as (x & Hx & E).
    fold (view x'). rewrite E. by apply (Ho j).
Qed.

Lemma insert_same_view (subs : list (subscriber T)) i sub sub' :
  subs !! i = Some sub -> view sub' = view sub ->
  forall j x', <[i := sub']> subs !! j = Some x' ->
    exists x, subs !! j = Some x /\ view x' = view x.
Proof.
  intros Hi E j x' Hj.
  apply list_lookup_insert_Some in Hj as [(-> & -> & _)|(Hne & Hj)].
  - by exists sub.
  - by exists x'.
Qed.

Lemma order_step l s s' :
  basic s -> ordered s -> step l s = Some s' -> ordered s'.
Proof.
  intros (Hpan & Hcap & Hcl & Hlen & Hok & Hopen & Hctx) (taken & Ht & Ho) H.
  unfold ordered, taken_ok in *.
  destruct s as [subs [ib icap icl] cd d acc pan]; simpl in *. subst pan icap icl.
  destruct l as [v|v| | |i| | | |]; simpl in H.
  - chan_unfold H. simpl in H. case_bool_decide; simplify_eq/=.
    exists taken. split; [by rewrite app_assoc|done].
  - destruct cd; simplify_eq/=. by exists taken.
  - unfold offered_ok in *; simpl in *.
    destruct d; simplify_eq/=; exists taken; (split; [done|]).
    + intros i sub Hi. apply lookup_app_Some in Hi as [Hi|[_ Hi]]; [by eauto|].
      apply list_lookup_singleton_Some in Hi as [_ <-]. simpl. apply sublist_nil_l.
    + intros i sub Hi. apply lookup_app_Some in Hi as [Hi|[_ Hi]]; [by eauto|].
      apply list_lookup_singleton_Some in Hi as [_ <-]. simpl. apply sublist_nil_l.
  - simplify_eq/=. by exists taken.
  - destruct (subs !! i) as [sub|] eqn:Hi; simpl in H; [|done].
    destruct (ended sub) eqn:He; [done|].
    destruct sub as [[b cp cl] g e]; simpl in *. subst e.
    unfold Chan.recv in H; simpl in H.
    destruct b as [|v b]; [destruct cl; [|done]|]; simplify_eq/=;
      exists taken; (split; [done|]).
    + revert Ho. apply offered_same_view; simpl; [done| |].
      * by rewrite length_insert.
      * by eapply insert_same_view.
    + revert Ho. apply offered_same_view; simpl; [done| |].
      * by rewrite length_insert.
      * eapply insert_same_view; [done|]. unfold view; simpl.
        by rewrite <- app_assoc.
  - destruct d; try done. unfold Chan.recv in H; simpl in H.
    destruct ib as [|v ib]; simplify_eq/=.
    exists (taken ++ [v]). split; [by rewrite <- app_assoc|].
    unfold offered_ok in *; simpl in *. split; [lia|].
    exists taken. split; [done|]. intros i sub Hi.
    destruct (decide (i < 0)%nat); [lia|]. by eapply Ho.
  - destruct d; try done. destruct cd; [|done].
    destruct (closeAll_spec subs (Hopen ltac:(done))) as (subs' & E & Hl' & Hall).
    rewrite E in H. simplify_eq/=. exists taken. split; [done|].
    unfold offered_ok in *; simpl in *. intros i sub' Hi.
    destruct (Hall i sub' Hi) as (sub & Hs & Hg & He & Hb & Hc & Hcl').
    rewrite Hg, Hb. by eapply Ho.
  - destruct d as [|val k|]; try done.
    destruct (subs !! k) as [sub|] eqn:Hi; simpl in H; [|done].
    pose proof (Forall_lookup_1 _ _ _ _ (Hopen ltac:(done)) Hi) as Ho1.
    destruct sub as [[b cp cl] g e]; unfold sub_open in Ho1; simpl in *.
    subst cl. chan_unfold H; simpl in H.
    unfold offered_ok in *; simpl in *.
    destruct Ho as (Hk & before & -> & Ho).
    apply lookup_lt_Some in Hi as Hlt.
    case_bool_decide; simplify_eq/=; exists (before ++ [val]); (split; [done|]);
      rewrite length_insert; (split; [lia|]); exists before; (split; [done|]);
      intros i sub Hj;
      apply list_lookup_insert_Some in Hj as [(-> & <- & _)|(Hne & Hj)].
    + simpl. rewrite decide_True by lia.
      specialize (Ho _ _ Hi). simpl in Ho. rewrite decide_False in Ho by lia.
      by apply sublist_inserts_r.
    + specialize (Ho i sub Hj).
      destruct (decide (i < S k)%nat), (decide (i < k)%nat); try done; lia.
    + simpl. rewrite decide_True by lia.
      specialize (Ho _ _ Hi). simpl in Ho. rewrite decide_False in Ho by lia.
      rewrite app_assoc. by apply sublist_app.
    + specialize (Ho i sub Hj).
      destruct (decide (i < S k)%nat), (decide (i < k)%nat); try done; lia.
  - destruct d as [|val k|]; try done.
    case_bool_decide; simplify_eq/=. exists taken. split; [done|].
    unfold offered_ok in *; simpl in *.
    destruct Ho as (Hk & before & -> & Ho). intros i sub Hi.
    specialize (Ho i sub Hi). apply lookup_lt_Some in Hi.
    by rewrite decide_True in Ho by lia.
Qed.

Lemma binv_init : binv (@NewBroadcaster T).
Proof.
  split.
  - unfold basic, NewBroadcaster, Chan.len; simpl.
    split; [done|]. split; [done|]. split; [done|]. split; [lia|].
    split; [constructor|]. split; [by constructor|done].
  - exists []. split; [done|]. unfold offered_ok; simpl. by intros i sub Hi.
Qed.

Lemma binv_step l s s' : binv s -> step l s = Some s' -> binv s'.
Proof.
  intros [Hb Ho] H. split; [by eapply basic_step|by eapply order_step].
Qed.

Lemma binv_exec sched s s' :
  binv s -> LTS.exec step sched s = Some s' -> binv s'.
Proof.
  intros Hb H.
  apply (LTSFacts.exec_invariant step (fun _ => True) binv) with sched s;
    [|by apply Forall_true|done..].
  intros l x y _. apply binv_step.
Qed.

Lemma offered_sublist s taken i sub :
  offered_ok s taken -> subscribers s !! i = Some sub ->
  view sub `sublist_of` taken.
Proof.
  unfold offered_ok, view. intros Ho Hi. destruct (dispatcher s) as [|val k|].
  - by eapply Ho.
  - destruct Ho as (_ & before & -> & Ho). specialize (Ho i sub Hi).
    destruct (decide (i < k)%nat); [done|].
    etrans; [exact Ho|]. by apply sublist_inserts_r.
  - by eapply Ho.
Qed.

(** X20. Whatever the callers do (any interleaving of [Send], [Subscribe],
    [Close], the subscribers' receives and the dispatcher's steps), the
    Broadcaster never panics, no channel holds more than ten values, and
    what a subscriber has received, followed by what waits in its channel,
    is a subsequence of the values that [Send] put into the inbox, in the
    order of the sends: nothing is delivered twice, reordered or invented. *)
Theorem broadcaster_delivers_in_send_order
    (sched : list (label T)) (s : state T) :
  exec step sched NewBroadcaster = Some s ->
  panicked s = false /\
  (Chan.len (input s) <= 10)%nat /\
  forall i sub, subscribers s !! i = Some sub ->
    (Chan.len (ch sub) <= 10)%nat /\
    got sub `sublist_of` accepted s /\
    (got sub ++ Chan.buf (ch sub)) `sublist_of` accepted s.
Proof.
  intros Hex.
  destruct (binv_exec _ _ _ binv_init Hex)
    as ((Hpan & _ & _ & Hlen & Hok & _) & taken & Ht & Ho).
  split; [done|]. split; [done|]. intros i sub Hi.
  pose proof (Forall_lookup_1 _ _ _ _ Hok Hi) as (_ & Hl & _).
  pose proof (offered_sublist _ _ _ _ Ho Hi) as Hv. unfold view in Hv.
  assert (Hacc : (got sub ++ Chan.buf (ch sub)) `sublist_of` accepted s).
  { rewrite Ht. by apply sublist_inserts_r. }
  split; [done|]. split; [|done].
  etrans; [|exact Hacc]. by apply sublist_inserts_r.
Qed.

(** Once the dispatcher has returned, it stays so, and the subscribers it
    has left are only received from. *)
Definition late_ok (n : nat) (closed0 : list bool) (s : state T) : Prop :=
  dispatcher s = DExited /\
  (n <= length (subscribers s))%nat /\
  Chan.closed ∘ ch <$> take n (subscribers s) = closed0 /\
  forall i sub, subscribers s !! i = Some sub -> (n <= i)%nat ->
    sub = Sub (Chan.make 10) [] false.

Lemma late_step n closed0 l s s' :
  late_ok n closed0 s -> step l s = Some s' -> late_ok n closed0 s'.
Proof.
  intros (Hd & Hn & Hcl & Hlate) H. unfold late_ok.
  destruct s as [subs inp cd d acc pan]; simpl in *. subst d.
  destruct l as [v|v| | |i| | | |]; simpl in H; try done.
  - destruct (Chan.send inp v); by simplify_eq/=.
  - destruct cd; by simplify_eq/=.
  - simplify_eq/=. split; [done|].
    rewrite length_app. split; [lia|]. split.
    + by rewrite take_app_le by lia.
    + intros i sub Hi Hle.
      apply lookup_app_Some in Hi as [Hi|[_ Hi]]; [by eauto|].
      by apply list_lookup_singleton_Some in Hi as [_ <-].
  - by simplify_eq/=.
  - destruct (subs !! i) as [sub|] eqn:Hi; simpl in H; [|done].
    destruct (ended sub) eqn:He; [done|].
    destruct (decide (n <= i)%nat) as [Hle|Hlt].
    { rewrite (Hlate i sub Hi Hle) in H. done. }
    assert (Hkeep : forall x, Chan.closed (ch x) = Chan.closed (ch sub) ->
      Chan.closed ∘ ch <$> take n (<[i := x]> subs) = closed0).
    { intros x Hx. rewrite take_insert_lt by lia. rewrite list_fmap_insert.
      rewrite <- Hcl. apply list_insert_id.
      rewrite list_lookup_fmap, lookup_take_lt by lia. by rewrite Hi; simpl; f_equal. }
    assert (Hl : forall x j y, <[i := x]> subs !! j = Some y -> (n <= j)%nat ->
      y = Sub (Chan.make 10) [] false).
    { intros x j y Hj Hle. rewrite list_lookup_insert_ne in Hj by lia. eauto. }
    destruct sub as [[b cp cl] g e]; simpl in *. unfold Chan.recv in H; simpl in H.
    destruct b as [|v b]; [destruct cl; [|done]|]; simplify_eq/=;
      (split; [done|]); rewrite length_insert;
      (split; [done|]); (split; [by apply Hkeep|by apply Hl]).
Qed.

(** X21. A subscription taken after the dispatcher has returned is never
    served: whatever happens afterwards, its channel stays open and empty
    and its caller has received nothing, so its [range] never ends; and
    the dispatcher stays returned, the earlier subscriptions keep the
    closed flag they had, and none joins or leaves. *)
Theorem subscribe_after_exit_is_never_served
    (sched : list (label T)) (s s' : state T) :
  dispatcher s = DExited ->
  exec step sched s = Some s' ->
  dispatcher s' = DExited /\
  (length (subscribers s) <= length (subscribers s'))%nat /\
  (forall i sub, subscribers s !! i = Some sub ->
     exists sub', subscribers s' !! i = Some sub' /\
       Chan.closed (ch sub') = Chan.closed (ch sub)) /\
  (forall i sub', subscribers s' !! i = Some sub' ->
     (length (subscribers s) <= i)%nat ->
     sub' = Sub (Chan.make 10) [] false /\ step (Recv i) s' = None).
Proof.
  intros Hd Hex.
  set (n := length (subscribers s)).
  set (closed0 := Chan.closed ∘ ch <$> subscribers s).
  assert (H0 : late_ok n closed0 s).
  { split; [done|]. split; [done|]. split.
    - unfold closed0, n. by rewrite firstn_all.
    - intros i sub Hi Hle. apply lookup_lt_Some in Hi. unfold n in Hle. lia. }
  assert (H1 : late_ok n closed0 s').
  { apply (LTSFacts.exec_invariant step (fun _ => True) (late_ok n closed0))
      with sched s; [|by apply Forall_true|done..].
    intros l x y _. apply late_step. }
  destruct H1 as (Hd' & Hn & Hcl & Hlate).
  split; [done|]. split; [done|]. split.
  - intros i sub Hi. apply lookup_lt_Some in Hi as Hlt. fold n in Hlt.
    destruct (lookup_lt_is_Some_2 (subscribers s') i) as [sub' Hi']; [lia|].
    exists sub'. split; [done|].
    assert (E : (Chan.closed ∘ ch <$> take n (subscribers s')) !! i
                = closed0 !! i) by by rewrite Hcl.
    unfold closed0 in E.
    rewrite !list_lookup_fmap, lookup_take_lt, Hi, Hi' in E by lia.
    simpl in E. by simplify_eq.
  - intros i sub' Hi Hle. pose proof (Hlate i sub' Hi Hle) as ->.
    split; [done|]. simpl. by rewrite Hi.
Qed.

End Broadcaster.

Lemma broadcaster_delivers_in_send_order_witness :
  let sched := [CallSubscribe; SendEnqueue 1; SendEnqueue 2; DispTake;
                DispOffer; DispLoopEnd; Recv 0; CallSubscribe; DispTake;
                DispOffer; DispOffer; DispLoopEnd; CallClose; DispDone]%nat in
  let s := Mk [Sub (Chan.Mk [2] 10 true) [1] false;
               Sub (Chan.Mk [2] 10 true) [] false]%nat
              (Chan.make 10) true DExited [1; 2]%nat false in
  exec step sched NewBroadcaster = Some s /\
  panicked s = false /\
  forall i sub, subscribers s !! i = Some sub ->
    (got sub ++ Chan.buf (ch sub)) `sublist_of` [1; 2]%nat.
Proof.
  intros sched s.
  assert (Hex : exec step sched NewBroadcaster = Some s) by reflexivity.
  destruct (broadcaster_delivers_in_send_order sched s Hex) as (Hp & _ & Hall).
  split; [exact Hex|]. split; [exact Hp|].
  intros i sub Hi. destruct (Hall i sub Hi) as (_ & _ & Hs). exact Hs.
Defined.

Lemma subscribe_after_exit_is_never_served_witness :
  let s := Mk [Sub (Chan.Mk [] 10 true) [] false] (Chan.make 10) true
              (@DExited nat) [] false in
  let sched := [CallSubscribe; SendEnqueue 7%nat; Recv 0%nat; CallClose] in
  dispatcher s = DExited /\
  exists s', exec step sched s = Some s' /\
    subscribers s' !! 1%nat = Some (Sub (Chan.make 10) [] false) /\
    step (Recv 1%nat) s' = None.
Proof.
  intros s sched.
  assert (Hd : dispatcher s = DExited) by reflexivity.
  split; [exact Hd|]. eexists. 
  assert (Hex : exec step sched s = Some
    (Mk [Sub (Chan.Mk [] 10 true) [] true; Sub (Chan.make 10) [] false]
        (Chan.Mk [7%nat] 10 false) true DExited [7%nat] false)) by reflexivity.
  split; [exact Hex|].
  destruct (subscribe_after_exit_is_never_served sched s _ Hd Hex)
    as (_ & _ & _ & Hlate).
  destruct (Hlate 1%nat (Sub (Chan.make 10) [] false) eq_refl) as [_ Hr];
    [simpl; lia|].
  split; [reflexivity|exact Hr].
Defined.

Section BroadcasterRuns.
Context {T : Type}.
Implicit Types (s : state T) (sub : subscriber T) (val : T).

(** The result of one [select { case ch <- val: default: }] on an open
    channel: [val] is appended unless the buffer is full. *)
Definition offered val sub : subscriber T :=
  Sub (if Chan.full (ch sub) then ch sub
       else Chan.Mk (Chan.buf (ch sub) ++ [val]) (Chan.cap (ch sub)) false)
      (got sub) (ended sub).

Lemma offer_open val sub :
  sub_open sub -> offer val sub = Some (offered val sub) /\ sub_open (offered val sub).
Proof.
  unfold sub_open, offer, offered, Chan.try_send, Chan.send.
  destruct sub as [[b cp cl] g e]; simpl. intros ->.
  by destruct (Chan.full _).
Qed.

Lemma step_offer_try val sub :
  sub_open sub ->
  Chan.try_send (ch sub) val
  = Some (ch (offered val sub), negb (Chan.full (ch sub))).
Proof.
  unfold sub_open, offered, Chan.try_send, Chan.send.
  destruct sub as [[b cp cl] g e]; simpl. intros ->.
  by destruct (Chan.full _).
Qed.

Lemma step_offer val k subs sub inp cd acc pan :
  subs !! k = Some sub -> sub_open sub ->
  step DispOffer (Mk subs inp cd (DBroadcast val k) acc pan)
  = Some (Mk (<[k := offered val sub]> subs) inp cd (DBroadcast val (S k)) acc pan).
Proof.
  intros Hk Ho. simpl. rewrite Hk. simpl.
  unfold sub_open, offered, Chan.try_send, Chan.send in *.
  destruct sub as [[b cp cl] g e]; simpl in *. subst cl.
  by destruct (Chan.full _).
Qed.

(** The [range] of [broadcast] over a stretch [todo] of open
    subscribers, one [DispOffer] each. *)
Lemma offers_run val todo : forall pre post inp cd acc pan,
  Forall sub_open todo ->
  broadcast val todo = Some (offered val <$> todo) /\
  exec step (replicate (length todo) DispOffer)
    (Mk (pre ++ todo ++ post) inp cd (DBroadcast val (length pre)) acc pan)
  = Some (Mk (pre ++ (offered val <$> todo) ++ post) inp cd
             (DBroadcast val (length pre + length todo)) acc pan).
Proof.
  induction todo as [|sub todo IH]; intros pre post inp cd acc pan Hopen.
  - simpl. by rewrite Nat.add_0_r.
  - apply Forall_cons_1 in Hopen as [Ho Hopen].
    destruct (offer_open val sub Ho) as [E _].
    destruct (IH (pre ++ [offered val sub]) post inp cd acc pan Hopen) as [Hb Hex].
    split.
    { unfold broadcast in *. simpl. rewrite E. simpl. by rewrite Hb. }
    change (replicate (length (sub :: todo)) DispOffer)
      with (DispOffer :: replicate (length todo) (@DispOffer T)).
    cbn [exec].
    rewrite (step_offer val (length pre) _ sub); [|by apply list_lookup_middle|done].
    replace (<[length pre := offered val sub]> (pre ++ (sub :: todo) ++ post))
      with ((pre ++ [offered val sub]) ++ todo ++ post).
    2:{ rewrite insert_app_r_alt by lia. rewrite Nat.sub_diag. simpl.
        by rewrite <- app_assoc. }
    replace (S (length pre)) with (length (pre ++ [offered val sub]))
      by (rewrite length_app; simpl; lia).
    rewrite Hex. f_equal. rewrite <- app_assoc. simpl.
    rewrite length_app. simpl. f_equal. f_equal. lia.
Qed.

(** X22. [broadcast] from a reachable state, run without interruption:
    it offers [val] to every subscriber exactly once, in the order of
    subscription, and returns to the [select] of [run] only after the
    last offer; a subscriber whose buffer has room gets [val] appended, a
    full one is skipped and left as it was; the inbox, the cancellation
    and the values accepted so far are untouched. *)
Theorem broadcast_offers_each_subscriber_once
    (pre : list (label T)) val s :
  exec step pre NewBroadcaster = Some s ->
  dispatcher s = DBroadcast val 0 ->
  broadcast val (subscribers s) = Some (offered val <$> subscribers s) /\
  exec step (replicate (length (subscribers s)) DispOffer ++ [DispLoopEnd]) s
  = Some (Mk (offered val <$> subscribers s) (input s) (ctx_done s) DSelect
             (accepted s) (panicked s)) /\
  (forall n, (n < length (subscribers s))%nat ->
     exec step (replicate n DispOffer ++ [DispLoopEnd]) s = None).
Proof.
  intros Hex Hd.
  destruct (binv_exec _ _ _ binv_init Hex) as ((_ & _ & _ & _ & _ & Hopen & _) & _).
  assert (Ho : Forall sub_open (subscribers s)) by (apply Hopen; by rewrite Hd).
  destruct s as [subs inp cd d acc pan]; simpl in *. subst d.
  split; [|split].
  - by apply (offers_run val subs [] [] inp cd acc pan).
  - destruct (offers_run val subs [] [] inp cd acc pan Ho) as [_ E].
    rewrite !app_nil_r in E. simpl in E.
    rewrite LTSFacts.exec_snoc, E. simpl.
    rewrite length_fmap. by rewrite bool_decide_true by lia.
  - intros n Hn.
    assert (Ht : Forall sub_open (take n subs)) by by apply Forall_take.
    destruct (offers_run val (take n subs) [] (drop n subs) inp cd acc pan Ht)
      as [_ E].
    rewrite length_take_le in E by lia. simpl in E. rewrite take_drop in E.
    rewrite LTSFacts.exec_snoc, E. simpl.
    rewrite length_app, length_fmap, length_take_le, length_drop by lia.
    by rewrite bool_decide_false by lia.
Qed.

(** X23. [Send] is never held up by the subscribers: from every
    reachable state either the broadcaster is closed, so that [Send]
    returns through [ctx.Done()], or the dispatcher alone, in at most
    [len(subscribers) + 2] steps and without any subscriber receiving,
    makes room in the inbox, after which [Send(v)] puts [v] there. *)
Theorem send_is_released_by_the_dispatcher
    (pre : list (label T)) s (v : T) :
  exec step pre NewBroadcaster = Some s ->
  is_Some (step (SendDropped v) s) \/
  exists sched s' s'',
    Forall dispatch sched /\
    (length sched <= length (subscribers s) + 2)%nat /\
    exec step sched s = Some s' /\
    step (SendEnqueue v) s' = Some s'' /\
    accepted s'' = accepted s ++ [v] /\ panicked s'' = false.
Proof.
  intros Hex.
  destruct (binv_exec _ _ _ binv_init Hex)
    as ((Hpan & Hcap & Hcl & Hlen & _ & Hopen & Hctx) & taken & _ & Ho).
  destruct s as [subs [ib icap icl] cd d acc pan]; simpl in *. subst pan icap icl.
  destruct cd; [left; by eexists|right].
  specialize (Hctx eq_refl). specialize (Hopen Hctx).
  unfold Chan.len in Hlen; simpl in Hlen.
  destruct (decide (length ib < 10)%nat) as [Hroom|Hfull].
  { exists [], (Mk subs (Chan.Mk ib 10 false) false d acc false). eexists.
    split; [constructor|]. split; [simpl; lia|]. split; [done|].
    simpl. unfold Chan.send, Chan.full, Chan.len; simpl.
    rewrite bool_decide_false by lia. done. }
  destruct ib as [|v0 ib]; [simpl in Hfull; lia|]. simpl in Hlen.
  assert (Hsend : forall subs',
    step (SendEnqueue v) (Mk subs' (Chan.Mk ib 10 false) false (DBroadcast v0 0) acc false)
    = Some (Mk subs' (Chan.Mk (ib ++ [v]) 10 false) false (DBroadcast v0 0)
               (acc ++ [v]) false)).
  { intros subs'. simpl. unfold Chan.send, Chan.full, Chan.len; simpl.
    by rewrite bool_decide_false by lia. }
  destruct d as [|val k|]; [|clear Hctx|done].
  - exists [DispTake]. do 2 eexists.
    split; [by repeat constructor|]. split; [simpl; lia|].
    split; [done|]. split; [apply Hsend|done].
  - unfold offered_ok in Ho; simpl in Ho. destruct Ho as (Hk & _).
    assert (Ht : Forall sub_open (drop k subs)) by by apply Forall_drop.
    destruct (offers_run val (drop k subs) (take k subs) []
                (Chan.Mk (v0 :: ib) 10 false) false acc false Ht) as [_ E].
    rewrite !app_nil_r, take_drop, length_take_le, length_drop in E by lia.
    exists (replicate (length subs - k) DispOffer ++ [DispLoopEnd; DispTake]).
    do 2 eexists.
    split; [apply Forall_app; split; [by apply Forall_replicate|by repeat constructor]|].
    split; [rewrite length_app, length_replicate; simpl; lia|].
    split; [|split; [apply Hsend|done]].
    rewrite LTSFacts.exec_app, E. simpl.
    rewrite length_app, length_fmap, length_take_le, length_drop by lia.
    by rewrite bool_decide_true by lia.
Qed.

Lemma closeAll_pending (subs subs' : list (subscriber T)) :
  closeAll subs = Some subs' ->
  length subs' = length subs /\
  sum_list_with pending subs' = sum_list_with pending subs.
Proof.
  revert subs'; induction subs as [|sub subs IH]; intros subs' H; simpl in H.
  - by simplify_eq.
  - destruct (Chan.close (ch sub)) as [c|] eqn:Ec; simpl in H; [|done].
    destruct (closeAll subs) as [rest|]; simpl in H; [|done]. simplify_eq.
    destruct (IH rest eq_refl) as [Hl Hs]. simpl. rewrite Hl, Hs.
    split; [done|]. f_equal. unfold Chan.close in Ec.
    destruct (Chan.closed (ch sub)); simplify_eq. done.
Qed.

Ltac sum_gen :=
  repeat match goal with
         | |- context [sum_list_with ?f ?l] => generalize (sum_list_with f l); intro
         end.

Ltac sum_lia E := revert E; sum_gen; intros E; lia.

Lemma broadcaster_step_measure l s s' :
  program l -> step l s = Some s' -> (measure s' < measure s)%nat.
Proof.
  intros Hl H. unfold measure.
  destruct s as [subs [ib icap icl] cd d acc pan]; simpl in *.
  destruct l as [v|v| | |i| | | |]; simpl in H; try done.
  - destruct (subs !! i) as [sub|] eqn:Hi; simpl in H; [|done].
    destruct (ended sub) eqn:He; [done|].
    destruct sub as [[b cp cl] g e]; simpl in *. subst e.
    unfold Chan.recv in H; simpl in H.
    destruct b as [|v b]; [destruct cl; [|done]|]; simplify_eq/=;
      rewrite length_insert;
      match goal with |- context [sum_list_with pending (<[i := ?y]> subs)] =>
        pose proof (SliceFacts.sum_list_with_insert pending subs i _ y Hi) as E
      end;
      unfold pending at 2 4 in E; unfold Chan.len in E; simpl in E; sum_lia E.
  - destruct d; try done. unfold Chan.recv in H; simpl in H.
    destruct ib as [|v ib]; [by destruct icl|]. simplify_eq/=.
    unfold Chan.len; simpl. sum_gen. lia.
  - destruct d; try done. destruct cd; [|done].
    destruct (closeAll subs) as [subs'|] eqn:E; simplify_eq/=.
    + destruct (closeAll_pending _ _ E) as [-> ->]. sum_gen. lia.
    + sum_gen. lia.
  - destruct d as [|val k|]; try done.
    destruct (subs !! k) as [sub|] eqn:Hi; simpl in H; [|done].
    apply lookup_lt_Some in Hi as Hlt.
    destruct (Chan.try_send (ch sub) val) as [[c' ok]|] eqn:Et; simplify_eq/=.
    + rewrite length_insert.
      match goal with |- context [sum_list_with pending (<[k := ?y]> subs)] =>
        pose proof (SliceFacts.sum_list_with_insert pending subs k _ y Hi) as E
      end.
      assert (Hp : (Chan.len c' <= S (Chan.len (ch sub)))%nat).
      { unfold Chan.try_send, Chan.send, Chan.len in *.
        destruct (Chan.closed (ch sub)); [done|].
        destruct (Chan.full (ch sub)); simplify_eq/=; [lia|].
        rewrite length_app. simpl. lia. }
      unfold pending at 2 4 in E; simpl in E. sum_lia E.
    + sum_gen. lia.
  - destruct d as [|val k|]; try done.
    case_bool_decide; simplify_eq/=. sum_gen. lia.
Qed.

Lemma broadcaster_labels_program s l : l ∈ labels s -> program l.
Proof.
  unfold labels. rewrite elem_of_app, list_elem_of_fmap.
  intros [(i & -> & _)|Hin]; [done|].
  repeat (apply elem_of_cons in Hin as [->|Hin]; [done|]).
  by apply elem_of_nil in Hin.
Qed.

Lemma broadcaster_labels_complete l s s' :
  program l -> step l s = Some s' -> l ∈ labels s.
Proof.
  intros Hl H. unfold labels. rewrite elem_of_app.
  destruct l as [v|v| | |i| | | |]; try done.
  - left. rewrite list_elem_of_fmap. exists i. split; [done|].
    simpl in H. destruct (subscribers s !! i) eqn:Hi; [|done].
    apply lookup_lt_Some in Hi. rewrite elem_of_seq. lia.
  - right. repeat constructor.
  - right. repeat constructor.
  - right. repeat constructor.
  - right. repeat constructor.
Qed.

Lemma broadcaster_run_quiescent (s0 : state T) :
  quiescent step program (run step labels (measure s0) s0).
Proof.
  intros l Hl. destruct (step l _) as [s'|] eqn:E; [|done].
  pose proof (broadcaster_labels_complete _ _ _ Hl E) as Hin.
  pose proof (LTSFacts.run_stops step program labels
                broadcaster_labels_program measure
                broadcaster_step_measure (measure s0) s0 (le_n _)) as Hpick.
  rewrite (LTSFacts.pick_None step _ _ Hpick l Hin) in E. done.
Qed.

(** After [Close], while only the dispatcher and the subscribers run. *)
Definition closing (n : nat) (acc : list T) (s : state T) : Prop :=
  binv s /\ ctx_done s = true /\
  length (subscribers s) = n /\ accepted s = acc /\
  (dispatcher s = DExited ->
   Forall (fun sub => Chan.closed (ch sub) = true) (subscribers s)).

Lemma closing_step n acc l s s' :
  program l -> closing n acc s -> step l s = Some s' -> closing n acc s'.
Proof.
  intros Hl (Hb & Hcd & Hn & Hacc & Hex) H.
  split; [by eapply binv_step|].
  destruct Hb as ((_ & _ & _ & _ & _ & Hopen & _) & _).
  destruct s as [subs inp cd d acc0 pan]; simpl in *. subst cd acc0.
  destruct l as [v|v| | |i| | | |]; simpl in H; try done.
  - destruct (subs !! i) as [sub|] eqn:Hi; simpl in H; [|done].
    destruct (ended sub) eqn:He; [done|].
    assert (Hkeep : forall x, Chan.closed (ch x) = Chan.closed (ch sub) ->
      d = DExited ->
      Forall (fun sub => Chan.closed (ch sub) = true) (<[i := x]> subs)).
    { intros x Hx Hd. apply Forall_insert; [by apply Hex|].
      rewrite Hx. by apply (Forall_lookup_1 _ _ _ _ (Hex Hd) Hi). }
    destruct sub as [[b cp cl] g e]; simpl in *.
    unfold Chan.recv in H; simpl in H.
    destruct b as [|v b]; [destruct cl; [|done]|]; simplify_eq/=;
      rewrite length_insert; (split; [done|]); (split; [done|]);
      (split; [done|]); by apply Hkeep.
  - destruct d; try done. destruct (Chan.recv inp) as [v q| |]; simplify_eq/=.
    done.
  - destruct d; try done.
    destruct (closeAll_spec subs (Hopen ltac:(done))) as (subs' & E & Hl' & Hall).
    rewrite E in H. simplify_eq/=.
    split; [done|]. split; [done|]. split; [done|]. intros _.
    apply Forall_lookup_2. intros i sub' Hi.
    by destruct (Hall i sub' Hi) as (sub & _ & _ & _ & _ & _ & Hc).
  - destruct d as [|val k|]; try done.
    destruct (subs !! k) as [sub|] eqn:Hi; simpl in H; [|done].
    pose proof (Forall_lookup_1 _ _ _ _ (Hopen ltac:(done)) Hi) as Ho1.
    rewrite (step_offer_try val sub Ho1) in H. simplify_eq/=.
    rewrite length_insert. done.
  - destruct d as [|val k|]; try done.
    case_bool_decide; simplify_eq/=. done.
Qed.

Lemma pending_bound (subs : list (subscriber T)) :
  Forall sub_ok subs -> (sum_list_with pending subs <= 11 * length subs)%nat.
Proof.
  induction 1 as [|sub subs (_ & Hl & _) _ IH]; simpl; [lia|].
  unfold pending at 1. destruct (ended sub); lia.
Qed.

Lemma measure_bound s :
  basic s -> (measure s <= 33 * length (subscribers s) + 22)%nat.
Proof.
  intros (_ & _ & _ & Hlen & Hok & _). apply pending_bound in Hok.
  unfold measure. destruct (dispatcher s); nia.
Qed.

(** X24. [Close] ends every subscription: from a reachable state in which
    [Close] has been called and the dispatcher has not yet returned,
    with only the dispatcher and the subscribers' callers running, every
    schedule is finite (at most [33 * len(subscribers) + 22] steps); when
    nothing can move any more the dispatcher has returned after
    [closeAll], every subscription is closed and drained, its caller's
    [range] has ended, and what it received is a subsequence of the values
    accepted by [Send], in order; and the first-enabled scheduler reaches
    such a state. *)
Theorem broadcaster_close_ends_subscriptions
    (pre sched : list (label T)) s s' :
  exec step pre NewBroadcaster = Some s ->
  ctx_done s = true ->
  dispatcher s <> DExited ->
  Forall program sched ->
  exec step sched s = Some s' ->
  (length sched <= measure s)%nat /\
  (measure s <= 33 * length (subscribers s) + 22)%nat /\
  (quiescent step program s' ->
     dispatcher s' = DExited /\
     length (subscribers s') = length (subscribers s) /\
     forall i sub, subscribers s' !! i = Some sub ->
       Chan.closed (ch sub) = true /\ Chan.buf (ch sub) = [] /\
       ended sub = true /\ got sub `sublist_of` accepted s) /\
  exists sched0,
    Forall program sched0 /\
    exec step sched0 s = Some (run step labels (measure s) s) /\
    quiescent step program (run step labels (measure s) s).
Proof.
  intros Hpre Hcd Hd Hall Hex.
  pose proof (binv_exec _ _ _ binv_init Hpre) as Hb.
  split.
  { pose proof (LTSFacts.exec_measure step program measure
                  broadcaster_step_measure sched s s' Hall Hex). lia. }
  split; [apply measure_bound, Hb|]. split.
  - intros Hq.
    assert (Hc : closing (length (subscribers s)) (accepted s) s') .
    { apply (LTSFacts.exec_invariant step program
               (closing (length (subscribers s)) (accepted s))) with sched s;
        [|done| |done].
      - intros l x y Hl. by apply closing_step.
      - split; [done|]. split; [done|]. split; [done|]. split; [done|].
        by intros ?. }
    destruct Hc as (Hb' & Hcd' & Hn & Hacc & Hclosed).
    destruct Hb' as ((Hpan & Hcap & Hcl & Hlen & Hok & Hopen & _) & taken & Ht & Ho).
    assert (Hd' : dispatcher s' = DExited).
    { destruct (dispatcher s') as [|val k|] eqn:Ed; [| |done].
      - specialize (Hopen ltac:(done)).
        destruct (closeAll_spec _ Hopen) as (subs' & E & _).
        pose proof (Hq DispDone I) as Hs. simpl in Hs.
        by rewrite Ed, Hcd', E in Hs.
      - specialize (Hopen ltac:(done)).
        destruct (decide (k < length (subscribers s'))%nat) as [Hk|Hk].
        + destruct (lookup_lt_is_Some_2 _ _ Hk) as [sub Hi].
          pose proof (Forall_lookup_1 _ _ _ _ Hopen Hi) as Ho1.
          pose proof (Hq DispOffer I) as Hs. simpl in Hs.
          rewrite Ed, Hi in Hs. simpl in Hs.
          by rewrite (step_offer_try val sub Ho1) in Hs.
        + pose proof (Hq DispLoopEnd I) as Hs. simpl in Hs.
          rewrite Ed in Hs. by rewrite bool_decide_true in Hs by lia. }
    split; [done|]. split; [done|]. intros i sub Hi.
    pose proof (Forall_lookup_1 _ _ _ _ (Hclosed Hd') Hi) as Hc. simpl in Hc.
    pose proof (Forall_lookup_1 _ _ _ _ Hok Hi) as (_ & _ & He).
    pose proof (offered_sublist _ _ _ _ Ho Hi) as Hv. unfold view in Hv.
    assert (Hend : ended sub = true).
    { pose proof (Hq (Recv i) I) as Hs. simpl in Hs. rewrite Hi in Hs. simpl in Hs.
      destruct (ended sub); [done|]. unfold Chan.recv in Hs.
      destruct (Chan.buf (ch sub)); [|done]. by rewrite Hc in Hs. }
    destruct (He Hend) as [_ Hbuf].
    split; [done|]. split; [done|]. split; [done|].
    rewrite Hbuf, app_nil_r in Hv. rewrite <- Hacc, Ht.
    etrans; [exact Hv|]. by apply sublist_inserts_r.
  - destruct (LTSFacts.run_exec step program labels broadcaster_labels_program
                (measure s) s) as (sched0 & Hp0 & Hex0).
    exists sched0. split; [done|]. split; [done|].
    apply broadcaster_run_quiescent.
Qed.

End BroadcasterRuns.

Lemma broadcast_offers_each_subscriber_once_witness :
  let pre := [CallSubscribe; CallSubscribe; SendEnqueue 5; DispTake]%nat in
  let s := Mk [Sub (Chan.make 10) [] false; Sub (Chan.make 10) [] false]
              (Chan.make 10) false (DBroadcast 5%nat 0) [5]%nat false in
  exec step pre NewBroadcaster = Some s /\
  exec step [DispOffer; DispOffer; DispLoopEnd] s
  = Some (Mk [Sub (Chan.Mk [5]%nat 10 false) [] false;
              Sub (Chan.Mk [5]%nat 10 false) [] false]
             (Chan.make 10) false DSelect [5]%nat false).
Proof.
  intros pre s.
  assert (Hex : exec step pre NewBroadcaster = Some s) by reflexivity.
  split; [exact Hex|].
  exact (proj1 (proj2 (broadcast_offers_each_subscriber_once pre 5%nat s Hex eq_refl))).
Defined.

Lemma send_is_released_by_the_dispatcher_witness :
  let pre := CallSubscribe :: map SendEnqueue (seq 0 10) ++ [DispTake]
             ++ [SendEnqueue 10%nat] in
  exists s,
    exec step pre NewBroadcaster = Some s /\
    Chan.len (input s) = 10%nat /\
    (is_Some (step (SendDropped 11%nat) s) \/
     exists sched s' s'',
       Forall dispatch sched /\
       (length sched <= length (subscribers s) + 2)%nat /\
       exec step sched s = Some s' /\
       step (SendEnqueue 11%nat) s' = Some s'' /\
       accepted s'' = accepted s ++ [11%nat] /\ panicked s'' = false).
Proof.
  intros pre. eexists.
  assert (Hex : exec step pre NewBroadcaster = Some
    (Mk [Sub (Chan.make 10) [] false]
        (Chan.Mk (seq 1 10) 10 false) false (DBroadcast 0%nat 0)
        (seq 0 11) false)) by reflexivity.
  split; [exact Hex|]. split; [reflexivity|].
  exact (send_is_released_by_the_dispatcher pre _ 11%nat Hex).
Defined.

Lemma broadcaster_close_ends_subscriptions_witness :
  let pre := [CallSubscribe; SendEnqueue 1; SendEnqueue 2; DispTake;
              CallClose]%nat in
  let sched := [DispOffer; DispLoopEnd; DispTake; DispOffer; Recv 0;
                DispLoopEnd; DispDone; Recv 0; Recv 0]%nat in
  let s := Mk [Sub (Chan.make 10) [] false] (Chan.Mk [2]%nat 10 false) true
              (DBroadcast 1%nat 0) [1; 2]%nat false in
  let s' := Mk [Sub (Chan.Mk [] 10 true) [1; 2]%nat true] (Chan.make 10) true
               DExited [1; 2]%nat false in
  exec step pre NewBroadcaster = Some s /\
  exec step sched s = Some s' /\
  (length sched <= measure s)%nat /\
  dispatcher (run step labels (measure s) s) = DExited.
Proof.
  intros pre sched s s'.
  assert (Hpre : exec step pre NewBroadcaster = Some s) by reflexivity.
  assert (Hcd : ctx_done s = true) by reflexivity.
  assert (Hd : dispatcher s <> DExited) by discriminate.
  assert (Hp : Forall program sched) by (repeat constructor).
  assert (Hex : exec step sched s = Some s') by reflexivity.
  destruct (broadcaster_close_ends_subscriptions pre sched s s' Hpre Hcd Hd Hp Hex)
    as (Hlen & _ & _ & _).
  split; [exact Hpre|]. split; [exact Hex|]. split; [exact Hlen|reflexivity].
Defined.

End BroadcastFacts.

(** ** GenerateNumbers *)

Module NumbersFacts.
Import LTS Source Numbers.

Lemma wrap_id z : GoInt.in_range z -> GoInt.wrap z = z.
Proof.
  unfold GoInt.in_range, GoInt.wrap. intros H.
  rewrite Z.mod_small by lia. lia.
Qed.

Lemma wrap_in_range z : GoInt.in_range (GoInt.wrap z).
Proof.
  unfold GoInt.in_range, GoInt.wrap.
  pose proof (Z.mod_pos_bound (z + 2 ^ 63) (2 ^ 64) ltac:(lia)). lia.
Qed.

Lemma wrap_succ z : GoInt.wrap (GoInt.wrap z + 1) = GoInt.wrap (z + 1).
Proof.
  unfold GoInt.wrap. f_equal.
  replace ((z + 2 ^ 63) mod 2 ^ 64 - 2 ^ 63 + 1 + 2 ^ 63)
    with ((z + 2 ^ 63) mod 2 ^ 64 + 1) by lia.
  rewrite Zplus_mod_idemp_l. f_equal. lia.
Qed.

Lemma numbers_cons i last :
  i <= last -> numbers i last = i :: numbers (i + 1) last.
Proof.
  intros H. unfold numbers.
  rewrite seqZ_cons by lia. f_equal. f_equal; lia.
Qed.

Lemma numbers_nil i last : last < i -> numbers i last = [].
Proof. intros H. unfold numbers. by rewrite seqZ_nil by lia. Qed.

Lemma numbers_snoc start i :
  start <= i -> numbers start (i - 1) ++ [i] = numbers start i.
Proof.
  intros H. unfold numbers.
  replace (i - start + 1) with ((i - 1 - start + 1) + 1) by lia.
  rewrite (seqZ_app start (i - 1 - start + 1) 1) by lia. f_equal.
  rewrite seqZ_cons, seqZ_nil by lia. f_equal. lia.
Qed.

Lemma numbers_prefix start i last :
  i <= last -> numbers start i `prefix_of` numbers start last.
Proof.
  intros H. unfold numbers.
  destruct (decide (i - start + 1 <= 0)) as [Hn|Hp].
  - rewrite seqZ_nil by lia. apply prefix_nil.
  - replace (last - start + 1) with ((i - start + 1) + (last - i)) by lia.
    rewrite (seqZ_app start (i - start + 1) (last - i)) by lia.
    by apply prefix_app_r.
Qed.

Section Bounded.
Variables start last : Z.
Hypothesis Hstart : GoInt.in_range start.
Hypothesis Hlast : last < 2 ^ 63 - 1.

(** The counter has not overflowed and the caller has received exactly
    the numbers below it. *)
Definition ninv (s : state) : Prop :=
  match gen s with
  | NumLoop i =>
      start <= i <= Z.max start (last + 1) /\
      received s = numbers start (i - 1) /\ cons s <> ConsDone
  | NumExited =>
      received s `prefix_of` numbers start last /\
      (cancelled s = false -> received s = numbers start last)
  end.

Lemma numbers_ninv_init : ninv (init start).
Proof.
  unfold ninv; simpl. split; [lia|]. split; [|done].
  by rewrite numbers_nil by lia.
Qed.

Lemma numbers_ninv_step l s s' :
  ninv s -> step last l s = Some s' ->
  ninv s' /\ (measure last s' < measure last s)%nat.
Proof.
  unfold ninv, measure.
  destruct s as [c g k r]; simpl. intros Hinv H.
  destruct l; simpl in H.
  - destruct k; try done. destruct g as [i|]; simpl in H; [|done].
    destruct (Z.leb_spec i last) as [Hle|Hgt]; simplify_eq/=.
    destruct Hinv as (Hi & -> & _).
    unfold GoInt.in_range in Hstart.
    rewrite wrap_id by (unfold GoInt.in_range; lia).
    split; [|destruct c; lia].
    split; [lia|]. split; [|done].
    replace (i + 1 - 1) with i by lia. apply numbers_snoc. lia.
  - destruct g as [i|]; simpl in H; [|done].
    destruct (Z.leb_spec i last) as [Hle|Hgt]; simplify_eq/=.
    destruct Hinv as (Hi & -> & _). split; [|destruct c, k; lia].
    destruct (decide (start <= last + 1)) as [Hs|Hs].
    + replace (i - 1) with last by lia. done.
    + rewrite !numbers_nil by lia. done.
  - destruct g as [i|]; simpl in H; [|done].
    destruct (Z.leb_spec i last) as [Hle|Hgt]; simpl in H; [|done].
    destruct c; simplify_eq/=.
    destruct Hinv as (Hi & -> & _). split; [|destruct k; lia].
    split; [|done]. apply numbers_prefix. lia.
  - destruct g; try done. destruct k; simplify_eq/=. split; [done|lia].
  - destruct c; simplify_eq/=. split; [|destruct g, k; lia].
    destruct g; [done|]. by destruct Hinv.
  - destruct k; simplify_eq/=. split; [|destruct g, c; lia].
    destruct g; [|done]. destruct Hinv as (Hi & Hr & _). done.
Qed.

Lemma numbers_exec sched : forall s s',
  ninv s -> exec (step last) sched s = Some s' ->
  ninv s' /\ (length sched + measure last s' <= measure last s)%nat.
Proof.
  induction sched as [|l sched IH]; intros s s' Hinv Hex; simpl in Hex.
  - simplify_eq. split; [done|simpl; lia].
  - destruct (step last l s) as [s1|] eqn:E; [|done].
    destruct (numbers_ninv_step _ _ _ Hinv E) as [H1 Hm].
    destruct (IH _ _ H1 Hex) as [H2 Hb]. split; [done|simpl; lia].
Qed.

End Bounded.

(** X25. [GenerateNumbers(ctx, start, end)] with [end] below the largest
    [int], ranged over by its caller, under every schedule (the context
    may be cancelled and the caller may stop receiving at any point):
    the caller has always received a prefix of [start, start+1, ..., end];
    the run takes at most [max(0, end - start + 1) + 3] steps; when no
    goroutine can run, the context is not cancelled and the caller has
    not left, the channel is closed, the caller's [range] has ended and it
    has received exactly [start .. end] (nothing when [end < start]);
    and when the context is cancelled the goroutine has returned. *)
Theorem generate_numbers_emits_range
    (start last : Z) (sched : list label) (s : state) :
  GoInt.in_range start ->
  last < 2 ^ 63 - 1 ->
  exec (step last) sched (init start) = Some s ->
  received s `prefix_of` numbers start last /\
  (length sched <= Z.to_nat (last - start + 1) + 3)%nat /\
  (quiescent (step last) program s ->
     (cancelled s = false -> cons s <> ConsGone ->
        gen s = NumExited /\ cons s = ConsDone /\
        received s = numbers start last) /\
     (cancelled s = true -> gen s = NumExited /\ cons s <> Consuming)).
Proof.
  intros Hstart Hlast Hex.
  destruct (numbers_exec start last Hstart Hlast sched _ _
              (numbers_ninv_init start last) Hex) as [Hinv Hb].
  split; [|split].
  - unfold ninv in Hinv. destruct (gen s) as [i|]; [|by destruct Hinv].
    destruct Hinv as (Hi & -> & _).
    destruct (decide (start <= last + 1)) as [Hs|Hs].
    + apply numbers_prefix. lia.
    + rewrite numbers_nil by lia. apply prefix_nil.
  - unfold measure in Hb; simpl in Hb. lia.
  - intros Hq. unfold ninv in Hinv.
    destruct s as [c g k r]; simpl in *.
    assert (Hg : g = NumExited \/ (c = false /\ k = ConsGone)).
    { destruct g as [i|]; [|by left]. right.
      destruct (Z.leb_spec i last) as [Hle|Hgt].
      - pose proof (Hq Send I) as H1. pose proof (Hq GenCancel I) as H2.
        simpl in H1, H2. destruct (Z.leb_spec i last); [|lia].
        destruct c; [done|]. destruct k; try done. by destruct Hinv as (_ & _ & ?).
      - pose proof (Hq Exit I) as H1. simpl in H1.
        by destruct (Z.leb_spec i last); [lia|]. }
    split.
    + intros -> Hk. destruct Hg as [->|[_ ?]]; [|done].
      destruct Hinv as [_ Hr]. split; [done|]. split; [|by apply Hr].
      pose proof (Hq ConsEnd I) as H1. simpl in H1. by destruct k.
    + intros ->. destruct Hg as [->|[? _]]; [|done]. split; [done|].
      pose proof (Hq ConsEnd I) as H1. simpl in H1. by destruct k.
Qed.

Lemma generate_numbers_emits_range_witness :
  let sched := [Send; Send; Send; Send; Send; Exit; ConsEnd] in
  let s := Mk false NumExited ConsDone [1; 2; 3; 4; 5] in
  GoInt.in_range 1 /\ 5 < 2 ^ 63 - 1 /\
  exec (step 5) sched (init 1) = Some s /\
  received s `prefix_of` numbers 1 5 /\
  (length sched <= Z.to_nat (5 - 1 + 1) + 3)%nat.
Proof.
  intros sched s.
  assert (Hs : GoInt.in_range 1) by (unfold GoInt.in_range; lia).
  assert (Hl : 5 < 2 ^ 63 - 1) by lia.
  assert (Hex : exec (step 5) sched (init 1) = Some s) by reflexivity.
  destruct (generate_numbers_emits_range 1 5 sched s Hs Hl Hex) as (Hp & Hb & _).
  split; [exact Hs|]. split; [exact Hl|]. split; [exact Hex|].
  split; [exact Hp|exact Hb].
Defined.

(** The [k]-th value sent when the loop never ends: the counter wraps
    from the largest [int] to the smallest. *)
Definition nth_number (start : Z) (k : nat) : Z := GoInt.wrap (start + Z.of_nat k).

Definition uinv (start : Z) (s : state) : Prop :=
  cancelled s = false /\
  gen s = NumLoop (nth_number start (length (received s))) /\
  cons s <> ConsDone /\
  received s = nth_number start <$> seq 0 (length (received s)).

Lemma nth_number_succ start k :
  GoInt.wrap (nth_number start k + 1) = nth_number start (S k).
Proof.
  unfold nth_number. rewrite wrap_succ. f_equal. lia.
Qed.

Lemma nth_number_le start k : nth_number start k <= 2 ^ 63 - 1.
Proof.
  pose proof (wrap_in_range (start + Z.of_nat k)) as H.
  unfold GoInt.in_range, nth_number in *. lia.
Qed.

Lemma numbers_uinv_step start l s s' :
  l <> Cancel -> uinv start s -> step (2 ^ 63 - 1) l s = Some s' -> uinv start s'.
Proof.
  unfold uinv. destruct s as [c g k r]; simpl.
  intros Hl (-> & -> & Hk & Hr) H.
  pose proof (nth_number_le start (length r)) as Hle.
  destruct l; simpl in H; try done.
  - destruct k; try done.
    destruct (Z.leb_spec (nth_number start (length r)) (2 ^ 63 - 1)); [|lia].
    simplify_eq/=. rewrite length_app. simpl.
    replace (length r + 1)%nat with (S (length r)) by lia.
    split; [done|]. split; [by rewrite nth_number_succ|]. split; [done|].
    rewrite seq_S, fmap_app. simpl. by rewrite <- Hr.
  - by destruct (Z.leb_spec (nth_number start (length r)) (2 ^ 63 - 1)); [|lia].
  - by destruct (Z.leb_spec (nth_number start (length r)) (2 ^ 63 - 1)); [|lia].
  - destruct k; simplify_eq/=. done.
Qed.

Lemma numbers_sends start n :
  exec (step (2 ^ 63 - 1)) (replicate n Send) (init start)
  = Some (Mk false (NumLoop (nth_number start n)) Consuming
             (nth_number start <$> seq 0 n)) ->
  exec (step (2 ^ 63 - 1)) (replicate (S n) Send) (init start)
  = Some (Mk false (NumLoop (nth_number start (S n))) Consuming
             (nth_number start <$> seq 0 (S n))).
Proof.
  intros IH. rewrite seq_S, fmap_app, <- nth_number_succ.
  replace (S n) with (n + 1)%nat by lia.
  rewrite replicate_add. simpl. rewrite LTSFacts.exec_snoc, IH. simpl.
  pose proof (nth_number_le start n) as Hle.
  by destruct (Z.leb_spec (nth_number start n) (2 ^ 63 - 1)); [|lia].
Qed.

(** X26. [GenerateNumbers(ctx, start, end)] with [end] the largest [int]:
    [i <= end] never fails and [i++] wraps around, so unless the context
    is cancelled the goroutine never returns and the channel is never
    closed; the caller's [range] never ends and the [k]-th value it
    receives is [start + k] wrapped to 64 bits; as long as the caller
    receives, the next send is ready, and [n] sends in a row are a run for
    every [n]. *)
Theorem generate_numbers_max_end_never_closes
    (start : Z) (sched : list label) (s : state) :
  GoInt.in_range start ->
  Forall (fun l => l <> Cancel) sched ->
  exec (step (2 ^ 63 - 1)) sched (init start) = Some s ->
  gen s <> NumExited /\ cons s <> ConsDone /\
  received s = nth_number start <$> seq 0 (length (received s)) /\
  (cons s = Consuming -> is_Some (step (2 ^ 63 - 1) Send s)) /\
  forall n,
    exec (step (2 ^ 63 - 1)) (replicate n Send) (init start)
    = Some (Mk false (NumLoop (nth_number start n)) Consuming
               (nth_number start <$> seq 0 n)).
Proof.
  intros Hstart Hall Hex.
  assert (H0 : uinv start (init start)).
  { unfold uinv, nth_number; simpl. rewrite Z.add_0_r, wrap_id by done. done. }
  assert (Hinv : uinv start s).
  { apply (LTSFacts.exec_invariant (step (2 ^ 63 - 1)) (fun l => l <> Cancel)
             (uinv start)) with sched (init start); try done.
    intros l x y. apply numbers_uinv_step. }
  destruct Hinv as (Hc & Hg & Hk & Hr).
  split; [by rewrite Hg|]. split; [done|]. split; [done|]. split.
  - intros Hcons. simpl. rewrite Hcons, Hg. simpl.
    pose proof (nth_number_le start (length (received s))) as Hle.
    destruct (Z.leb_spec (nth_number start (length (received s))) (2 ^ 63 - 1));
      [by eexists|lia].
  - induction n as [|n IH]; [|by apply numbers_sends].
    simpl. unfold init, GenerateNumbers, nth_number.
    by rewrite Z.add_0_r, wrap_id by done.
Qed.

Lemma generate_numbers_max_end_never_closes_witness :
  let start := 2 ^ 63 - 2 in
  let sched := [Send; Send; Send; Leave] in
  let s := Mk false (NumLoop (- 2 ^ 63 + 1)) ConsGone
              [2 ^ 63 - 2; 2 ^ 63 - 1; - 2 ^ 63] in
  GoInt.in_range start /\
  exec (step (2 ^ 63 - 1)) sched (init start) = Some s /\
  gen s <> NumExited.
Proof.
  intros start sched s.
  assert (Hs : GoInt.in_range start) by (unfold GoInt.in_range, start; lia).
  assert (Hall : Forall (fun l => l <> Cancel) sched)
    by (repeat constructor; discriminate).
  assert (Hex : exec (step (2 ^ 63 - 1)) sched (init start) = Some s)
    by reflexivity.
  destruct (generate_numbers_max_end_never_closes start sched s Hs Hall Hex)
    as (Hg & _).
  split; [exact Hs|split; [exact Hex|exact Hg]].
Defined.

(** X27. As long as [i++] cannot overflow ([end] below the largest
    [int]), [GenerateNumbers] at counter [i] is the [Generator] over the
    list [i, i+1, ..., end]: sending, leaving the loop and taking the
    cancellation correspond step by step, and the counter stays in
    range; what is proved of a stage, fan or tee fed by [Generator]
    holds when it is fed by [GenerateNumbers]. *)
Theorem generate_numbers_is_a_generator (last i : Z) (c : bool) :
  GoInt.in_range i ->
  last < 2 ^ 63 - 1 ->
  gen_send (as_Generator last (NumLoop i))
  = prod_map id (as_Generator last) <$> num_send last (NumLoop i) /\
  gen_exit (as_Generator last (NumLoop i))
  = as_Generator last <$> num_exit last (NumLoop i) /\
  gen_cancel c (as_Generator last (NumLoop i))
  = as_Generator last <$> num_cancel last c (NumLoop i) /\
  (forall v g, num_send last (NumLoop i) = Some (v, g) ->
     v = i /\ g = NumLoop (i + 1) /\ GoInt.in_range (i + 1)).
Proof.
  intros Hi Hlast. unfold GoInt.in_range in Hi. simpl.
  destruct (Z.leb_spec i last) as [Hle|Hgt]; simpl.
  - rewrite wrap_id by (unfold GoInt.in_range; lia).
    rewrite numbers_cons by done. simpl.
    split; [done|]. split; [done|]. split; [by destruct c|].
    intros v g [= <- <-]. unfold GoInt.in_range. split; [done|]. split; [done|lia].
  - rewrite numbers_nil by done. simpl. done.
Qed.

Lemma generate_numbers_is_a_generator_witness :
  GoInt.in_range 1 /\ 5 < 2 ^ 63 - 1 /\
  gen_send (Generator [1; 2; 3; 4; 5])
  = Some (1, as_Generator 5 (NumLoop 2)).
Proof.
  assert (Hs : GoInt.in_range 1) by (unfold GoInt.in_range; lia).
  assert (Hl : 5 < 2 ^ 63 - 1) by lia.
  destruct (generate_numbers_is_a_generator 5 1 false Hs Hl) as (H & _).
  split; [exact Hs|]. split; [exact Hl|]. exact H.
Defined.

End NumbersFacts.

(** ** SafeCounter *)

Module CounterFacts.
Import LTS Counter.

Lemma sum_list_with_lookup_le {A} (g : A -> nat) (l : list A) i x :
  l !! i = Some x -> (g x <= sum_list_with g l)%nat.
Proof.
  revert i; induction l as [|a l IH]; intros [|i] H; simplify_eq/=; [lia|].
  specialize (IH _ H). lia.
Qed.

Lemma sum_list_with_snoc {A} (g : A -> nat) (l : list A) x :
  sum_list_with g (l ++ [x]) = (sum_list_with g l + g x)%nat.
Proof. rewrite sum_list_with_app. simpl. lia. Qed.

(** Every goroutine has called [wg.Done()]. *)
Lemma all_done (l : list inc_pc) :
  sum_list_with live l = O ->
  Forall (fun pc => pc = IDone) l /\
  sum_list_with holding l = O /\
  sum_list_with stored l = length l /\
  sum_list_with todo l = O.
Proof.
  induction l as [|pc l IH]; simpl; [done|].
  intros H. destruct pc; simpl in H; try lia.
  destruct (IH H) as (Ha & Hh & Hs & Ht).
  split; [by constructor|]. simpl. lia.
Qed.

(** With one goroutine between [Lock] and [Unlock], no other is. *)
Lemma single_holder (l : list inc_pc) i pc :
  sum_list_with holding l = 1%nat -> l !! i = Some pc -> holding pc = 1%nat ->
  forall j pc', j <> i -> l !! j = Some pc' -> holding pc' = O.
Proof.
  intros Hsum Hi Hpc j pc' Hne Hj.
  pose proof (SliceFacts.sum_list_with_insert holding l i pc IStart Hi) as E.
  simpl in E.
  assert (Hz : sum_list_with holding (<[i := IStart]> l) = O) by lia.
  apply SliceFacts.sum_list_with_zero in Hz.
  apply (Forall_lookup_1 _ _ j pc' Hz). by rewrite list_lookup_insert_ne.
Qed.

Definition main_ok (n : nat) (s : state) : Prop :=
  match main s with
  | MSpawn more =>
      (length (pcs s) + more = n)%nat /\ (mu s = Free \/ mu s = Writer)
  | MValue =>
      length (pcs s) = n /\ sum_list_with live (pcs s) = O /\ mu s = Free
  | MRLocked =>
      length (pcs s) = n /\ sum_list_with live (pcs s) = O /\ mu s = Readers 1
  | MRead v =>
      length (pcs s) = n /\ sum_list_with live (pcs s) = O /\ mu s = Readers 1 /\
      v = count s
  | MDone v =>
      length (pcs s) = n /\ sum_list_with live (pcs s) = O /\ mu s = Free /\
      v = count s
  end.

Definition cinv (n : nat) (s : state) : Prop :=
  panicked s = false /\
  count s = GoInt.wrap (Z.of_nat (sum_list_with stored (pcs s))) /\
  wg s = Z.of_nat (sum_list_with live (pcs s)) /\
  sum_list_with holding (pcs s) = (match mu s with Writer => 1 | _ => 0 end)%nat /\
  Forall (fun pc => forall t, pc = ILoaded t -> t = count s) (pcs s) /\
  main_ok n s.

Lemma counter_init n : cinv n (init n).
Proof.
  unfold cinv, main_ok; simpl.
  split; [done|]. split; [done|]. split; [done|]. split; [done|].
  split; [constructor|]. split; [done|by left].
Qed.

Lemma counter_step_measure l s s' :
  step l s = Some s' -> (measure s' < measure s)%nat.
Proof.
  unfold step, measure, set_pc. destruct s as [m c w l0 mn pan]; simpl.
  destruct pan; [done|]. intros H.
  destruct l as [| | | | |i|i|i|i|i].
  - destruct mn as [[|k]| | | |]; simplify_eq/=.
    rewrite sum_list_with_snoc. simpl. lia.
  - destruct mn as [[|k]| | | |]; try done.
    destruct (w =? 0); simplify_eq/=. lia.
  - destruct mn; try done. destruct m; simplify_eq/=; lia.
  - destruct mn; simplify_eq/=. lia.
  - destruct mn; try done. destruct m as [| |[|[|k]]]; simplify_eq/=; lia.
  - destruct (l0 !! i) as [[| | | | |]|] eqn:Hi; try done.
    destruct m; simplify_eq/=.
    pose proof (SliceFacts.sum_list_with_insert todo l0 i _ ILocked Hi) as E.
    simpl in E. lia.
  - destruct (l0 !! i) as [[| | | | |]|] eqn:Hi; simplify_eq/=.
    pose proof (SliceFacts.sum_list_with_insert todo l0 i _ (ILoaded c) Hi) as E.
    simpl in E. lia.
  - destruct (l0 !! i) as [[| | | | |]|] eqn:Hi; simplify_eq/=.
    pose proof (SliceFacts.sum_list_with_insert todo l0 i _ IStored Hi) as E.
    simpl in E. lia.
  - destruct (l0 !! i) as [[| | | | |]|] eqn:Hi; try done.
    destruct m; simplify_eq/=; try lia.
    pose proof (SliceFacts.sum_list_with_insert todo l0 i _ IUnlocked Hi) as E.
    simpl in E. lia.
  - destruct (l0 !! i) as [[| | | | |]|] eqn:Hi; try done.
    destruct (0 <? w); simplify_eq/=; try lia.
    pose proof (SliceFacts.sum_list_with_insert todo l0 i _ IDone Hi) as E.
    simpl in E. lia.
Qed.

(** The four counts after goroutine [i] has moved from [pc] to [pc']. *)
Lemma counts_insert (l : list inc_pc) i pc pc' :
  l !! i = Some pc ->
  (sum_list_with stored (<[i := pc']> l) + stored pc
   = sum_list_with stored l + stored pc')%nat /\
  (sum_list_with live (<[i := pc']> l) + live pc
   = sum_list_with live l + live pc')%nat /\
  (sum_list_with holding (<[i := pc']> l) + holding pc
   = sum_list_with holding l + holding pc')%nat /\
  (live pc <= sum_list_with live l)%nat /\
  (holding pc <= sum_list_with holding l)%nat.
Proof.
  intros Hi.
  split; [by apply SliceFacts.sum_list_with_insert|].
  split; [by apply SliceFacts.sum_list_with_insert|].
  split; [by apply SliceFacts.sum_list_with_insert|].
  split; by eapply sum_list_with_lookup_le.
Qed.

Lemma main_ok_spawning n s :
  main_ok n s -> (0 < sum_list_with live (pcs s))%nat ->
  exists more, main s = MSpawn more /\ (length (pcs s) + more = n)%nat /\
    (mu s = Free \/ mu s = Writer).
Proof.
  unfold main_ok. intros H Hl. destruct (main s) as [more| | | |].
  - by exists more.
  - destruct H as (_ & ? & _); lia.
  - destruct H as (_ & ? & _); lia.
  - destruct H as (_ & ? & _); lia.
  - destruct H as (_ & ? & _); lia.
Qed.

Lemma counter_cinv_step n l s s' :
  cinv n s -> step l s = Some s' -> cinv n s'.
Proof.
  unfold cinv, step, set_pc. destruct s as [m c w l0 mn pan]; simpl.
  intros (-> & Hc & Hw & Hh & Hld & Hm) H.
  destruct l as [| | | | |i|i|i|i|i].
  - (* Spawn *)
    unfold main_ok in *; simpl in *.
    destruct mn as [[|k]| | | |]; simplify_eq/=.
    rewrite !sum_list_with_snoc, length_app. simpl.
    rewrite !Nat.add_0_r.
    split; [done|]. split; [done|]. split; [lia|]. split; [done|].
    split; [|split; [lia|by destruct Hm]].
    apply Forall_app; split; [done|]. by repeat constructor.
  - (* Wait *)
    unfold main_ok in *; simpl in *.
    destruct mn as [[|k]| | | |]; try done.
    destruct (Z.eqb_spec w 0) as [Hz|Hz]; [|done]. simplify_eq/=.
    assert (Hl : sum_list_with live l0 = O) by lia.
    destruct (all_done _ Hl) as (_ & Hh0 & _).
    destruct Hm as (Hn & [->| ->]); [|lia].
    split; [done|]. split; [done|]. split; [done|]. split; [done|].
    split; [done|]. split; [lia|done].
  - (* RLock *)
    unfold main_ok in *; simpl in *.
    destruct mn; try done. destruct Hm as (Hn & Hl & ->). simplify_eq/=.
    done.
  - (* ReadValue *)
    unfold main_ok in *; simpl in *.
    destruct mn; simplify_eq/=. destruct Hm as (Hn & Hl & ->). done.
  - (* RUnlock *)
    unfold main_ok in *; simpl in *.
    destruct mn; try done. destruct Hm as (Hn & Hl & -> & ->). simplify_eq/=.
    done.
  - (* Lock i *)
    destruct (l0 !! i) as [[| | | | |]|] eqn:Hi; try done.
    destruct m; simplify_eq/=.
    destruct (counts_insert l0 i _ ILocked Hi) as (Es & El & Eh & Hl1 & _).
    simpl in *.
    destruct (main_ok_spawning n _ Hm) as (more & Hmn & Hn & _); [simpl; lia|].
    simpl in Hmn. subst mn.
    split; [done|]. split; [by replace (sum_list_with stored (<[i:=ILocked]> l0))
                              with (sum_list_with stored l0) by lia|].
    split; [lia|]. split; [lia|].
    split; [by apply Forall_insert|].
    unfold main_ok; simpl. rewrite length_insert. split; [done|by right].
  - (* Load i *)
    destruct (l0 !! i) as [[| | | | |]|] eqn:Hi; try done.
    injection H as <-; simpl.
    destruct (counts_insert l0 i _ (ILoaded c) Hi) as (Es & El & Eh & Hl1 & _).
    simpl in *.
    destruct (main_ok_spawning n _ Hm) as (more & Hmn & Hn & Hmu); [simpl; lia|].
    simpl in Hmn, Hmu. subst mn.
    split; [done|]. split; [by replace (sum_list_with stored (<[i:=ILoaded c]> l0))
                              with (sum_list_with stored l0) by lia|].
    split; [lia|]. split; [lia|].
    split; [apply Forall_insert; [done|by intros t [= <-]]|].
    unfold main_ok; simpl. by rewrite length_insert.
  - (* Store i *)
    destruct (l0 !! i) as [[| |tmp| | |]|] eqn:Hi; try done.
    injection H as <-; simpl.
    destruct (counts_insert l0 i _ IStored Hi) as (Es & El & Eh & Hl1 & Hh1).
    simpl in *.
    destruct (main_ok_spawning n _ Hm) as (more & Hmn & Hn & Hmu); [simpl; lia|].
    simpl in Hmn, Hmu. subst mn.
    pose proof (Forall_lookup_1 _ _ _ _ Hld Hi tmp eq_refl) as ->.
    assert (Hone : sum_list_with holding l0 = 1%nat) by (destruct m; lia).
    split; [done|]. split.
    { rewrite Hc, NumbersFacts.wrap_succ. f_equal. lia. }
    split; [lia|]. split; [lia|]. split.
    + apply Forall_lookup_2. intros j pc Hj t ->.
      apply list_lookup_insert_Some in Hj as [(_ & ? & _)|(Hne & Hj)]; [done|].
      by pose proof (single_holder l0 i _ Hone Hi eq_refl j _ ltac:(done) Hj).
    + unfold main_ok; simpl. by rewrite length_insert.
  - (* Unlock i *)
    destruct (l0 !! i) as [[| | | | |]|] eqn:Hi; try done.
    destruct (counts_insert l0 i _ IUnlocked Hi) as (Es & El & Eh & Hl1 & Hh1).
    simpl in *.
    destruct (main_ok_spawning n _ Hm) as (more & Hmn & Hn & Hmu); [simpl; lia|].
    simpl in Hmn, Hmu. subst mn.
    destruct Hmu as [-> | ->]; [lia|]. simplify_eq/=.
    split; [done|]. split; [by replace (sum_list_with stored (<[i:=IUnlocked]> l0))
                              with (sum_list_with stored l0) by lia|].
    split; [lia|]. split; [lia|].
    split; [by apply Forall_insert|].
    unfold main_ok; simpl. rewrite length_insert. split; [done|by left].
  - (* WgDone i *)
    destruct (l0 !! i) as [[| | | | |]|] eqn:Hi; try done.
    destruct (counts_insert l0 i _ IDone Hi) as (Es & El & Eh & Hl1 & Hh1).
    simpl in *.
    destruct (main_ok_spawning n _ Hm) as (more & Hmn & Hn & Hmu); [simpl; lia|].
    simpl in Hmn, Hmu. subst mn.
    destruct (Z.ltb_spec 0 w) as [Hpos|Hneg]; [|lia]. simplify_eq/=.
    split; [done|]. split; [by replace (sum_list_with stored (<[i:=IDone]> l0))
                              with (sum_list_with stored l0) by lia|].
    split; [lia|]. split; [lia|].
    split; [by apply Forall_insert|].
    unfold main_ok; simpl. by rewrite length_insert.
Qed.

Lemma counter_quiescent_done n s :
  cinv n s -> (forall l, step l s = None) -> exists v, main s = MDone v.
Proof.
  unfold cinv, main_ok. destruct s as [m c w l0 mn pan]; simpl.
  intros (-> & Hc & Hw & Hh & Hld & Hm) Hq.
  destruct mn as [[|k]| | | |v].
  - destruct Hm as [Hn Hmu].
    destruct (decide (sum_list_with live l0 = O)) as [Hz|Hpos].
    { pose proof (Hq Wait) as H. unfold step in H; simpl in H.
      destruct (Z.eqb_spec w 0); [done|lia]. }
    destruct Hmu as [-> | ->].
    + destruct (SliceFacts.sum_list_with_pos live l0) as (i & pc & Hi & Hpc); [lia|].
      pose proof (sum_list_with_lookup_le holding l0 i pc Hi) as Hle.
      pose proof (Hq (Lock i)) as H1. pose proof (Hq (WgDone i)) as H2.
      unfold step in H1, H2; simpl in H1, H2. rewrite Hi in H1, H2.
      destruct pc; simpl in *; try done; try lia.
      by destruct (0 <? w).
    + destruct (SliceFacts.sum_list_with_pos holding l0) as (i & pc & Hi & Hpc); [lia|].
      pose proof (Hq (Load i)) as H1. pose proof (Hq (Store i)) as H2.
      pose proof (Hq (Unlock i)) as H3.
      unfold step in H1, H2, H3; simpl in H1, H2, H3. rewrite Hi in H1, H2, H3.
      destruct pc; simpl in *; try done; lia.
  - by pose proof (Hq Spawn) as H.
  - destruct Hm as (_ & _ & ->). by pose proof (Hq RLock) as H.
  - by pose proof (Hq ReadValue) as H.
  - destruct Hm as (_ & _ & -> & _). by pose proof (Hq RUnlock) as H.
  - by exists v.
Qed.

Lemma counter_exec n sched : forall s s',
  cinv n s -> exec step sched s = Some s' ->
  cinv n s' /\ (length sched + measure s' <= measure s)%nat.
Proof.
  induction sched as [|l sched IH]; intros s s' Hinv Hex; simpl in Hex.
  - simplify_eq. split; [done|simpl; lia].
  - destruct (step l s) as [s1|] eqn:E; [|done].
    pose proof (counter_cinv_step _ _ _ _ Hinv E) as H1.
    pose proof (counter_step_measure _ _ _ E) as Hm.
    destruct (IH _ _ H1 Hex) as [H2 Hb]. split; [done|simpl; lia].
Qed.

Lemma counter_labels_complete (s s' : state) (l : label) :
  step l s = Some s' -> l ∈ labels s.
Proof.
  intros H. unfold labels.
  destruct l; try (apply elem_of_app; left; rewrite !elem_of_cons; tauto).
  all: apply elem_of_app; right; apply list_elem_of_In, in_flat_map.
  all: exists i; split; [|simpl; tauto].
  all: apply in_seq; split; [lia|]; simpl.
  all: unfold step in H; destruct (panicked s); try done.
  all: destruct (pcs s !! i) eqn:E; [|done].
  all: by eapply lookup_lt_Some.
Qed.

Lemma counter_run_quiescent (s0 : state) (l : label) :
  step l (run step labels (measure s0) s0) = None.
Proof.
  destruct (step l _) as [s'|] eqn:E; [|done].
  pose proof (counter_labels_complete _ _ _ E) as Hin.
  pose proof (LTSFacts.run_stops step (fun _ => True) labels
                (fun _ _ _ => I) measure
                (fun l s s' _ => counter_step_measure l s s') (measure s0) s0
                (le_n _)) as Hpick.
  rewrite (LTSFacts.pick_None step _ _ Hpick l Hin) in E. done.
Qed.

Lemma counter_done n s v :
  cinv n s -> main s = MDone v ->
  v = GoInt.wrap (Z.of_nat n) /\ count s = v /\
  Forall (fun pc => pc = IDone) (pcs s) /\ length (pcs s) = n.
Proof.
  unfold cinv, main_ok. intros (_ & Hc & _ & _ & _ & Hm) Hv. rewrite Hv in Hm.
  destruct Hm as (Hn & Hl & _ & ->).
  destruct (all_done _ Hl) as (Hall & _ & Hs & _).
  rewrite Hc, Hs, Hn. done.
Qed.

(** X28. [SafeCounter] incremented once by each of [n] goroutines, as in
    [ExampleConcurrency], with [c.count++] taken as a read followed by a
    write: under every schedule nothing panics, the run takes at most
    [6 n + 5] steps, at most one goroutine is between [Lock] and
    [Unlock], and [c.count] is the number of goroutines whose write has
    happened (no update is lost); when [Value] has returned, every
    goroutine has finished and the value is [n] (as a 64-bit [int]); the
    program stops only after [Value] has returned, and it does return
    [n] under the first-enabled scheduler. *)
Theorem safe_counter_counts_every_increment
    (n : nat) (sched : list label) (s : state) :
  exec step sched (init n) = Some s ->
  panicked s = false /\
  (length sched <= 6 * n + 5)%nat /\
  (sum_list_with holding (pcs s) <= 1)%nat /\
  count s = GoInt.wrap (Z.of_nat (sum_list_with stored (pcs s))) /\
  (forall v, main s = MDone v ->
     v = GoInt.wrap (Z.of_nat n) /\ count s = v /\
     Forall (fun pc => pc = IDone) (pcs s) /\ length (pcs s) = n) /\
  ((forall l, step l s = None) -> exists v, main s = MDone v) /\
  final_count n = Some (GoInt.wrap (Z.of_nat n)) /\
  (Z.of_nat n < 2 ^ 63 -> final_count n = Some (Z.of_nat n)).
Proof.
  intros Hex.
  destruct (counter_exec n sched _ _ (counter_init n) Hex) as [Hinv Hb].
  assert (Hfin : final_count n = Some (GoInt.wrap (Z.of_nat n))).
  { unfold final_count.
    destruct (LTSFacts.run_exec step (fun _ => True) labels (fun _ _ _ => I)
                (measure (init n)) (init n)) as (sched' & _ & Hex').
    destruct (counter_exec n sched' _ _ (counter_init n) Hex') as [Hinv' _].
    destruct (counter_quiescent_done n _ Hinv' (counter_run_quiescent (init n)))
      as [v Hv].
    rewrite Hv. by destruct (counter_done n _ v Hinv' Hv) as (-> & _). }
  split; [by destruct Hinv|].
  split; [unfold measure in Hb; simpl in Hb; lia|].
  split; [destruct Hinv as (_ & _ & _ & -> & _); destruct (mu s); lia|].
  split; [by destruct Hinv as (_ & ? & _)|].
  split; [intros v; by apply counter_done|].
  split; [by apply counter_quiescent_done with n|].
  split; [done|].
  intros Hn. rewrite Hfin. f_equal. apply NumbersFacts.wrap_id.
  unfold GoInt.in_range. lia.
Qed.

Lemma safe_counter_counts_every_increment_witness :
  let sched := [Spawn; Lock 0; Spawn; Load 0; Spawn; Store 0; Unlock 0;
                Lock 2; Load 2; WgDone 0; Store 2; Unlock 2; Lock 1; Load 1;
                Store 1; Unlock 1; WgDone 1; WgDone 2; Wait; RLock;
                ReadValue; RUnlock]%nat in
  let s := Mk Free 3 0 [IDone; IDone; IDone] (MDone 3) false in
  exec step sched (init 3) = Some s /\
  (length sched <= 6 * 3 + 5)%nat /\
  final_count 3 = Some (GoInt.wrap 3).
Proof.
  intros sched s.
  assert (Hex : exec step sched (init 3) = Some s) by reflexivity.
  destruct (safe_counter_counts_every_increment 3 sched s Hex)
    as (_ & Hlen & _ & _ & _ & _ & Hfin & _).
  split; [exact Hex|]. split; [exact Hlen|exact Hfin].
Defined.

End CounterFacts.

(** ** DoWithTimeout *)

Module TimeoutFacts.
Import LTS Timeout.

Definition tinv (timeout : Z) (s : state) : Prop :=
  0 <= now s /\
  (worker s <> SSleeping -> 200 * Millisecond <= now s) /\
  (ctx_err s = Some DeadlineExceeded -> timeout <= now s) /\
  match main s with
  | MSelect => worker s <> SDone /\ ctx_err s <> Some Canceled
  | MReturned None => worker s = SDone
  | MReturned (Some e) =>
      e = DeadlineExceeded /\ ctx_err s = Some DeadlineExceeded /\ worker s <> SDone
  end.

Lemma timeout_tinv_init timeout : tinv timeout (init timeout).
Proof.
  unfold tinv, init; simpl. split; [done|]. split; [done|].
  destruct (Z.leb_spec timeout 0); (split; [|done]); [by intros _|done].
Qed.

Lemma timeout_tinv_step timeout l s s' :
  tinv timeout s -> step timeout l s = Some s' -> tinv timeout s'.
Proof.
  unfold tinv. destruct s as [t e w m]; simpl. intros (Ht & Hw & He & Hm) H.
  destruct l as [d| | | |]; simpl in H.
  - destruct (Z.ltb_spec 0 d); simplify_eq/=.
    split; [lia|]. split; [intros Hx; specialize (Hw Hx); lia|].
    split; [intros Hx; specialize (He Hx); lia|done].
  - destruct w; try done.
    destruct (Z.leb_spec (200 * Millisecond) t); simplify_eq/=.
    split; [done|]. split; [done|]. split; [done|].
    destruct m as [|[err|]]; [|by destruct Hm as (? & ? & _)|done].
    by destruct Hm.
  - destruct e; try done. destruct (Z.leb_spec timeout t); simplify_eq/=.
    split; [done|]. split; [done|]. split; [done|].
    destruct m as [|[err|]]; [|by destruct Hm as (? & ? & _)|done].
    by destruct Hm.
  - destruct w; try done. destruct m; simplify_eq/=.
    split; [done|]. split; [by intros _; apply Hw|]. split; [|done].
    destruct e as [[|]|]; simpl; first [done|by destruct Hm].
  - destruct e as [err|]; try done. destruct m; simplify_eq/=.
    destruct Hm as [Hw' He']. split; [done|]. split; [done|]. split; [done|].
    by destruct err.
Qed.

(** After the timeout branch nobody receives from [done] any more. *)
Lemma timeout_leak_step timeout e l s s' :
  main s = MReturned (Some e) -> worker s <> SDone ->
  step timeout l s = Some s' ->
  main s' = MReturned (Some e) /\ worker s' <> SDone.
Proof.
  destruct s as [t ce w m]; simpl. intros -> Hw H.
  destruct l as [d| | | |]; simpl in H.
  - by destruct (0 <? d); simplify_eq/=.
  - destruct w; try done. by destruct (200 * Millisecond <=? t); simplify_eq/=.
  - destruct ce; try done. by destruct (timeout <=? t); simplify_eq/=.
  - by destruct w.
  - by destruct ce.
Qed.

(** X29. [DoWithTimeout(timeout)] under every schedule: it returns [nil]
    only together with the worker's send, not before 200 ms have passed;
    an error it returns is [DeadlineExceeded], not before the timeout has
    passed, and then the worker goroutine can never finish: whatever
    happens afterwards it stays asleep or blocked in [done <- true],
    which nobody receives any more; and while [DoWithTimeout] is in its
    [select] the worker has not finished. *)
Theorem do_with_timeout_outcomes
    (timeout : Z) (sched : list label) (s : state) :
  exec (step timeout) sched (init timeout) = Some s ->
  (main s = MReturned None ->
     worker s = SDone /\ 200 * Millisecond <= now s) /\
  (forall e, main s = MReturned (Some e) ->
     e = DeadlineExceeded /\ timeout <= now s /\
     forall sched' s', exec (step timeout) sched' s = Some s' ->
       main s' = main s /\ worker s' <> SDone) /\
  (main s = MSelect -> worker s <> SDone).
Proof.
  intros Hex.
  assert (Hinv : tinv timeout s).
  { apply (LTSFacts.exec_invariant (step timeout) (fun _ => True) (tinv timeout))
      with sched (init timeout); [|by apply Forall_true| |done].
    - intros l x y _. apply timeout_tinv_step.
    - apply timeout_tinv_init. }
  destruct Hinv as (Ht & Hw & He & Hm).
  split; [|split].
  - intros Hr. rewrite Hr in Hm. split; [done|]. apply Hw. by rewrite Hm.
  - intros e Hr. rewrite Hr in Hm. destruct Hm as (-> & Hce & Hnd).
    split; [done|]. split; [by apply He|].
    intros sched' s' Hex'. rewrite Hr.
    apply (LTSFacts.exec_invariant (step timeout) (fun _ => True)
             (fun x => main x = MReturned (Some DeadlineExceeded) /\ worker x <> SDone))
      with sched' s; [|by apply Forall_true|done|done].
    intros l x y _ [Hx1 Hx2]. by apply timeout_leak_step.
  - intros Hr. rewrite Hr in Hm. by destruct Hm.
Qed.

Lemma do_with_timeout_outcomes_witness :
  let timeout := 100 * Millisecond in
  let sched := [Tick timeout; Expire; TakeCtx; Tick timeout; Wake] in
  let s := Mk (200 * Millisecond) (Some DeadlineExceeded) SSending
              (MReturned (Some DeadlineExceeded)) in
  exec (step timeout) sched (init timeout) = Some s /\
  forall sched' s', exec (step timeout) sched' s = Some s' ->
    main s' = main s /\ worker s' <> SDone.
Proof.
  intros timeout sched s.
  assert (Hex : exec (step timeout) sched (init timeout) = Some s) by reflexivity.
  destruct (do_with_timeout_outcomes timeout sched s Hex) as (_ & He & _).
  destruct (He DeadlineExceeded eq_refl) as (_ & _ & Hleak).
  split; [exact Hex|exact Hleak].
Defined.

End TimeoutFacts.

(** ** SelectExample *)

Module SelectExFacts.
Import LTS Timeout SelectEx.

(** The states [SelectExample] can be in: what has been printed fixes
    which senders have finished. *)
Definition sinv (s : state) : Prop :=
  0 <= now s /\
  (sender1 s <> SSleeping -> 100 * Millisecond <= now s) /\
  (sender2 s <> SSleeping -> 50 * Millisecond <= now s) /\
  match loop s, printed s with
  | LSelect 0, [] => sender1 s <> SDone /\ sender2 s <> SDone
  | LSelect 1, [FromCh1] => sender1 s = SDone /\ sender2 s <> SDone
  | LSelect 1, [FromCh2] => sender1 s <> SDone /\ sender2 s = SDone
  | LReturned, [FromCh1; FromCh2] => sender1 s = SDone /\ sender2 s = SDone
  | LReturned, [FromCh2; FromCh1] => sender1 s = SDone /\ sender2 s = SDone
  | LReturned, [Cancelled] =>
      cancelled s = true /\ sender1 s <> SDone /\ sender2 s <> SDone
  | LReturned, [FromCh1; Cancelled] =>
      cancelled s = true /\ sender1 s = SDone /\ sender2 s <> SDone
  | LReturned, [FromCh2; Cancelled] =>
      cancelled s = true /\ sender1 s <> SDone /\ sender2 s = SDone
  | _, _ => False
  end.

Lemma select_sinv_init : sinv init.
Proof. unfold sinv, init, Millisecond; simpl. repeat split; try done; lia. Qed.

Ltac shape Hm :=
  match type of Hm with
  | match ?x with _ => _ end => destruct x; try done; shape Hm
  | _ => idtac
  end.

Lemma select_sinv_step l s s' : sinv s -> step l s = Some s' -> sinv s'.
Proof.
  unfold sinv. destruct s as [t c s1 s2 lp out]; simpl.
  intros (Ht & H1 & H2 & Hm) H.
  destruct l as [d| | | | | |]; simpl in H.
  - destruct (Z.ltb_spec 0 d); simplify_eq/=.
    split; [lia|]. split; [intros Hx; specialize (H1 Hx); lia|].
    split; [intros Hx; specialize (H2 Hx); lia|done].
  - destruct s1; try done.
    destruct (Z.leb_spec (100 * Millisecond) t); simplify_eq/=.
    split; [done|]. split; [done|]. split; [done|].
    shape Hm; destruct Hm; try done; destruct_and?; done.
  - destruct s2; try done.
    destruct (Z.leb_spec (50 * Millisecond) t); simplify_eq/=.
    split; [done|]. split; [done|]. split; [done|].
    shape Hm; destruct Hm; try done; destruct_and?; done.
  - destruct s1; try done. destruct lp as [i|]; simplify_eq/=.
    split; [done|]. split; [by intros _; apply H1|]. split; [done|].
    shape Hm; destruct Hm; done.
  - destruct s2; try done. destruct lp as [i|]; simplify_eq/=.
    split; [done|]. split; [done|]. split; [by intros _; apply H2|].
    shape Hm; destruct Hm; done.
  - destruct lp as [i|]; try done. destruct c; simplify_eq/=.
    split; [done|]. split; [done|]. split; [done|].
    shape Hm; destruct Hm; done.
  - destruct c; simplify_eq/=.
    split; [done|]. split; [done|]. split; [done|].
    shape Hm; destruct Hm; try done; destruct_and?; done.
Qed.

(** After [SelectExample] has returned nobody receives any more. *)
Lemma select_leak_step l s s' :
  loop s = LReturned -> step l s = Some s' ->
  loop s' = LReturned /\ printed s' = printed s /\
  (sender1 s <> SDone -> sender1 s' <> SDone) /\
  (sender2 s <> SDone -> sender2 s' <> SDone).
Proof.
  destruct s as [t c s1 s2 lp out]; simpl. intros -> H.
  destruct l as [d| | | | | |]; simpl in H.
  - by destruct (0 <? d); simplify_eq/=.
  - destruct s1; try done. by destruct (100 * Millisecond <=? t); simplify_eq/=.
  - destruct s2; try done. by destruct (50 * Millisecond <=? t); simplify_eq/=.
  - by destruct s1.
  - by destruct s2.
  - done.
  - by destruct c; simplify_eq/=.
Qed.

(** X30. [SelectExample] under every schedule, with the context
    cancelled at any moment or never: when it has returned it has
    printed one of five outputs, both messages in either order, or at most
    one message followed by "Context cancelled"; without cancellation it
    has printed both messages, both senders have finished and at least
    100 ms have passed; a message is printed exactly when its sender has
    finished, and a sender that has not finished when [SelectExample]
    returns never does: it stays asleep or blocked in its send. *)
Theorem select_example_outcomes (sched : list label) (s : state) :
  exec step sched init = Some s ->
  loop s = LReturned ->
  printed s ∈ [[FromCh1; FromCh2]; [FromCh2; FromCh1]; [Cancelled];
               [FromCh1; Cancelled]; [FromCh2; Cancelled]] /\
  (cancelled s = false ->
     sender1 s = SDone /\ sender2 s = SDone /\ 100 * Millisecond <= now s) /\
  (FromCh1 ∈ printed s <-> sender1 s = SDone) /\
  (FromCh2 ∈ printed s <-> sender2 s = SDone) /\
  forall sched' s', exec step sched' s = Some s' ->
    loop s' = LReturned /\ printed s' = printed s /\
    (sender1 s <> SDone -> sender1 s' <> SDone) /\
    (sender2 s <> SDone -> sender2 s' <> SDone).
Proof.
  intros Hex Hret.
  assert (Hinv : sinv s).
  { apply (LTSFacts.exec_invariant step (fun _ => True) sinv)
      with sched init; [|by apply Forall_true|apply select_sinv_init|done].
    intros l x y _. apply select_sinv_step. }
  split; [|split; [|split; [|split]]].
  - destruct Hinv as (_ & _ & _ & Hm). rewrite Hret in Hm.
    shape Hm; rewrite !elem_of_cons; tauto.
  - intros Hc. destruct Hinv as (_ & H1 & _ & Hm). rewrite Hret, Hc in Hm.
    shape Hm; destruct Hm as [Hs1 Hs2]; try done.
    all: split; [done|]; split; [done|]; apply H1; by rewrite Hs1.
  - destruct Hinv as (_ & _ & _ & Hm). rewrite Hret in Hm.
    shape Hm; destruct_and?; rewrite ?elem_of_cons, ?elem_of_nil;
      intuition congruence.
  - destruct Hinv as (_ & _ & _ & Hm). rewrite Hret in Hm.
    shape Hm; destruct_and?; rewrite ?elem_of_cons, ?elem_of_nil;
      intuition congruence.
  - clear Hex Hinv. intros sched'. revert s Hret.
    induction sched' as [|l sched' IH]; intros s Hret s' Hex'; simpl in Hex'.
    + by simplify_eq.
    + destruct (step l s) as [s1|] eqn:E; [|done].
      destruct (select_leak_step _ _ _ Hret E) as (Hr1 & Hp1 & Ha & Hb).
      destruct (IH s1 Hr1 s' Hex') as (Hr2 & Hp2 & Hc & Hd).
      split; [done|]. split; [congruence|]. split; auto.
Qed.

Lemma select_example_outcomes_witness :
  let sched := [Tick (50 * Millisecond); Wake2; Recv2; Cancel; TakeCtx;
                Tick (50 * Millisecond); Wake1] in
  let s := Mk (100 * Millisecond) true SSending SDone LReturned
              [FromCh2; Cancelled] in
  exec step sched init = Some s /\ loop s = LReturned /\
  forall sched' s', exec step sched' s = Some s' -> sender1 s' <> SDone.
Proof.
  intros sched s.
  assert (Hex : exec step sched init = Some s) by reflexivity.
  assert (Hret : loop s = LReturned) by reflexivity.
  destruct (select_example_outcomes sched s Hex Hret) as (_ & _ & _ & _ & Hleak).
  split; [exact Hex|]. split; [exact Hret|].
  intros sched' s' Hex'.
  destruct (Hleak sched' s' Hex') as (_ & _ & H1 & _).
  apply H1. discriminate.
Defined.

End SelectExFacts.
